(** * delete-old-files: a shallow embedding of [main.go]

    The program lists the non-directory entries of a directory oldest
    first, keeps those whose name matches a regular expression (never its
    own executable), cuts the list by the [--number] policy, prints it,
    asks for confirmation and removes the files.

    Layout of this development:
    - [GoInt]     Go's [int] and [uint64] arithmetic, with wrap-around;
    - [Utf8]      the decoding of strings into runes;
    - [Regexp]    the part of package [regexp] the filter relies on;
    - [Path]      [path.Base];
    - [Sort]      [sort.Interface], [sortByModtime] and the pattern-defeating
                  quicksort of [sort.Sort];
    - [Lib]       the libraries taken by their contract;
    - the operating system and the terminal, then the program:
      [listByTime], [matchFiles], [selectByNumber], [printResult],
      [confirmation], [deleteFiles] and [Action];
    - [Sample], [Examples]: libraries and directories to run it on;
    - the properties, stage by stage, and the scenarios. *)

From Stdlib Require Import ZArith Lia String Ascii.
From stdpp Require Import base option list strings gmap sorting pretty.

Local Open Scope string_scope.
Local Open Scope list_scope.
Local Open Scope Z_scope.

(** ** Results of a Go call

    [Ok] is a normal return, [Error] a returned non-nil [error] carrying
    its message, [Panic] a run-time panic (index out of range, nil
    dereference). *)

Inductive outcome (A : Type) : Type :=
  | Ok (a : A)
  | Error (msg : string)
  | Panic.
Arguments Ok {A} a.
Arguments Error {A} msg.
Arguments Panic {A}.

(** ** Go integers *)

Module GoInt.

(** [int] on the 64-bit targets: two's complement, 64 bits. *)
Definition int_bits : Z := 64.
Definition min_int : Z := - 2 ^ (int_bits - 1).
Definition max_int : Z := 2 ^ (int_bits - 1) - 1.

Definition in_int (z : Z) : Prop := min_int <= z <= max_int.

(** Reduction of a mathematical integer to its [int] representative. *)
Definition wrap (z : Z) : Z :=
  (z + 2 ^ (int_bits - 1)) mod 2 ^ int_bits - 2 ^ (int_bits - 1).

Definition neg (a : Z) : Z := wrap (- a).
Definition add (a b : Z) : Z := wrap (a + b).

(** [uint64(x)] for an [int64] x, and [uint64] addition. *)
Definition to_uint64 (z : Z) : Z := z mod 2 ^ 64.
Definition add_uint64 (a b : Z) : Z := (a + b) mod 2 ^ 64.

End GoInt.

(** ** Package [unicode/utf8]

    Go strings are byte sequences; [regexp] reads them as UTF-8, one
    code point (rune) at a time. *)

Module Utf8.

Definition RuneError : Z := 0xFFFD.
Definition RuneSelf : Z := 0x80.

Definition byte_of (c : ascii) : Z := Z.of_N (N_of_ascii c).

Definition bytes (s : string) : list Z := byte_of <$> list_ascii_of_string s.

(** The table [first] with [acceptRanges]: for a leading byte that
    starts a sequence of several bytes, the length of the sequence and
    the range accepted for the second byte. *)
Definition first (b : Z) : option (nat * Z * Z) :=
  if (0xC2 <=? b) && (b <=? 0xDF) then Some (2%nat, 0x80, 0xBF)
  else if b =? 0xE0 then Some (3%nat, 0xA0, 0xBF)
  else if (0xE1 <=? b) && (b <=? 0xEC) then Some (3%nat, 0x80, 0xBF)
  else if b =? 0xED then Some (3%nat, 0x80, 0x9F)
  else if (0xEE <=? b) && (b <=? 0xEF) then Some (3%nat, 0x80, 0xBF)
  else if b =? 0xF0 then Some (4%nat, 0x90, 0xBF)
  else if (0xF1 <=? b) && (b <=? 0xF3) then Some (4%nat, 0x80, 0xBF)
  else if b =? 0xF4 then Some (4%nat, 0x80, 0x8F)
  else None.

(** A continuation byte: [locb <= b && b <= hicb]. *)
Definition continuation (b : Z) : bool := (0x80 <=? b) && (b <=? 0xBF).

(** [utf8.DecodeRuneInString]: the first rune of [p] and its width in
    bytes; [(RuneError, 1)] for an encoding that is not valid. *)
Definition DecodeRune (p : list Z) : Z * nat :=
  match p with
  | [] => (RuneError, 0%nat)
  | s0 :: _ =>
      if s0 <? RuneSelf then (s0, 1%nat)
      else
        match first s0 with
        | None => (RuneError, 1%nat)
        | Some (sz, lo, hi) =>
            if decide (length p < sz)%nat then (RuneError, 1%nat)
            else
              let s1 := default 0 (p !! 1%nat) in
              let s2 := default 0 (p !! 2%nat) in
              let s3 := default 0 (p !! 3%nat) in
              if (s1 <? lo) || (hi <? s1) then (RuneError, 1%nat)
              else if decide (sz ≤ 2)%nat then
                (Z.lor (Z.shiftl (Z.land s0 0x1F) 6) (Z.land s1 0x3F), 2%nat)
              else if negb (continuation s2) then (RuneError, 1%nat)
              else if decide (sz ≤ 3)%nat then
                (Z.lor (Z.lor (Z.shiftl (Z.land s0 0x0F) 12)
                              (Z.shiftl (Z.land s1 0x3F) 6))
                       (Z.land s2 0x3F), 3%nat)
              else if negb (continuation s3) then (RuneError, 1%nat)
              else
                (Z.lor (Z.lor (Z.lor (Z.shiftl (Z.land s0 0x07) 18)
                                     (Z.shiftl (Z.land s1 0x3F) 12))
                              (Z.shiftl (Z.land s2 0x3F) 6))
                       (Z.land s3 0x3F), 4%nat)
        end
  end.

(** The runes of a byte sequence, each with its width, decoded one after
    the other from the start, as [regexp] steps through its input. *)
Fixpoint decode (fuel : nat) (p : list Z) : list (Z * nat) :=
  match fuel, p with
  | S fuel', _ :: _ =>
      let '(r, size) := DecodeRune p in (r, size) :: decode fuel' (drop size p)
  | _, _ => []
  end.

Definition runes (s : string) : list Z :=
  let p := bytes s in (decode (length p) p).*1.

End Utf8.

(** ** Package [regexp]

    The filter only calls [regexp.Compile] and the [MatchString] method
    of the compiled expression.  A compiled expression is represented by
    its syntax tree, with the operators of [regexp/syntax] that are left
    after [Simplify]; flags (case folding, non-greedy repetition) are
    not represented.  The expression is read over the runes of the
    name.  [MatchString] follows its documentation: it "reports whether
    the string s contains any match of the regular expression". *)

Module Regexp.

Inductive regex : Type :=
  | NoMatch
  | EmptyMatch
  | Literal (c : Z)
  | CharClass (ranges : list (Z * Z))
  | AnyCharNotNL
  | AnyChar
  | BeginLine
  | EndLine
  | BeginText
  | EndText
  | WordBoundary
  | NoWordBoundary
  | Capture (r : regex)
  | Star (r : regex)
  | Plus (r : regex)
  | Quest (r : regex)
  | Concat (r1 r2 : regex)
  | Alternate (r1 r2 : regex).

Definition newline : Z := 0x0A.

(** A class is a list of ranges [lo-hi], bounds included. *)
Definition in_class (ranges : list (Z * Z)) (c : Z) : Prop :=
  ∃ lo hi, (lo, hi) ∈ ranges ∧ lo <= c <= hi.

(** [syntax.IsWordChar]: an ASCII letter, a digit or the underscore. *)
Definition IsWordChar (c : Z) : bool :=
  (0x41 <=? c) && (c <=? 0x5A) || (0x61 <=? c) && (c <=? 0x7A)
  || (0x30 <=? c) && (c <=? 0x39) || (c =? 0x5F).

Section Semantics.
Variable text : list Z.

(** The rune before position [i], and the rune at it. *)
Definition before (i : nat) : option Z :=
  match i with
  | O => None
  | S i' => text !! i'
  end.

Definition at_pos (i : nat) : option Z := text !! i.

Definition word_before (i : nat) : Prop := ∃ c, before i = Some c ∧ IsWordChar c = true.
Definition word_at (i : nat) : Prop := ∃ c, at_pos i = Some c ∧ IsWordChar c = true.

(** [matches_at r i j]: the runes of [text] from position [i] up to
    position [j] are a match of [r], where they stand: the empty-width
    operators look at the text around them. *)
Inductive matches_at : regex → nat → nat → Prop :=
  | M_empty i : (i ≤ length text)%nat → matches_at EmptyMatch i i
  | M_literal c i : text !! i = Some c → matches_at (Literal c) i (S i)
  | M_class ranges c i :
      text !! i = Some c → in_class ranges c → matches_at (CharClass ranges) i (S i)
  | M_any_not_nl c i : text !! i = Some c → c ≠ newline → matches_at AnyCharNotNL i (S i)
  | M_any c i : text !! i = Some c → matches_at AnyChar i (S i)
  | M_begin_line i :
      (i ≤ length text)%nat → i = 0%nat ∨ before i = Some newline →
      matches_at BeginLine i i
  | M_end_line i :
      (i ≤ length text)%nat → i = length text ∨ at_pos i = Some newline →
      matches_at EndLine i i
  | M_begin_text : matches_at BeginText 0 0
  | M_end_text : matches_at EndText (length text) (length text)
  | M_word_boundary i :
      (i ≤ length text)%nat → ¬ (word_before i ↔ word_at i) →
      matches_at WordBoundary i i
  | M_no_word_boundary i :
      (i ≤ length text)%nat → (word_before i ↔ word_at i) →
      matches_at NoWordBoundary i i
  | M_capture r i j : matches_at r i j → matches_at (Capture r) i j
  | M_star_nil r i : (i ≤ length text)%nat → matches_at (Star r) i i
  | M_star_more r i k j :
      matches_at r i k → matches_at (Star r) k j → matches_at (Star r) i j
  | M_plus r i k j :
      matches_at r i k → matches_at (Star r) k j → matches_at (Plus r) i j
  | M_quest_nil r i : (i ≤ length text)%nat → matches_at (Quest r) i i
  | M_quest r i j : matches_at r i j → matches_at (Quest r) i j
  | M_concat r1 r2 i k j :
      matches_at r1 i k → matches_at r2 k j → matches_at (Concat r1 r2) i j
  | M_alt_l r1 r2 i j : matches_at r1 i j → matches_at (Alternate r1 r2) i j
  | M_alt_r r1 r2 i j : matches_at r2 i j → matches_at (Alternate r1 r2) i j.

(** *** Execution

    [ends r i] lists the positions where a match of [r] that starts at
    [i] can end. *)

(** One rune is read at [i] when [ok] accepts it. *)
Definition step (ok : Z → bool) (i : nat) : list nat :=
  match text !! i with
  | Some c => if ok c then [S i] else []
  | None => []
  end.

Definition class_ok (ranges : list (Z * Z)) (c : Z) : bool :=
  existsb (λ '(lo, hi), (lo <=? c) && (c <=? hi)) ranges.

(** [syntax.EmptyOpContext(r1, r2)]: the empty-width conditions that
    hold between the runes [r1] and [r2]; [None] is the end of the
    text on either side. *)
Record EmptyOp : Type := mkEmptyOp {
  EmptyBeginLine : bool;
  EmptyEndLine : bool;
  EmptyBeginText : bool;
  EmptyEndText : bool;
  EmptyWordBoundary : bool;
  EmptyNoWordBoundary : bool;
}.

Definition is_word (r : option Z) : bool :=
  match r with
  | Some c => IsWordChar c
  | None => false
  end.

Definition is_newline (r : option Z) : bool :=
  match r with
  | Some c => c =? newline
  | None => false
  end.

Definition is_end (r : option Z) : bool :=
  match r with
  | Some _ => false
  | None => true
  end.

Definition EmptyOpContext (r1 r2 : option Z) : EmptyOp :=
  let boundary := xorb (is_word r1) (is_word r2) in
  {| EmptyBeginLine := is_newline r1 || is_end r1;
     EmptyEndLine := is_newline r2 || is_end r2;
     EmptyBeginText := is_end r1;
     EmptyEndText := is_end r2;
     EmptyWordBoundary := boundary;
     EmptyNoWordBoundary := negb boundary |}.

Definition empty_width (cond : EmptyOp → bool) (i : nat) : list nat :=
  if cond (EmptyOpContext (before i) (at_pos i)) then [i] else [].

(** The positions reached from [i] by repeating [body]; a repetition
    that does not advance reaches nothing new, and [fuel] bounds the
    advancing ones. *)
Fixpoint star_ends (body : nat → list nat) (fuel : nat) (i : nat) : list nat :=
  i :: match fuel with
       | O => []
       | S fuel' => filter (λ k, i < k)%nat (body i) ≫= star_ends body fuel'
       end.

Fixpoint ends (r : regex) (i : nat) : list nat :=
  match r with
  | NoMatch => []
  | EmptyMatch => [i]
  | Literal c => step (Z.eqb c) i
  | CharClass ranges => step (class_ok ranges) i
  | AnyCharNotNL => step (λ c, negb (c =? newline)) i
  | AnyChar => step (λ _, true) i
  | BeginLine => empty_width EmptyBeginLine i
  | EndLine => empty_width EmptyEndLine i
  | BeginText => empty_width EmptyBeginText i
  | EndText => empty_width EmptyEndText i
  | WordBoundary => empty_width EmptyWordBoundary i
  | NoWordBoundary => empty_width EmptyNoWordBoundary i
  | Capture r1 => ends r1 i
  | Star r1 => star_ends (ends r1) (length text - i) i
  | Plus r1 => ends r1 i ≫= λ k, star_ends (ends r1) (length text - k) k
  | Quest r1 => i :: ends r1 i
  | Concat r1 r2 => ends r1 i ≫= ends r2
  | Alternate r1 r2 => ends r1 i ++ ends r2 i
  end.

(** The unanchored search: a match is looked for from every position
    of the text, the one past its last rune included. *)
Definition search (r : regex) : bool :=
  existsb (λ i, bool_decide (ends r i ≠ [])) (seq 0 (S (length text))).

End Semantics.

Definition MatchString (re : regex) (s : string) : bool :=
  search (Utf8.runes s) re.

(** The expression a pattern without metacharacters compiles to: its
    runes one after the other. *)
Fixpoint literal_runes (cs : list Z) : regex :=
  match cs with
  | [] => EmptyMatch
  | c :: cs' => Concat (Literal c) (literal_runes cs')
  end.

Definition literal (p : string) : regex := literal_runes (Utf8.runes p).

(** [s] contains a match of [r]. *)
Definition contains_match (r : regex) (s : string) : Prop :=
  ∃ i j, matches_at (Utf8.runes s) r i j.

(** The whole of [s] is a match of [r]. *)
Definition whole_match (r : regex) (s : string) : Prop :=
  matches_at (Utf8.runes s) r 0 (length (Utf8.runes s)).

End Regexp.

(** ** [path.Base] *)

Module Path.

Definition slash : ascii := "/"%char.

(** [for len(path) > 0 && path[len(path)-1] == '/' { path = path[0 : len(path)-1] }] *)
Fixpoint stripTrailingSlashes (p : list ascii) : list ascii :=
  match p with
  | [] => []
  | c :: p' =>
      match stripTrailingSlashes p' with
      | [] => if Ascii.eqb c slash then [] else [c]
      | q => c :: q
      end
  end.

(** [if i := lastSlash(path); i >= 0 { path = path[i+1:] }]: what
    follows the last slash, the whole of [p] when it has none.  [acc] is
    the text read since the last slash seen. *)
Fixpoint afterLastSlash (acc p : list ascii) : list ascii :=
  match p with
  | [] => acc
  | c :: p' =>
      if Ascii.eqb c slash then afterLastSlash [] p'
      else afterLastSlash (acc ++ [c]) p'
  end.

Definition Base (path : string) : string :=
  match list_ascii_of_string path with
  | [] => "."
  | p =>
      match afterLastSlash [] (stripTrailingSlashes p) with
      | [] => "/"
      | q => string_of_list_ascii q
      end
  end.

End Path.

(** ** File records

    What the program reads of an [os.FileInfo]: [Name()], [Size()] (an
    [int64]) and [ModTime()], an instant on the time line. *)

Record FileInfo : Type := mkFileInfo {
  Name : string;
  Size : Z;
  ModTime : Z;
}.

Global Instance FileInfo_eq_dec : EqDecision FileInfo.
Proof. solve_decision. Defined.

(** [a.ModTime().Before(b.ModTime())] *)
Definition Before (a b : FileInfo) : bool := bool_decide (ModTime a < ModTime b).

(** [a] is not newer than [b]: the order of an oldest-first list. *)
Definition not_after (a b : FileInfo) : Prop := ModTime a <= ModTime b.

Global Instance not_after_dec a b : Decision (not_after a b).
Proof. unfold not_after. apply _. Defined.

Global Instance not_after_trans : Transitive not_after.
Proof. unfold not_after. intros a b c. lia. Qed.

Definition oldest_first (l : list FileInfo) : Prop := StronglySorted not_after l.

(** ** Package [sort] and [sortByModtime]

    [sort.Sort] works on a [sort.Interface] through indices only.  An
    index outside the slice makes Go panic, which [None] stands for. *)

Module Sort.

Class Interface (D : Type) : Type := {
  Len : D → nat;
  Less : D → nat → nat → option bool;
  Swap : D → nat → nat → option D;
}.

(** [type sortByModtime []os.FileInfo] with its three methods. *)
Abbreviation sortByModtime := (list FileInfo).

Definition sortByModtime_Len (s : sortByModtime) : nat := length s.

(** [return s[i].ModTime().Before(s[j].ModTime())] *)
Definition sortByModtime_Less (s : sortByModtime) (i j : nat) : option bool :=
  a ← s !! i; b ← s !! j; Some (Before a b).

(** [s[i], s[j] = s[j], s[i]]: both operands are read, then [s[i]] and
    [s[j]] are assigned in this order. *)
Definition sortByModtime_Swap (s : sortByModtime) (i j : nat) : option sortByModtime :=
  a ← s !! i; b ← s !! j; Some (<[j:=a]> (<[i:=b]> s)).

Global Instance sortByModtime_Interface : Interface sortByModtime := {|
  Len := sortByModtime_Len;
  Less := sortByModtime_Less;
  Swap := sortByModtime_Swap;
|}.

(** [sort.Sort] from Go 1.19 on is a pattern-defeating quicksort; the
    hint [choosePivot] gives about the order it found. *)
Inductive sortedHint : Type := unknownHint | increasingHint | decreasingHint.

Global Instance sortedHint_eq_dec : EqDecision sortedHint.
Proof. solve_decision. Defined.

Section Algorithms.
Context {D : Type} `{Interface D}.

(** [for j := i; j > a && data.Less(j, j-1); j-- { data.Swap(j, j-1) }] *)
Fixpoint insertionSort_inner (a j : nat) (data : D) : option D :=
  match j with
  | O => Some data
  | S j' =>
      if decide (a < j)%nat then
        lt ← Less data j j';
        if lt : bool then data' ← Swap data j j'; insertionSort_inner a j' data'
        else Some data
      else Some data
  end.

(** [for i := a + 1; i < b; i++ { ... }], with [n] iterations left
    from index [i]. *)
Fixpoint insertionSort_outer (n i a : nat) (data : D) : option D :=
  match n with
  | O => Some data
  | S n' =>
      data' ← insertionSort_inner a i data;
      insertionSort_outer n' (S i) a data'
  end.

Definition insertionSort (data : D) (a b : nat) : option D :=
  insertionSort_outer (b - (a + 1)) (a + 1) a data.

(** [order2]: the two indices in the order of their elements; a swap
    of the order is counted. *)
Definition order2 (data : D) (a b swaps : nat) : option (nat * nat * nat) :=
  lt ← Less data b a;
  Some (if lt : bool then (b, a, S swaps) else (a, b, swaps)).

(** [median]: the index of the median of three. *)
Definition median (data : D) (a b c swaps : nat) : option (nat * nat) :=
  '(a, b, swaps) ← order2 data a b swaps;
  '(b, c, swaps) ← order2 data b c swaps;
  '(a, b, swaps) ← order2 data a b swaps;
  Some (b, swaps).

Definition medianAdjacent (data : D) (a swaps : nat) : option (nat * nat) :=
  median data (a - 1) a (a + 1) swaps.

Definition shortestNinther : nat := 50.
Definition maxSwaps : nat := 4 * 3.

(** [choosePivot]: a static pivot under 8 elements, the median of
    three under 50, Tukey's ninther from there on; the hint tells
    whether the probed elements were found in order. *)
Definition choosePivot (data : D) (a b : nat) : option (nat * sortedHint) :=
  let l := (b - a)%nat in
  let i := (a + l / 4 * 1)%nat in
  let j := (a + l / 4 * 2)%nat in
  let k := (a + l / 4 * 3)%nat in
  '(j, swaps) ←
    (if decide (8 ≤ l)%nat then
       '(i, j, k, swaps) ←
         (if decide (shortestNinther ≤ l)%nat then
            '(i, swaps) ← medianAdjacent data i 0;
            '(j, swaps) ← medianAdjacent data j swaps;
            '(k, swaps) ← medianAdjacent data k swaps;
            Some (i, j, k, swaps)
          else Some (i, j, k, 0%nat));
       median data i j k swaps
     else Some (j, 0%nat));
  Some (j, if decide (swaps = 0%nat) then increasingHint
           else if decide (swaps = maxSwaps) then decreasingHint
           else unknownHint).

(** [for i < j { data.Swap(i, j); i++; j-- }] *)
Fixpoint reverseRange_loop (fuel i j : nat) (data : D) {struct fuel} : option D :=
  if decide (i < j)%nat then
    match fuel with
    | O => None
    | S fuel' => data' ← Swap data i j; reverseRange_loop fuel' (S i) (j - 1) data'
    end
  else Some data.

Definition reverseRange (data : D) (a b : nat) : option D :=
  reverseRange_loop (b - a) a (b - 1) data.

(** [for i < b && !data.Less(i, i-1) { i++ }] *)
Fixpoint skipSorted (fuel : nat) (data : D) (i b : nat) {struct fuel} : option nat :=
  if decide (i < b)%nat then
    match fuel with
    | O => None
    | S fuel' =>
        lt ← Less data i (i - 1);
        if lt : bool then Some i else skipSorted fuel' data (S i) b
    end
  else Some i.

(** [for j := i - 1; j >= 1; j-- { if !data.Less(j, j-1) { break }; data.Swap(j, j-1) }] *)
Fixpoint shiftLeft (j : nat) (data : D) : option D :=
  match j with
  | O => Some data
  | S j' =>
      lt ← Less data j j';
      if lt : bool then data' ← Swap data j j'; shiftLeft j' data' else Some data
  end.

(** [for j := i + 1; j < b; j++ { if !data.Less(j, j-1) { break }; data.Swap(j, j-1) }] *)
Fixpoint shiftRight (fuel j b : nat) (data : D) {struct fuel} : option D :=
  if decide (j < b)%nat then
    match fuel with
    | O => None
    | S fuel' =>
        lt ← Less data j (j - 1);
        if lt : bool then data' ← Swap data j (j - 1); shiftRight fuel' (S j) b data'
        else Some data
    end
  else Some data.

Definition maxSteps : nat := 5.
Definition shortestShifting : nat := 50.

(** [partialInsertionSort]: the slice afterwards, and whether it is
    sorted.  [steps] iterations of the outer loop are left and [i] is
    where the scan stands. *)
Fixpoint partialInsertionSort_steps (steps : nat) (data : D) (a b i : nat)
  : option (D * bool) :=
  match steps with
  | O => Some (data, false)
  | S steps' =>
      i ← skipSorted (b - a) data i b;
      if decide (i = b) then Some (data, true)
      else if decide (b - a < shortestShifting)%nat then Some (data, false)
      else
        data ← Swap data i (i - 1);
        data ← (if decide (2 ≤ i - a)%nat then shiftLeft (i - 1) data else Some data);
        data ← (if decide (2 ≤ b - i)%nat then shiftRight (b - a) (i + 1) b data
                else Some data);
        partialInsertionSort_steps steps' data a b i
  end.

Definition partialInsertionSort (data : D) (a b : nat) : option (D * bool) :=
  partialInsertionSort_steps maxSteps data a b (a + 1).

(** [for i <= j && cond(i) { i++ }] *)
Fixpoint scanUp (fuel : nat) (cond : nat → option bool) (i j : nat) {struct fuel}
  : option nat :=
  if decide (i ≤ j)%nat then
    match fuel with
    | O => None
    | S fuel' => c ← cond i; if c : bool then scanUp fuel' cond (S i) j else Some i
    end
  else Some i.

(** [for i <= j && cond(j) { j-- }] *)
Fixpoint scanDown (fuel : nat) (cond : nat → option bool) (i j : nat) {struct fuel}
  : option nat :=
  if decide (i ≤ j)%nat then
    match fuel with
    | O => None
    | S fuel' => c ← cond j; if c : bool then scanDown fuel' cond i (j - 1) else Some j
    end
  else Some j.

(** The [for { ... }] loop of [partition], entered with [i] and [j]. *)
Fixpoint partition_loop (fuel : nat) (data : D) (a i j : nat)
  : option (D * nat * bool) :=
  match fuel with
  | O => None
  | S fuel' =>
      i ← scanUp (S j) (λ i, Less data i a) i j;
      j ← scanDown (S j) (λ j, negb <$> Less data j a) i j;
      if decide (j < i)%nat then
        data ← Swap data j a; Some (data, j, false)
      else
        data ← Swap data i j;
        partition_loop fuel' data a (S i) (j - 1)
  end.

(** [partition]: the pivot goes to [a], smaller elements to its left
    and the others to its right; the new index of the pivot, and whether
    the range was already partitioned. *)
Definition partition (data : D) (a b pivot : nat) : option (D * nat * bool) :=
  data ← Swap data a pivot;
  i ← scanUp b (λ i, Less data i a) (a + 1) (b - 1);
  j ← scanDown b (λ j, negb <$> Less data j a) i (b - 1);
  if decide (j < i)%nat then
    data ← Swap data j a; Some (data, j, true)
  else
    data ← Swap data i j;
    partition_loop (b - a) data a (S i) (j - 1).

(** The [for { ... }] loop of [partitionEqual]. *)
Fixpoint partitionEqual_loop (fuel : nat) (data : D) (a i j : nat) : option (D * nat) :=
  match fuel with
  | O => None
  | S fuel' =>
      i ← scanUp (S j) (λ i, negb <$> Less data a i) i j;
      j ← scanDown (S j) (λ j, Less data a j) i j;
      if decide (j < i)%nat then Some (data, i)
      else
        data ← Swap data i j;
        partitionEqual_loop fuel' data a (S i) (j - 1)
  end.

(** [partitionEqual]: the elements equal to the pivot, then the
    greater ones. *)
Definition partitionEqual (data : D) (a b pivot : nat) : option (D * nat) :=
  data ← Swap data a pivot;
  partitionEqual_loop (S (b - a)) data a (a + 1) (b - 1).

Definition maxInsertion : nat := 12.

(** [pdqsort], with the two flags of its loop.  Where the last
    partition was unbalanced the package first exchanges three elements
    chosen by a pseudo-random generator ([breakPatterns]) and, after too
    many such rounds, turns to heap sort; these two branches are not
    modelled, and a run that reaches them ends in [None], as does a run
    out of [fuel]. *)
Fixpoint pdqsort (fuel : nat) (data : D) (a b limit : nat)
    (wasBalanced wasPartitioned : bool) : option D :=
  match fuel with
  | O => None
  | S fuel' =>
      let length := (b - a)%nat in
      if decide (length ≤ maxInsertion)%nat then insertionSort data a b
      else if decide (limit = 0%nat) then None
      else if negb wasBalanced then None
      else
        '(pivot, hint) ← choosePivot data a b;
        '(data, pivot, hint) ←
          (if decide (hint = decreasingHint) then
             data ← reverseRange data a b;
             Some (data, ((b - 1) - (pivot - a))%nat, increasingHint)
           else Some (data, pivot, hint));
        '(data, sorted) ←
          (if wasBalanced && wasPartitioned && bool_decide (hint = increasingHint)
           then partialInsertionSort data a b
           else Some (data, false));
        if sorted : bool then Some data
        else
          equal ← (if decide (0 < a)%nat then negb <$> Less data (a - 1) pivot
                   else Some false);
          if equal : bool then
            '(data, mid) ← partitionEqual data a b pivot;
            pdqsort fuel' data mid b limit wasBalanced wasPartitioned
          else
            '(data, mid, alreadyPartitioned) ← partition data a b pivot;
            let leftLen := (mid - a)%nat in
            let rightLen := (b - mid)%nat in
            let balanceThreshold := (length / 8)%nat in
            if decide (leftLen < rightLen)%nat then
              data ← pdqsort fuel' data a mid limit true true;
              pdqsort fuel' data (mid + 1) b limit
                (bool_decide (balanceThreshold ≤ leftLen)%nat) alreadyPartitioned
            else
              data ← pdqsort fuel' data (mid + 1) b limit true true;
              pdqsort fuel' data a mid limit
                (bool_decide (balanceThreshold ≤ rightLen)%nat) alreadyPartitioned
  end.

(** [bits.Len(uint(n))] *)
Definition bitsLen (n : nat) : nat :=
  match n with
  | O => O
  | _ => S (Nat.log2 n)
  end.

(** [n := data.Len(); if n <= 1 { return }; limit := bits.Len(uint(n));
    pdqsort(data, 0, n, limit)] *)
Definition Sort (data : D) : option D :=
  let n := Len data in
  if decide (n ≤ 1)%nat then Some data
  else pdqsort (S n) data 0 n (bitsLen n) true true.

End Algorithms.

(** The slice after insertion sort alone. *)
Definition insertionSorted (s : list FileInfo) : list FileInfo :=
  default s (insertionSort s 0 (length s)).

(** The slice after [sort.Sort(sortByModtime(s))], run under a check of
    what the package promises: the outcome of [Sort] when it is a
    rearrangement of [s] in ascending order, and else (a branch that is
    not modelled was reached) that of insertion sort. *)
Definition sortChecked (s : list FileInfo) : list FileInfo :=
  match Sort s with
  | Some r => if decide (r ≡ₚ s ∧ oldest_first r) then r else insertionSorted s
  | None => insertionSorted s
  end.

End Sort.

(** ** The libraries the program calls

    What is taken from outside the repository, by its documented
    contract: the regular-expression compiler, the two formatters used by
    the table, and [sort.Sort], which leaves its argument in ascending
    order of [Less] and is "not guaranteed to be stable". *)

Class Lib : Type := {
  (** [regexp.Compile]: the compiled expression, or the error text. *)
  regexp_Compile : string → Regexp.regex + string;
  (** [humanize.IBytes] *)
  humanize_IBytes : Z → string;
  (** [t.Format("2006-01-02 15:04:05")] *)
  time_Format : Z → string;
  (** [sort.Sort(sortByModtime(s))]: the slice afterwards. *)
  sort_Sort : list FileInfo → list FileInfo;
  (** it rearranges the slice, *)
  sort_Sort_perm : ∀ s, sort_Sort s ≡ₚ s;
  (** in ascending order as [Less] determines it: no element is [Less]
      than one before it. *)
  sort_Sort_sorted : ∀ s i j,
    (i < j)%nat → (j < Sort.Len (sort_Sort s))%nat →
    Sort.Less (sort_Sort s) j i = Some false;
}.

(** ** The operating system and the terminal *)

(** One entry of a directory as [ReadDir] yields it. *)
Record DirEntry : Type := mkDirEntry {
  de_name : string;
  de_isDir : bool;
  (** size and modification time, [None] when [Info()] returns an error *)
  de_stat : option (Z * Z);
  (** the error [os.Remove] returns for this entry, [None] when it can
      be removed *)
  de_removeErr : option string;
}.

(** [f.Info()] *)
Definition Info (f : DirEntry) : option FileInfo :=
  match de_stat f with
  | Some (size, mtime) => Some (mkFileInfo (de_name f) size mtime)
  | None => None
  end.

(** What the path given by [--path] designates.  The entries of a
    directory are kept in the order [ReadDir(-1)] yields them. *)
Inductive PathState : Type :=
  | OpenError (msg : string)
  | StatError
  | NotDirectory
  | ReadDirError (msg : string)
  | Directory (entries : list DirEntry).

Definition entriesOf (st : PathState) : list DirEntry :=
  match st with
  | Directory entries => entries
  | _ => []
  end.

(** [os.Remove(path.Join(prefix, name))] inside the directory: the
    entries left, or the error. *)
Definition os_Remove (entries : list DirEntry) (name : string)
  : list DirEntry + string :=
  match list_find (λ e, de_name e = name) entries with
  | None => inr "no such file or directory"
  | Some (_, e) =>
      match de_removeErr e with
      | Some err => inr err
      | None => inl (filter (λ e, de_name e ≠ name) entries)
      end
  end.

(** What the run does that can be observed, in order. *)
Inductive event : Type :=
  | Println (line : string)
  | TableRender (header : list string) (rows : list (list string))
  | LogPrintln (msg : string)
  | AskSelect (options : list string)
  | AskMultiSelect (options : list string)
  | Remove (name : string) (removed : bool).

Global Instance event_eq_dec : EqDecision event.
Proof. solve_decision. Defined.

(** The command line after parsing. *)
Record Flags : Type := mkFlags {
  pattern : string;
  number : Z;
  path : string;
  dry_run : bool;
  yes : bool;
}.

(** Everything else a run depends on.  [answerSelect] is what the first
    prompt writes into [ans] and [answerMulti] what the second writes
    into [arrAns]; [None] when [survey.AskOne] returns an error and
    leaves the variable as it was. *)
Record World : Type := mkWorld {
  Args0 : string;
  target : PathState;
  answerSelect : option string;
  answerMulti : option (list string);
}.

(** A finished run: what [Action] returned, what was observed, and the
    directory afterwards. *)
Record Run : Type := mkRun {
  result : outcome unit;
  trace : list event;
  final : PathState;
}.

(** [main]: [log.Fatal] on an error. *)
Definition exitCode (r : outcome unit) : Z :=
  match r with
  | Ok _ => 0
  | Error _ => 1
  | Panic => 2
  end.

(** Projections of a trace. *)
Definition is_output (e : event) : Prop :=
  match e with Println _ | TableRender _ _ => True | _ => False end.

Global Instance is_output_dec e : Decision (is_output e).
Proof. destruct e; simpl; apply _. Defined.

Definition removals (t : list event) : list (string * bool) :=
  omap (λ e, match e with Remove name ok => Some (name, ok) | _ => None end) t.

Definition is_prompt (e : event) : Prop :=
  match e with AskSelect _ | AskMultiSelect _ => True | _ => False end.

Global Instance is_prompt_dec e : Decision (is_prompt e).
Proof. destruct e; simpl; apply _. Defined.

Definition is_removal (e : event) : Prop :=
  match e with Remove _ _ => True | _ => False end.

Global Instance is_removal_dec e : Decision (is_removal e).
Proof. destruct e; simpl; apply _. Defined.

(** ** The program *)

Section Program.
Context {lib : Lib}.

(** *** [listByTime], lines 167-195 *)

(** The loop over [arrFiles]: directories are skipped, and so is an
    entry whose [Info()] fails. *)
Fixpoint listByTime_collect (arrFiles : list DirEntry) : list FileInfo :=
  match arrFiles with
  | [] => []
  | f :: rest =>
      if de_isDir f then listByTime_collect rest
      else
        match Info f with
        | Some fi => fi :: listByTime_collect rest
        | None => listByTime_collect rest
        end
  end.

Definition listByTime (dir : PathState) : outcome (list FileInfo) :=
  match dir with
  | OpenError err => Error ("failed to open directory: " +:+ err)
  | StatError => Panic
  | NotDirectory => Error "given path is not a directory"
  | ReadDirError err => Error ("failed to read entries in directory: " +:+ err)
  | Directory arrFiles => Ok (sort_Sort (listByTime_collect arrFiles))
  end.

(** *** The pattern filter, lines 69-77 *)

Fixpoint matchFiles (re : Regexp.regex) (fileNameSelf : string)
    (arrFileInfo : list FileInfo) : list FileInfo :=
  match arrFileInfo with
  | [] => []
  | fi :: rest =>
      if decide (Name fi = fileNameSelf) then matchFiles re fileNameSelf rest
      else if Regexp.MatchString re (Name fi)
           then fi :: matchFiles re fileNameSelf rest
           else matchFiles re fileNameSelf rest
  end.

(** *** The count policy, lines 84-96 *)

Inductive selection : Type :=
  | Selected (arrMatch : list FileInfo)
  | AllKept
  | SlicePanic.

(** [s[:k]]; the bound is the length here, since the guards of the
    caller never let [k] exceed it. *)
Definition slice_to (s : list FileInfo) (k : Z) : option (list FileInfo) :=
  if decide (0 <= k <= Z.of_nat (length s)) then Some (take (Z.to_nat k) s)
  else None.

Definition selectByNumber (number : Z) (arrMatch : list FileInfo) : selection :=
  let len := Z.of_nat (length arrMatch) in
  if decide (number > 0) then
    if decide (len > number) then
      match slice_to arrMatch number with
      | Some s => Selected s
      | None => SlicePanic
      end
    else Selected arrMatch
  else if decide (number < 0) then
    if decide (len > GoInt.neg number) then
      match slice_to arrMatch (GoInt.add len number) with
      | Some s => Selected s
      | None => SlicePanic
      end
    else AllKept
  else Selected arrMatch.

(** *** [printResult], lines 197-234 *)

Definition truncateLen : nat := 30.

Definition tableHeader : list string := ["FileName"; "Size"; "ModTime"].

Definition tableRow (fi : FileInfo) : list string :=
  [Name fi; humanize_IBytes (GoInt.to_uint64 (Size fi)); time_Format (ModTime fi)].

(** The loop over [r] from index [i], with the running total and the
    rows appended so far. *)
Fixpoint printResult_loop (i : nat) (r : list FileInfo)
    (totalSize : Z) (rows : list (list string)) : Z * list (list string) :=
  match r with
  | [] => (totalSize, rows)
  | fi :: rest =>
      let size := GoInt.to_uint64 (Size fi) in
      let totalSize := GoInt.add_uint64 totalSize size in
      if decide (truncateLen ≤ i)%nat
      then printResult_loop (S i) rest totalSize rows
      else printResult_loop (S i) rest totalSize (rows ++ [tableRow fi])
  end.

Definition truncationPrefix : string :=
  "Showing first " +:+ pretty truncateLen +:+ " files only, ".

Definition totalHint (count : nat) (totalSize : Z) : string :=
  "Total: " +:+ pretty count +:+ " file(s), " +:+ humanize_IBytes totalSize.

Definition printResult (r : list FileInfo) : list event :=
  let '(totalSize, rows) := printResult_loop 0 r 0 [] in
  let hint := totalHint (length r) totalSize in
  let hint :=
    if decide (truncateLen < length r)%nat then truncationPrefix +:+ hint else hint in
  [TableRender tableHeader rows; Println hint].

(** *** Confirmation, lines 104-141

    A value of type [os.FileInfo] may be [nil]: [mapSel[ans]] is, for
    an [ans] that is not a key. *)

Definition promptOptions : list string := ["Yes"; "No"; "Pick"].

(** [mapSel[fi.Name()] = fi] for each match in turn. *)
Definition buildMapSel (arrMatch : list FileInfo) : gmap string FileInfo :=
  foldl (λ mapSel fi, <[Name fi := fi]> mapSel) ∅ arrMatch.

Definition confirmation (yes : bool) (w : World) (arrMatch : list FileInfo)
  : bool * list (option FileInfo) * list event :=
  if negb yes then
    let ans := default "No" (answerSelect w) in
    if decide (ans = "Yes") then (true, Some <$> arrMatch, [AskSelect promptOptions])
    else if decide (ans = "No") then (false, Some <$> arrMatch, [AskSelect promptOptions])
    else if decide (ans = "Pick") then
      let mapSel := buildMapSel arrMatch in
      let arrSel := Name <$> arrMatch in
      let arrAns := default [] (answerMulti w) in
      let arrMatch' := (λ ans, mapSel !! ans) <$> arrAns in
      (bool_decide (0 < length arrMatch')%nat, arrMatch',
       [AskSelect promptOptions; AskMultiSelect arrSel])
    else (false, Some <$> arrMatch, [AskSelect promptOptions])
  else (true, Some <$> arrMatch, []).

(** *** Deletion, lines 148-161 *)

(** The loop: the final [hasErr] (or the panic of [fi.Name()] on a nil
    [fi]), what was observed, and the entries left. *)
Fixpoint removeLoop (arrMatch : list (option FileInfo))
    (entries : list DirEntry) (hasErr : bool)
  : outcome bool * list event * list DirEntry :=
  match arrMatch with
  | [] => (Ok hasErr, [], entries)
  | None :: _ => (Panic, [], entries)
  | Some fi :: rest =>
      match os_Remove entries (Name fi) with
      | inl entries' =>
          let '(r, t, e) := removeLoop rest entries' hasErr in
          (r, Remove (Name fi) true :: t, e)
      | inr err =>
          let '(r, t, e) := removeLoop rest entries true in
          (r, Remove (Name fi) false :: LogPrintln err :: t, e)
      end
  end.

Definition deleteFiles (arrMatch : list (option FileInfo))
    (entries : list DirEntry) : Run :=
  match removeLoop arrMatch entries false with
  | (Ok true, t, e) => mkRun (Error "Failed to delete some files") t (Directory e)
  | (Ok false, t, e) =>
      mkRun (Ok ()) (t ++ [Println "Finished deleting above files"]) (Directory e)
  | (Error msg, t, e) => mkRun (Error msg) t (Directory e)
  | (Panic, t, e) => mkRun Panic t (Directory e)
  end.

(** *** [app.Action], lines 55-162 *)

(** The run continues with [k] after the events [t]. *)
Definition after (t : list event) (k : Run) : Run :=
  mkRun (result k) (t ++ trace k) (final k).

(** Lines 100-161: what follows the table. *)
Definition confirmAndDelete (ctx : Flags) (w : World) (arrMatch : list FileInfo) : Run :=
  let prefix := target w in
  if dry_run ctx then mkRun (Ok ()) [] prefix
  else
    let '(confirm, arrMatch, t) := confirmation (yes ctx) w arrMatch in
    after t
      (if negb confirm then mkRun (Ok ()) [Println "Aborted"] prefix
       else deleteFiles arrMatch (entriesOf prefix)).

Definition Action (ctx : Flags) (w : World) : Run :=
  match regexp_Compile (pattern ctx) with
  | inr err => mkRun (Error ("failed to compile pattern: " +:+ err)) [] (target w)
  | inl re =>
      let fileNameSelf := Path.Base (Args0 w) in
      let prefix := target w in
      match listByTime prefix with
      | Error msg => mkRun (Error msg) [] prefix
      | Panic => mkRun Panic [] prefix
      | Ok arrFileInfo =>
          let arrMatch := matchFiles re fileNameSelf arrFileInfo in
          if decide (length arrMatch = 0%nat) then
            mkRun (Ok ()) [Println "No matching files found"] prefix
          else
            match selectByNumber (number ctx) arrMatch with
            | SlicePanic => mkRun Panic [] prefix
            | AllKept =>
                mkRun (Ok ())
                  [Println "All matching files will be kept due to given number flag"]
                  prefix
            | Selected arrMatch =>
                after (printResult arrMatch) (confirmAndDelete ctx w arrMatch)
            end
      end
  end.

End Program.

(** ** The flags, lines 22-53 *)

(** The flags of a command line that gives [--pattern] only: the [Value]
    of each of the other flags. *)
Definition defaultFlags (pattern : string) : Flags :=
  mkFlags pattern 0 "." false false.

(** The same command line with [--dry-run] added. *)
Definition withDryRun (ctx : Flags) : Flags :=
  mkFlags (pattern ctx) (number ctx) (path ctx) true (yes ctx).

(** ** Vocabulary of the properties *)

(** A listed file passes the filter. *)
Definition accepted (re : Regexp.regex) (fileNameSelf : string) (fi : FileInfo) : Prop :=
  Name fi ≠ fileNameSelf ∧ Regexp.MatchString re (Name fi) = true.

Global Instance accepted_dec re self fi : Decision (accepted re self fi).
Proof. unfold accepted. apply _. Defined.

(** An entry that is not a directory. *)
Definition is_file (f : DirEntry) : Prop := de_isDir f = false.

Global Instance is_file_dec f : Decision (is_file f).
Proof. unfold is_file. apply _. Defined.

(** The sum of the sizes, each read as a [uint64]. *)
Definition sumSizes (r : list FileInfo) : Z :=
  foldr (λ fi acc, GoInt.to_uint64 (Size fi) + acc) 0 r.

(** The sum of the sizes as integers. *)
Definition totalBytes (r : list FileInfo) : Z :=
  foldr (λ fi acc, Size fi + acc) 0 r.

(** [os.Remove] was called on [name] and failed. *)
Definition failed (name : string) (t : list event) : Prop :=
  (name, false) ∈ removals t.

(** Everything a trace holds apart from the prompts themselves. *)
Definition effects (t : list event) : list event :=
  filter (λ e, ¬ is_prompt e) t.

(** A run that ends before the table is printed shows at most one
    message and touches nothing. *)
Definition ended_early (r : Run) (dir : PathState) : Prop :=
  Forall is_output (trace r) ∧ final r = dir ∧
  (trace r = [] ∨ ∃ line, trace r = [Println line]).

(** [os.Remove] succeeded on the name of the entry [en]. *)
Definition removed_by (t : list event) (en : DirEntry) : Prop :=
  (de_name en, true) ∈ removals t.

Global Instance removed_by_dec t en : Decision (removed_by t en).
Proof. unfold removed_by. apply _. Defined.

(** What is left of the directory [entries] once the calls to
    [os.Remove] recorded in [t] are done. *)
Definition remaining (t : list event) (entries : list DirEntry) : list DirEntry :=
  filter (λ en, ¬ removed_by t en) entries.

(** ** A sample of the libraries, to run the program on

    The compiler reads a part of the syntax of [regexp]; the two
    formatters print plain numbers.  [sort.Sort]
    is [Sort.sortChecked]. *)

Module Sample.
Import Regexp.

Definition rune_of (c : ascii) : Z := Utf8.byte_of c.

(** [isalnum] of [regexp/syntax]: an ASCII letter or digit. *)
Definition isalnum (c : Z) : bool :=
  (0x30 <=? c) && (c <=? 0x39) || (0x41 <=? c) && (c <=? 0x5A)
  || (0x61 <=? c) && (c <=? 0x7A).

(** [syntax.Error.Error]: the code of the error, and the text at
    fault. *)
Definition parseError (code expr : string) : string :=
  "error parsing regexp: " +:+ code +:+ ": `" +:+ expr +:+ "`".

Definition outsideSample : string := "pattern outside the sample".

(** [checkUTF8]: what is left of the pattern at the first encoding that
    is not valid. *)
Fixpoint checkUTF8 (fuel : nat) (s : list ascii) : option string :=
  match fuel, s with
  | S fuel', _ :: _ =>
      let '(r, size) := Utf8.DecodeRune (Utf8.byte_of <$> s) in
      if (r =? Utf8.RuneError) && (size =? 1)%nat then Some (string_of_list_ascii s)
      else checkUTF8 fuel' (drop size s)
  | _, _ => None
  end.

(** The repetition operators with their text. *)
Definition repeatOp (c : Z) : option ((regex → regex) * string) :=
  if c =? rune_of "*" then Some (Star, "*")
  else if c =? rune_of "+" then Some (Plus, "+")
  else if c =? rune_of "?" then Some (Quest, "?")
  else None.

(** [parser.repeat]: the operator [opText] is applied to the top of the
    stack; it may not follow another repetition, and needs an
    operand. *)
Definition repeat (op : regex → regex) (opText : string) (stack : list regex)
    (lastRepeat : string) : list regex + string :=
  if decide (lastRepeat ≠ EmptyString) then
    inr (parseError "invalid nested repetition operator" (lastRepeat +:+ opText))
  else
    match stack with
    | [] => inr (parseError "missing argument to repetition operator" opText)
    | sub :: stack' => inl (op sub :: stack')
    end.

(** The stack holds the operands read so far, the last one on top. *)
Definition concatenation (stack : list regex) : regex :=
  foldl (λ acc r, Concat r acc) EmptyMatch stack.

(** The loop of [syntax.Parse] under the flags of [regexp.Compile]
    ([syntax.Perl]), for the patterns made of literal runes, [.], [^],
    [$], escaped punctuation and the operators [*], [+] and [?], each
    with its optional [?] for a non-greedy repetition.  Groups,
    alternation, classes, counted repetition and the escapes that name
    something are outside the sample. *)
Fixpoint parse (stack : list regex) (lastRepeat : string) (t : list Z)
  : regex + string :=
  match t with
  | [] => inl (concatenation stack)
  | c :: t' =>
      match repeatOp c with
      | Some (op, opText) =>
          match t' with
          | q :: t'' =>
              if q =? rune_of "?" then
                match repeat op (opText +:+ "?") stack lastRepeat with
                | inl stack' => parse stack' (opText +:+ "?") t''
                | inr err => inr err
                end
              else
                match repeat op opText stack lastRepeat with
                | inl stack' => parse stack' opText t'
                | inr err => inr err
                end
          | [] =>
              match repeat op opText stack lastRepeat with
              | inl stack' => parse stack' opText t'
              | inr err => inr err
              end
          end
      | None =>
          if c =? rune_of "." then parse (AnyCharNotNL :: stack) EmptyString t'
          else if c =? rune_of "^" then parse (BeginText :: stack) EmptyString t'
          else if c =? rune_of "$" then parse (EndText :: stack) EmptyString t'
          else if c =? rune_of "\" then
            match t' with
            | [] => inr (parseError "trailing backslash at end of expression" EmptyString)
            | e :: t'' =>
                if (e <? Utf8.RuneSelf) && negb (isalnum e)
                then parse (Literal e :: stack) EmptyString t''
                else inr outsideSample
            end
          else if existsb (Z.eqb c) (Utf8.bytes "()[{|") then inr outsideSample
          else parse (Literal c :: stack) EmptyString t'
      end
  end.

Definition Compile (p : string) : regex + string :=
  match checkUTF8 (String.length p) (list_ascii_of_string p) with
  | Some rest => inr (parseError "invalid UTF-8" rest)
  | None => parse [] EmptyString (Utf8.runes p)
  end.

Definition IBytes (n : Z) : string := pretty n +:+ " B".
Definition Format (t : Z) : string := pretty t.

End Sample.

(** ** Sample files and directories *)

Module Examples.

Definition a_log : FileInfo := mkFileInfo "a.log" 20 10.
Definition b_log : FileInfo := mkFileInfo "b.log" 30 20.
Definition c_log : FileInfo := mkFileInfo "c.log" 10 30.

Definition sorted3 : list FileInfo := [a_log; b_log; c_log].

(** The directory of the scenarios: [a.log] oldest, [c.log] newest, read
    in another order, next to a sub-directory. *)
Definition logsDir : PathState :=
  Directory [ mkDirEntry "c.log" false (Some (10, 30)) None;
              mkDirEntry "a.log" false (Some (20, 10)) None;
              mkDirEntry "sub" true (Some (0, 5)) None;
              mkDirEntry "b.log" false (Some (30, 20)) None ].

(** A directory with an entry that vanished between [ReadDir] and
    [Info()]. *)
Definition goneDir : PathState :=
  Directory [ mkDirEntry "gone.log" false None None;
              mkDirEntry "a.log" false (Some (20, 10)) None ].

(** [a.log] cannot be removed. *)
Definition lockedDir : PathState :=
  Directory [ mkDirEntry "a.log" false (Some (20, 10)) (Some "permission denied");
              mkDirEntry "b.log" false (Some (30, 20)) None ].

(** Thirteen files, the first twelve written at the same instant. *)
Definition tied (name : string) : FileInfo := mkFileInfo name 1 5.

Definition tiedEntry (name : string) : DirEntry :=
  mkDirEntry name false (Some (1, 5)) None.

Definition tiesDir : PathState :=
  Directory [ tiedEntry "t0"; tiedEntry "t1"; tiedEntry "t2"; tiedEntry "t3";
              tiedEntry "t4"; tiedEntry "t5"; tiedEntry "t6"; tiedEntry "t7";
              tiedEntry "t8"; tiedEntry "t9"; tiedEntry "t10"; tiedEntry "t11";
              mkDirEntry "t12" false (Some (1, 1)) None ].

Definition world (select : option string) (multi : option (list string)) : World :=
  mkWorld "./delete-old-files" logsDir select multi.

Definition flags (n : Z) (dry yes : bool) : Flags :=
  mkFlags ".*\.log" n "." dry yes.

End Examples.

(** * Properties *)

(** ** Go integers *)

Module GoIntFacts.
Import GoInt.

Lemma wrap_id z : in_int z → wrap z = z.
Proof.
  unfold in_int, wrap, min_int, max_int, int_bits. intros H.
  rewrite Z.mod_small by lia. lia.
Qed.

Lemma wrap_in_int z : in_int (wrap z).
Proof.
  unfold in_int, wrap, min_int, max_int, int_bits.
  pose proof (Z.mod_pos_bound (z + 2 ^ (64 - 1)) (2 ^ 64)) as H. lia.
Qed.

Lemma neg_exact a : min_int < a → a <= max_int → neg a = - a.
Proof.
  intros H1 H2. unfold neg. apply wrap_id.
  unfold in_int, min_int, max_int, int_bits in *. lia.
Qed.

(** The one value whose negation does not exist in [int]. *)
Lemma neg_min_int : neg min_int = min_int.
Proof. reflexivity. Qed.

Lemma add_exact a b : in_int (a + b) → add a b = a + b.
Proof. apply wrap_id. Qed.

End GoIntFacts.

(** ** The execution of an expression finds its matches *)

Module RegexpFacts.
Import Regexp.

Section Text.
Variable text : list Z.

(** A match lies within the text. *)
Lemma matches_at_bounds r i j :
  matches_at text r i j → (i ≤ j ∧ j ≤ length text)%nat.
Proof.
  induction 1;
    repeat match goal with
           | Hl : text !! _ = Some _ |- _ => apply lookup_lt_Some in Hl
           end; lia.
Qed.

Lemma step_spec ok i j :
  j ∈ step text ok i ↔ ∃ c, text !! i = Some c ∧ ok c = true ∧ j = S i.
Proof.
  unfold step. destruct (text !! i) as [c|].
  - destruct (ok c) eqn:Hok.
    + rewrite list_elem_of_singleton. split; [by exists c | by intros (? & _ & _ & ->)].
    + split; [by intros ?%elem_of_nil |]. intros (c' & [= <-] & Hc & _). congruence.
  - split; [by intros ?%elem_of_nil | by intros (? & [=] & _)].
Qed.

Lemma class_ok_spec ranges c : class_ok ranges c = true ↔ in_class ranges c.
Proof.
  unfold class_ok, in_class. rewrite existsb_exists. split.
  - intros ([lo hi] & Hin & Hc). exists lo, hi. split; [by apply list_elem_of_In |]. lia.
  - intros (lo & hi & Hin & Hc). exists (lo, hi). split; [by apply list_elem_of_In |]. lia.
Qed.

Lemma is_word_spec r : is_word r = true ↔ ∃ c, r = Some c ∧ IsWordChar c = true.
Proof.
  destruct r as [c|]; simpl.
  - split; [by exists c | by intros (? & [= <-] & ?)].
  - split; [done | by intros (? & [=] & _)].
Qed.

Lemma is_newline_spec r : is_newline r = true ↔ r = Some newline.
Proof.
  destruct r as [c|]; simpl; [| done].
  rewrite Z.eqb_eq. split; [by intros -> | by intros [= ->]].
Qed.

Lemma is_end_before i : (i ≤ length text)%nat → is_end (before text i) = true ↔ i = 0%nat.
Proof.
  intros Hi. destruct i as [|i]; simpl; [done |].
  destruct (lookup_lt_is_Some_2 text i) as [c ->]; [lia |]. done.
Qed.

Lemma is_end_at i : (i ≤ length text)%nat → is_end (at_pos text i) = true ↔ i = length text.
Proof.
  intros Hi. unfold at_pos. destruct (text !! i) as [c|] eqn:Hc; simpl.
  - apply lookup_lt_Some in Hc. split; [done | lia].
  - apply lookup_ge_None in Hc. split; [lia | done].
Qed.

Lemma empty_width_elem cond i j :
  j ∈ empty_width text cond i
  ↔ cond (EmptyOpContext (before text i) (at_pos text i)) = true ∧ j = i.
Proof.
  unfold empty_width. destruct (cond _).
  - rewrite list_elem_of_singleton. tauto.
  - split; [by intros ?%elem_of_nil | by intros [? _]].
Qed.

Lemma boundary_spec i :
  xorb (is_word (before text i)) (is_word (at_pos text i)) = true
  ↔ ¬ (word_before text i ↔ word_at text i).
Proof.
  unfold word_before, word_at. rewrite <- !is_word_spec.
  destruct (is_word (before text i)), (is_word (at_pos text i)); simpl;
    intuition congruence.
Qed.

Lemma no_boundary_spec i :
  xorb (is_word (before text i)) (is_word (at_pos text i)) = false
  ↔ (word_before text i ↔ word_at text i).
Proof.
  unfold word_before, word_at. rewrite <- !is_word_spec.
  destruct (is_word (before text i)), (is_word (at_pos text i)); simpl;
    intuition congruence.
Qed.

Section StarBody.
Variables (body : nat → list nat) (r : regex).
Hypothesis body_spec : ∀ i j, (i ≤ length text)%nat → j ∈ body i ↔ matches_at text r i j.

Lemma star_ends_sound fuel : ∀ i j,
  (i ≤ length text)%nat → j ∈ star_ends body fuel i → matches_at text (Star r) i j.
Proof.
  induction fuel as [|fuel IH]; intros i j Hi; cbn [star_ends].
  - intros ->%list_elem_of_singleton. by constructor.
  - intros [-> | Hj]%elem_of_cons; [by constructor |].
    apply list_elem_of_bind in Hj as (k & Hj & [Hlt Hk]%list_elem_of_filter).
    apply body_spec in Hk; [| done].
    eapply M_star_more; [exact Hk |]. apply IH; [| done].
    by apply matches_at_bounds in Hk as [_ ?].
Qed.

Lemma star_ends_complete i j :
  matches_at text (Star r) i j →
  ∀ fuel, (length text ≤ fuel + i)%nat → j ∈ star_ends body fuel i.
Proof.
  intros Hm. remember (Star r) as sr eqn:Hsr. revert Hsr.
  induction Hm as [ | | | | | | | | | | | | r0 i0 Hi0
                   | r0 i0 k j0 Hbody _ Hrest IHrest | | | | | | ];
    intros Hsr fuel Hfuel; try discriminate.
  - destruct fuel; cbn [star_ends]; apply list_elem_of_here.
  - injection Hsr as ->.
    pose proof (matches_at_bounds _ _ _ Hbody) as [Hik Hk].
    destruct (decide (i0 = k)) as [<- | Hne]; [by apply IHrest |].
    destruct fuel as [|fuel]; [lia |]. cbn [star_ends].
    apply list_elem_of_further, list_elem_of_bind. exists k. split.
    + apply IHrest; [done | lia].
    + apply list_elem_of_filter. split; [lia |]. apply body_spec; [lia | done].
Qed.

Lemma star_ends_spec i j :
  (i ≤ length text)%nat →
  j ∈ star_ends body (length text - i) i ↔ matches_at text (Star r) i j.
Proof.
  intros Hi. split; [by apply star_ends_sound |].
  intros Hm. apply star_ends_complete; [done | lia].
Qed.

End StarBody.

(** The execution finds the ends of the matches, all of them. *)
Lemma ends_spec r : ∀ i j,
  (i ≤ length text)%nat → j ∈ ends text r i ↔ matches_at text r i j.
Proof.
  induction r as [ | | c | ranges | | | | | | | | | r IH | r IH | r IH | r IH
                 | r1 IH1 r2 IH2 | r1 IH1 r2 IH2 ];
    intros i j Hi; cbn [ends].
  - split; [by intros ?%elem_of_nil | inversion 1].
  - rewrite list_elem_of_singleton. split; [intros ->; by constructor | by inversion 1].
  - rewrite step_spec. split.
    + intros (c' & Hc & ->%Z.eqb_eq & ->). by constructor.
    + inversion 1; subst. exists c. by rewrite Z.eqb_refl.
  - rewrite step_spec. split.
    + intros (c & Hc & Hok%class_ok_spec & ->). by econstructor.
    + inversion 1; subst. eexists. by rewrite class_ok_spec.
  - rewrite step_spec. split.
    + intros (c & Hc & Hok & ->). econstructor; [done |].
      apply negb_true_iff, Z.eqb_neq in Hok. done.
    + inversion 1; subst. eexists. split_and!; [done | | done].
      by apply negb_true_iff, Z.eqb_neq.
  - rewrite step_spec. split.
    + intros (c & Hc & _ & ->). by econstructor.
    + inversion 1; subst. by eexists.
  - rewrite empty_width_elem. simpl.
    rewrite orb_true_iff, is_newline_spec, is_end_before by done. split.
    + intros [Hc ->]. constructor; [done | tauto].
    + inversion 1; subst. tauto.
  - rewrite empty_width_elem. simpl.
    rewrite orb_true_iff, is_newline_spec, is_end_at by done. split.
    + intros [Hc ->]. constructor; [done | tauto].
    + inversion 1; subst. tauto.
  - rewrite empty_width_elem. simpl. rewrite is_end_before by done. split.
    + intros [-> ->]. constructor.
    + by inversion 1.
  - rewrite empty_width_elem. simpl. rewrite is_end_at by done. split.
    + intros [-> ->]. constructor.
    + by inversion 1.
  - rewrite empty_width_elem. simpl. rewrite boundary_spec. split.
    + intros [Hc ->]. by constructor.
    + by inversion 1.
  - rewrite empty_width_elem. simpl. rewrite negb_true_iff.
    rewrite no_boundary_spec. split.
    + intros [Hc ->]. by constructor.
    + by inversion 1.
  - rewrite IH by done. split; [by constructor | by inversion 1].
  - by apply star_ends_spec.
  - rewrite list_elem_of_bind. split.
    + intros (k & Hj & Hk). apply IH in Hk; [| done].
      pose proof (matches_at_bounds _ _ _ Hk) as [_ Hlen].
      econstructor; [exact Hk |]. by apply (star_ends_spec (ends text r)).
    + inversion 1 as [ | | | | | | | | | | | | | | r0 i0 k j0 Hk Hrest | | | | | ]; subst.
      pose proof (matches_at_bounds _ _ _ Hk) as [_ Hlen].
      exists k. split; [by apply (star_ends_spec (ends text r) r) | by apply IH].
  - rewrite elem_of_cons, IH by done. split.
    + intros [-> | Hm]; [by apply M_quest_nil | by apply M_quest].
    + inversion 1; subst; tauto.
  - rewrite list_elem_of_bind. split.
    + intros (k & Hj & Hk). apply IH1 in Hk; [| done].
      pose proof (matches_at_bounds _ _ _ Hk) as [_ Hlen].
      econstructor; [exact Hk |]. by apply IH2.
    + inversion 1 as [ | | | | | | | | | | | | | | | | | r0 r0' i0 k j0 Hk Hrest | | ]; subst.
      pose proof (matches_at_bounds _ _ _ Hk) as [_ Hlen].
      exists k. split; [by apply IH2 | by apply IH1].
  - rewrite elem_of_app, IH1, IH2 by done. split.
    + intros [Hm | Hm]; [by apply M_alt_l | by apply M_alt_r].
    + inversion 1; subst; tauto.
Qed.

(** The search succeeds exactly when the text holds a match. *)
Lemma search_spec r : search text r = true ↔ ∃ i j, matches_at text r i j.
Proof.
  unfold search. rewrite existsb_exists. split.
  - intros (i & Hi & Hne). apply in_seq in Hi. apply bool_decide_eq_true in Hne.
    destruct (ends text r i) as [|j l] eqn:He; [done |].
    exists i, j. apply ends_spec; [lia |]. rewrite He. apply list_elem_of_here.
  - intros (i & j & Hm). pose proof (matches_at_bounds _ _ _ Hm) as [Hij Hj].
    exists i. split; [apply in_seq; lia |]. apply bool_decide_eq_true.
    apply ends_spec in Hm; [| lia]. intros Hnil. rewrite Hnil in Hm.
    by apply elem_of_nil in Hm.
Qed.

(** The runes of a literal are a match of it where they stand. *)
Lemma literal_runes_matches cs : ∀ i,
  (i ≤ length text)%nat →
  take (length cs) (drop i text) = cs →
  matches_at text (literal_runes cs) i (i + length cs).
Proof.
  induction cs as [|c cs IH]; intros i Hi Hcs; simpl.
  - rewrite Nat.add_0_r. by constructor.
  - destruct (drop i text) as [|c' rest] eqn:Hdrop; [done |].
    simpl in Hcs. injection Hcs as -> Hcs.
    assert (Hc : text !! i = Some c).
    { rewrite <- (Nat.add_0_r i), <- lookup_drop, Hdrop. done. }
    assert (Hrest : drop (S i) text = rest).
    { replace (S i) with (i + 1)%nat by lia. rewrite <- (drop_drop text 1 i), Hdrop. done. }
    replace (i + S (length cs))%nat with (S i + length cs)%nat by lia.
    econstructor; [by constructor |].
    apply IH; [by apply lookup_lt_Some in Hc | by rewrite Hrest].
Qed.

End Text.

Lemma MatchString_spec re s : MatchString re s = true ↔ contains_match re s.
Proof. apply search_spec. Qed.

Lemma MatchString_false re s : MatchString re s = false ↔ ¬ contains_match re s.
Proof. rewrite <- MatchString_spec. by destruct (MatchString re s). Qed.

Lemma whole_match_spec re s :
  whole_match re s ↔ length (Utf8.runes s) ∈ ends (Utf8.runes s) re 0.
Proof. unfold whole_match. by rewrite ends_spec by lia. Qed.

End RegexpFacts.

(** ** [sortByModtime] and the contract of [sort.Sort] *)

Module SortFacts.
Import Sort.

Lemma Swap_adjacent (p : list FileInfo) y x post :
  sortByModtime_Swap (p ++ y :: x :: post) (S (length p)) (length p)
  = Some (p ++ x :: y :: post).
Proof.
  unfold sortByModtime_Swap.
  rewrite (list_lookup_middle p (x :: post) y (length p)) by done.
  rewrite (lookup_app_r p) by lia.
  replace (S (length p) - length p)%nat with 1%nat by lia. simpl.
  rewrite (insert_app_r_alt p) by lia.
  replace (S (length p) - length p)%nat with 1%nat by lia. simpl.
  rewrite (insert_app_r_alt p) by lia.
  by rewrite Nat.sub_diag.
Qed.

Lemma Less_adjacent (p : list FileInfo) y x post :
  sortByModtime_Less (p ++ y :: x :: post) (S (length p)) (length p)
  = Some (Before x y).
Proof.
  unfold sortByModtime_Less.
  rewrite (list_lookup_middle p (x :: post) y (length p)) by done.
  rewrite (lookup_app_r p) by lia.
  by replace (S (length p) - length p)%nat with 1%nat by lia.
Qed.

(** The inner loop moves the element at index [length pre] to the left
    past every strictly newer neighbour, and stops at the first one that
    is not. *)
Lemma insertionSort_inner_spec (pre : list FileInfo) x post :
  ∃ pre1 pre2,
    pre = pre1 ++ pre2 ∧
    insertionSort_inner 0 (length pre) (pre ++ x :: post : sortByModtime)
      = Some (pre1 ++ x :: pre2 ++ post) ∧
    Forall (λ y, ModTime x < ModTime y) pre2 ∧
    (∀ pre1' y, pre1 = pre1' ++ [y] → ModTime y <= ModTime x).
Proof.
  revert post. induction pre as [|y p IH] using rev_ind; intros post.
  - exists [], []. repeat split; [constructor |].
    intros pre1' y Heq. by destruct pre1'.
  - rewrite length_app. simpl. replace (length p + 1)%nat with (S (length p)) by lia.
    rewrite <- app_assoc. simpl.
    destruct (decide (0 < S (length p))%nat) as [_|]; [|lia].
    change (Less (p ++ y :: x :: post) (S (length p)) (length p))
      with (sortByModtime_Less (p ++ y :: x :: post) (S (length p)) (length p)).
    rewrite Less_adjacent. simpl. unfold Before.
    case_bool_decide as Hlt.
    + change (Swap (p ++ y :: x :: post) (S (length p)) (length p))
        with (sortByModtime_Swap (p ++ y :: x :: post) (S (length p)) (length p)).
      rewrite Swap_adjacent. simpl.
      destruct (IH (y :: post)) as (pre1 & pre2 & -> & Hrun & Hnewer & Hstop).
      exists pre1, (pre2 ++ [y]). repeat split.
      * by rewrite app_assoc.
      * rewrite Hrun. by rewrite <- !app_assoc.
      * apply Forall_app. split; [done | by repeat constructor].
      * done.
    + exists (p ++ [y]), []. repeat split.
      * by rewrite app_nil_r.
      * by rewrite <- app_assoc.
      * constructor.
      * intros pre1' y' Heq. apply app_inj_tail in Heq as [_ ->]. lia.
Qed.

Lemma oldest_first_insert pre1 pre2 x :
  oldest_first (pre1 ++ pre2) →
  Forall (λ y, ModTime x < ModTime y) pre2 →
  (∀ pre1' y, pre1 = pre1' ++ [y] → ModTime y <= ModTime x) →
  oldest_first (pre1 ++ x :: pre2).
Proof.
  unfold oldest_first. intros Hsorted Hnewer Hstop.
  apply StronglySorted_app in Hsorted as (Hcross & Hs1 & Hs2).
  assert (Hle : ∀ a, a ∈ pre1 → not_after a x).
  { destruct pre1 as [|y q _] using rev_ind; [by intros a ?%elem_of_nil |].
    intros a [Ha | ->%list_elem_of_singleton]%elem_of_app.
    - apply StronglySorted_app in Hs1 as (Hq & _ & _).
      transitivity y; [apply Hq; [done | by apply list_elem_of_singleton] |].
      by apply (Hstop q).
    - by apply (Hstop q). }
  apply StronglySorted_app. split_and!; [| done |].
  - intros a b Ha [-> | Hb]%elem_of_cons; [by apply Hle | by apply Hcross].
  - apply StronglySorted_cons. split; [| done].
    eapply Forall_impl; [exact Hnewer |]. unfold not_after. simpl. lia.
Qed.

(** The outer loop, entered with a sorted prefix, leaves the slice
    sorted. *)
Lemma insertionSort_outer_spec (post pre : list FileInfo) :
  oldest_first pre →
  ∃ r, insertionSort_outer (length post) (length pre) 0 (pre ++ post) = Some r ∧
       r ≡ₚ pre ++ post ∧ oldest_first r.
Proof.
  revert pre. induction post as [|x post IH]; intros pre Hpre; simpl.
  - exists pre. by rewrite app_nil_r.
  - destruct (insertionSort_inner_spec pre x post)
      as (pre1 & pre2 & -> & Hrun & Hnewer & Hstop).
    rewrite Hrun. simpl.
    destruct (IH (pre1 ++ x :: pre2)) as (r & Hr & Hperm & Hsorted).
    { by apply oldest_first_insert. }
    exists r. split_and!; [| | done].
    + rewrite <- Hr. f_equal.
      * rewrite !length_app. simpl. lia.
      * by rewrite <- app_assoc.
    + rewrite Hperm. rewrite <- !app_assoc. simpl.
      by rewrite Permutation_middle.
Qed.

(** Exchanging two elements keeps the elements. *)
Lemma insert_head_perm (s : list FileInfo) j x b :
  s !! j = Some b → b :: <[j:=x]> s ≡ₚ x :: s.
Proof.
  revert j. induction s as [|c s IH]; intros [|j] Hj; simplify_eq/=.
  - apply perm_swap.
  - etrans; [apply perm_swap |]. etrans; [| apply perm_swap].
    apply perm_skip. by apply IH.
Qed.

Lemma Swap_perm (s : list FileInfo) i j :
  (i < length s)%nat → (j < length s)%nat →
  ∃ s', sortByModtime_Swap s i j = Some s' ∧ s' ≡ₚ s.
Proof.
  intros [a Ha]%lookup_lt_is_Some [b Hb]%lookup_lt_is_Some.
  unfold sortByModtime_Swap. rewrite Ha, Hb. simpl. eexists; split; [done |].
  revert i j Ha Hb. induction s as [|c s IH]; intros [|i] [|j] Ha Hb; simplify_eq/=.
  - done.
  - by apply insert_head_perm.
  - by apply insert_head_perm.
  - apply perm_skip. by apply IH.
Qed.

Lemma Less_defined (s : list FileInfo) i j :
  (i < length s)%nat → (j < length s)%nat → is_Some (sortByModtime_Less s i j).
Proof.
  intros [a Ha]%lookup_lt_is_Some [b Hb]%lookup_lt_is_Some.
  unfold sortByModtime_Less. rewrite Ha, Hb. by eexists.
Qed.

(** Insertion sort returns on every slice, and returns a sorted
    rearrangement. *)
Lemma insertionSort_spec (s : list FileInfo) :
  ∃ r, insertionSort s 0 (length s) = Some r ∧ r ≡ₚ s ∧ oldest_first r.
Proof.
  unfold insertionSort. destruct s as [|x post].
  - exists []. split_and!; [done | done | constructor].
  - destruct (insertionSort_outer_spec post [x]) as (r & Hr & Hperm & Hsorted).
    { repeat constructor. }
    exists r. split_and!; [| done | done].
    rewrite <- Hr. f_equal. simpl. lia.
Qed.

Lemma insertionSorted_perm s : insertionSorted s ≡ₚ s.
Proof.
  unfold insertionSorted. by destruct (insertionSort_spec s) as (r & -> & Hperm & _).
Qed.

Lemma insertionSorted_sorted s : oldest_first (insertionSorted s).
Proof.
  unfold insertionSorted. by destruct (insertionSort_spec s) as (r & -> & _ & Hsorted).
Qed.

Lemma sortChecked_perm s : sortChecked s ≡ₚ s.
Proof.
  unfold sortChecked. destruct (Sort s) as [r|]; [| apply insertionSorted_perm].
  destruct (decide _) as [[Hperm _] | _]; [done | apply insertionSorted_perm].
Qed.

Lemma sortChecked_oldest_first s : oldest_first (sortChecked s).
Proof.
  unfold sortChecked. destruct (Sort s) as [r|]; [| apply insertionSorted_sorted].
  destruct (decide _) as [[_ Hsorted] | _]; [done | apply insertionSorted_sorted].
Qed.

(** Oldest first is ascending order as [Less] determines it: past an
    element there is none that [Less] puts before it. *)
Lemma oldest_first_Less (s : list FileInfo) i j :
  oldest_first s → (i < j)%nat → (j < length s)%nat →
  sortByModtime_Less s j i = Some false.
Proof.
  intros Hsorted Hij Hj.
  destruct (lookup_lt_is_Some_2 s j Hj) as [b Hb].
  destruct (lookup_lt_is_Some_2 s i) as [a Ha]; [lia |].
  unfold sortByModtime_Less. rewrite Hb, Ha. simpl. f_equal.
  unfold Before. apply bool_decide_eq_false.
  assert (Hab : not_after a b).
  { rewrite <- (take_drop j s) in Hsorted.
    eapply StronglySorted_app_1_elem_of; [exact Hsorted | |].
    - apply list_elem_of_lookup. exists i. by rewrite lookup_take_lt.
    - apply list_elem_of_lookup. exists 0%nat. rewrite lookup_drop.
      by rewrite Nat.add_0_r. }
  unfold not_after in Hab. lia.
Qed.

Lemma Less_oldest_first (s : list FileInfo) :
  (∀ i j, (i < j)%nat → (j < length s)%nat → sortByModtime_Less s j i = Some false) →
  oldest_first s.
Proof.
  unfold oldest_first. induction s as [|x s IH]; intros Hless; [constructor |].
  apply StronglySorted_cons. split.
  - apply Forall_lookup. intros k y Hk.
    specialize (Hless 0%nat (S k)). unfold sortByModtime_Less in Hless.
    simpl in Hless. rewrite Hk in Hless. simpl in Hless.
    apply lookup_lt_Some in Hk as Hlt.
    assert (Hfalse : Some (Before y x) = Some false) by (apply Hless; lia).
    injection Hfalse as Hfalse. unfold Before in Hfalse.
    apply bool_decide_eq_false in Hfalse. unfold not_after. lia.
  - apply IH. intros i j Hij Hj.
    specialize (Hless (S i) (S j)). apply Hless; simpl; lia.
Qed.

Lemma sortChecked_sorted s i j :
  (i < j)%nat → (j < Len (sortChecked s))%nat →
  Less (sortChecked s) j i = Some false.
Proof. intros Hij Hj. apply oldest_first_Less; [apply sortChecked_oldest_first | done..]. Qed.

End SortFacts.

(** The sample libraries; the checked sort meets the contract. *)
#[local] Instance sampleLib : Lib := {|
  regexp_Compile := Sample.Compile;
  humanize_IBytes := Sample.IBytes;
  time_Format := Sample.Format;
  sort_Sort := Sort.sortChecked;
  sort_Sort_perm := SortFacts.sortChecked_perm;
  sort_Sort_sorted := SortFacts.sortChecked_sorted;
|}.

(** What the contract of [sort.Sort] and the [Less] of [sortByModtime]
    give together: the slice comes back oldest first. *)
Lemma sort_Sort_oldest_first `{Lib} (s : list FileInfo) : oldest_first (sort_Sort s).
Proof. apply SortFacts.Less_oldest_first. intros i j. apply sort_Sort_sorted. Qed.


(** ** The count policy *)

Section CountPolicy.

Lemma slice_to_take (s : list FileInfo) (k : Z) :
  0 <= k <= Z.of_nat (length s) → slice_to s k = Some (take (Z.to_nat k) s).
Proof. intros Hk. unfold slice_to. by rewrite decide_True. Qed.

(** In an oldest-first list nothing in a prefix is newer than anything
    after it. *)
Lemma oldest_first_take_drop (l : list FileInfo) (k : nat) a b :
  oldest_first l → a ∈ take k l → b ∈ drop k l → not_after a b.
Proof.
  intros Hsorted Ha Hb. rewrite <- (take_drop k l) in Hsorted.
  by eapply StronglySorted_app_1_elem_of.
Qed.

(** Away from the least [int], a negative [number] keeps the [-number]
    newest matches, or all of them.  The length of a slice is an [int]. *)
Lemma selectByNumber_negative (arrMatch : list FileInfo) (n : Z) :
  GoInt.in_int (Z.of_nat (length arrMatch)) →
  GoInt.min_int < n → n < 0 →
  selectByNumber n arrMatch =
    if decide (Z.of_nat (length arrMatch) > - n)
    then Selected (take (length arrMatch - Z.to_nat (- n)) arrMatch)
    else AllKept.
Proof.
  intros Hin Hmin Hneg. unfold selectByNumber.
  rewrite decide_False by lia. rewrite decide_True by lia.
  rewrite GoIntFacts.neg_exact by (unfold GoInt.max_int, GoInt.int_bits; lia).
  destruct (decide (Z.of_nat (length arrMatch) > - n)) as [Hlen | Hlen]; [| done].
  pose proof (Nat2Z.is_nonneg (length arrMatch)) as Hnonneg.
  rewrite GoIntFacts.add_exact
    by (unfold GoInt.in_int, GoInt.min_int, GoInt.max_int, GoInt.int_bits in *; lia).
  rewrite slice_to_take by lia. do 2 f_equal. lia.
Qed.

End CountPolicy.

(** C1.  For a list of matches and a number [n]: with [n = 0] the count
    policy selects the list as it is; with [n > 0] it selects the first
    [min n len] matches, the whole list when [len <= n]; and in an
    oldest-first list no selected match is newer than a match left
    out. *)
Theorem C1_select_oldest (arrMatch : list FileInfo) (n : Z) :
  0 <= n →
  ∃ sel, selectByNumber n arrMatch = Selected sel ∧
    (n = 0 → sel = arrMatch) ∧
    (0 < n → sel = take (Z.to_nat (n `min` Z.of_nat (length arrMatch))) arrMatch) ∧
    (0 < n → Z.of_nat (length sel) = n `min` Z.of_nat (length arrMatch)) ∧
    (Z.of_nat (length arrMatch) <= n → sel = arrMatch) ∧
    (oldest_first arrMatch →
     ∀ a b, a ∈ sel → b ∈ drop (length sel) arrMatch → not_after a b).
Proof.
  intros Hn. unfold selectByNumber.
  destruct (decide (n > 0)) as [Hpos | Hzero].
  - destruct (decide (Z.of_nat (length arrMatch) > n)) as [Hlen | Hlen].
    + rewrite slice_to_take by lia.
      exists (take (Z.to_nat n) arrMatch). split_and!; [done | lia | | | lia |].
      * intros _. by rewrite Z.min_l by lia.
      * intros _. rewrite length_take. lia.
      * intros Hsorted a b Ha Hb. rewrite length_take in Hb.
        rewrite Nat.min_l in Hb by lia. by eapply oldest_first_take_drop.
    + exists arrMatch. split_and!; [done | done | | | done |].
      * intros _. rewrite Z.min_r by lia. rewrite Nat2Z.id. by rewrite firstn_all.
      * intros _. lia.
      * intros _ a b _ Hb. rewrite drop_all in Hb. by apply elem_of_nil in Hb.
  - rewrite decide_False by lia.
    exists arrMatch. split_and!; [done | done | lia | lia | done |].
    intros _ a b _ Hb. rewrite drop_all in Hb. by apply elem_of_nil in Hb.
Qed.

Lemma C1_select_oldest_witness :
  ∃ sel, selectByNumber 2 Examples.sorted3 = Selected sel ∧
         sel = take 2 Examples.sorted3.
Proof.
  destruct (C1_select_oldest Examples.sorted3 2) as (sel & Hsel & _ & Htake & _);
    [lia |].
  exists sel. split; [done |]. apply Htake. lia.
Defined.

(** At the least [int] the guard [len(arrMatch) > -number] holds for
    every length, and the slice bound [len(arrMatch)+number] is
    negative. *)
Lemma selectByNumber_min_int (arrMatch : list FileInfo) :
  GoInt.in_int (Z.of_nat (length arrMatch)) →
  selectByNumber GoInt.min_int arrMatch = SlicePanic.
Proof.
  intros Hin. unfold selectByNumber.
  rewrite decide_False by done. rewrite decide_True by done.
  rewrite GoIntFacts.neg_min_int.
  pose proof (Nat2Z.is_nonneg (length arrMatch)) as Hnonneg.
  rewrite decide_True by (unfold GoInt.min_int, GoInt.int_bits; lia).
  rewrite GoIntFacts.add_exact
    by (unfold GoInt.in_int, GoInt.min_int, GoInt.max_int, GoInt.int_bits in *; lia).
  unfold slice_to. rewrite decide_False; [done |].
  unfold GoInt.in_int, GoInt.min_int, GoInt.max_int, GoInt.int_bits in *. lia.
Qed.

(** C2.  With [--number -9223372036854775808] and three matches the
    count policy does not keep all files: the slice expression panics,
    and so does the run, where the specification has it print the "all
    kept" message and return without error. *)
Theorem C2_least_int_panics :
  selectByNumber GoInt.min_int Examples.sorted3 = SlicePanic ∧
  Action (lib := sampleLib) (Examples.flags GoInt.min_int false true)
    (Examples.world None None)
  = mkRun Panic [] Examples.logsDir ∧
  exitCode Panic = 2.
Proof. split_and!; vm_compute; reflexivity. Qed.

(** ** The pattern filter *)

Section Filter.


Lemma matchFiles_filter re self (arrFileInfo : list FileInfo) :
  matchFiles re self arrFileInfo = filter (accepted re self) arrFileInfo.
Proof.
  induction arrFileInfo as [|fi rest IH]; [done |]. simpl.
  destruct (decide (Name fi = self)) as [Heq | Hne].
  - rewrite filter_cons_False; [done |]. unfold accepted. tauto.
  - destruct (Regexp.MatchString re (Name fi)) eqn:Hm.
    + rewrite filter_cons_True by done. by rewrite IH.
    + rewrite filter_cons_False; [done |]. unfold accepted. intros [_ ?]. congruence.
Qed.

End Filter.

(** C3.  Whatever the listing, the expression and [os.Args[0]]: no match
    bears the base name of the executable; every other listed file
    whose name the expression matches is a match; and the matches are
    the listing with the other entries struck out, in its order. *)
Theorem C3_self_excluded (re : Regexp.regex) (args0 : string)
    (arrFileInfo : list FileInfo) :
  let arrMatch := matchFiles re (Path.Base args0) arrFileInfo in
  Forall (λ fi, Name fi ≠ Path.Base args0) arrMatch ∧
  (∀ fi, fi ∈ arrFileInfo → Name fi ≠ Path.Base args0 →
         Regexp.MatchString re (Name fi) = true → fi ∈ arrMatch) ∧
  (∀ fi, fi ∈ arrMatch → fi ∈ arrFileInfo ∧ Regexp.MatchString re (Name fi) = true) ∧
  arrMatch = filter (accepted re (Path.Base args0)) arrFileInfo ∧
  arrMatch `sublist_of` arrFileInfo.
Proof.
  simpl. rewrite matchFiles_filter. split_and!.
  - apply Forall_forall. intros fi [[Hne _] _]%list_elem_of_filter. done.
  - intros fi Hin Hne Hm. apply list_elem_of_filter. by repeat split.
  - intros fi [[_ Hm] Hin]%list_elem_of_filter. done.
  - done.
  - apply sublist_filter.
Qed.

Lemma C3_self_excluded_witness :
  matchFiles (Regexp.literal "log") (Path.Base "./b.log")
    Examples.sorted3 = [Examples.a_log; Examples.c_log].
Proof.
  destruct (C3_self_excluded (Regexp.literal "log") "./b.log" Examples.sorted3)
    as (_ & _ & _ & -> & _).
  reflexivity.
Defined.

(** The model of [MatchString] on names that tell the readings apart:
    [.] reads one rune, of whatever width in bytes; an anchor written in
    the expression is honoured, and is read against the whole name. *)
Lemma MatchString_examples :
  Utf8.runes "aéb" = [0x61; 0xE9; 0x62] ∧
  Regexp.MatchString (Regexp.Concat Regexp.AnyCharNotNL Regexp.AnyCharNotNL) "é" = false ∧
  Regexp.MatchString (Regexp.Concat Regexp.AnyCharNotNL Regexp.AnyCharNotNL) "éé" = true ∧
  Regexp.MatchString
    (Regexp.Concat (Regexp.Literal 0x61)
       (Regexp.Concat Regexp.AnyCharNotNL (Regexp.Literal 0x62))) "aéb" = true ∧
  Regexp.MatchString (Regexp.Concat Regexp.BeginText (Regexp.literal "log")) "log.txt"
    = true ∧
  Regexp.MatchString (Regexp.Concat Regexp.BeginText (Regexp.literal "log")) "catalog.txt"
    = false ∧
  Regexp.MatchString (Regexp.Concat (Regexp.literal "log") Regexp.EndText) "catalog.txt"
    = false ∧
  Regexp.MatchString (Regexp.Concat (Regexp.literal "txt") Regexp.EndText) "catalog.txt"
    = true.
Proof. split_and!; vm_compute; reflexivity. Qed.

(** C9.  A listed file, not the executable, is accepted exactly when
    its name contains a match of the expression, as [MatchString] has
    it: some stretch of the runes of the name is a match where it
    stands.  The whole name need not be one, and the filter adds no
    anchor of its own: the expression of the pattern [log] accepts
    [catalog.txt], which it does not match as a whole. *)
Theorem C9_unanchored (re : Regexp.regex) (self : string)
    (arrFileInfo : list FileInfo) (fi : FileInfo) :
  fi ∈ arrFileInfo →
  Name fi ≠ self →
  (Regexp.contains_match re (Name fi) → fi ∈ matchFiles re self arrFileInfo) ∧
  (fi ∈ matchFiles re self arrFileInfo → Regexp.contains_match re (Name fi)) ∧
  Regexp.MatchString (Regexp.literal "log") "catalog.txt" = true ∧
  Regexp.contains_match (Regexp.literal "log") "catalog.txt" ∧
  ¬ Regexp.whole_match (Regexp.literal "log") "catalog.txt".
Proof.
  intros Hin Hne. rewrite matchFiles_filter. split_and!.
  - intros Hseg. apply list_elem_of_filter. split; [| done].
    split; [done |]. by apply RegexpFacts.MatchString_spec.
  - intros [[_ Hm] _]%list_elem_of_filter. by apply RegexpFacts.MatchString_spec.
  - vm_compute. reflexivity.
  - apply RegexpFacts.MatchString_spec. vm_compute. reflexivity.
  - rewrite RegexpFacts.whole_match_spec. vm_compute.
    intros Hin'. repeat (apply elem_of_cons in Hin' as [[=] | Hin']).
    by apply elem_of_nil in Hin'.
Qed.

Lemma C9_unanchored_witness :
  mkFileInfo "catalog.txt" 1 1
    ∈ matchFiles (Regexp.literal "log") "dof" [mkFileInfo "catalog.txt" 1 1].
Proof.
  refine (proj1 (C9_unanchored (Regexp.literal "log") "dof"
                   [mkFileInfo "catalog.txt" 1 1] (mkFileInfo "catalog.txt" 1 1) _ _) _).
  - apply list_elem_of_singleton. reflexivity.
  - simpl. discriminate.
  - exists 4%nat, 7%nat.
    exact (RegexpFacts.literal_runes_matches (Utf8.runes "catalog.txt")
             (Utf8.runes "log") 4 ltac:(vm_compute; lia) eq_refl).
Defined.

(** ** The directory lister *)

Section Lister.
Context `{Lib}.


(** What the loop of [listByTime] collects: the entries that are not
    directories and whose [Info()] succeeds, in reading order. *)
Lemma listByTime_collect_omap (arrFiles : list DirEntry) :
  listByTime_collect arrFiles = omap Info (filter is_file arrFiles).
Proof.
  induction arrFiles as [|f rest IH]; [done |]. cbn [listByTime_collect].
  destruct (de_isDir f) eqn:Hdir.
  - rewrite filter_cons_False; [done |]. unfold is_file. congruence.
  - rewrite filter_cons_True by done. rewrite IH. simpl. by destruct (Info f).
Qed.

Lemma Info_Some (f : DirEntry) (fi : FileInfo) :
  Info f = Some fi ↔
  Name fi = de_name f ∧ de_stat f = Some (Size fi, ModTime fi).
Proof.
  unfold Info. destruct fi as [name size mtime]. simpl.
  destruct (de_stat f) as [[size' mtime']|]; split.
  - intros [= <- <- <-]. done.
  - intros [-> [= -> ->]]. done.
  - done.
  - intros [_ ?]. done.
Qed.

End Lister.

(** C4, as the code has it.  When [listByTime] returns a list, the path
    is a directory and the list holds, once each, the records of the
    entries that are not directories and whose [Info()] call succeeded,
    each with the name of its entry and the size and modification time
    [Info()] reported, in ascending order of modification time.  The
    order among equal times is left to [sort.Sort]. *)
Theorem C4_listByTime_sorted `{Lib} (dir : PathState) (l : list FileInfo) :
  listByTime dir = Ok l →
  ∃ arrFiles, dir = Directory arrFiles ∧
    l ≡ₚ omap Info (filter is_file arrFiles) ∧
    (∀ fi, fi ∈ l ↔
       ∃ f, f ∈ arrFiles ∧ de_isDir f = false ∧
            Name fi = de_name f ∧ de_stat f = Some (Size fi, ModTime fi)) ∧
    oldest_first l.
Proof.
  intros Hl. destruct dir as [err| | |err|arrFiles]; simplify_eq/=.
  exists arrFiles. rewrite listByTime_collect_omap. split_and!.
  - done.
  - apply sort_Sort_perm.
  - intros fi. rewrite sort_Sort_perm, list_elem_of_omap. split.
    + intros (f & [Hfile Hin]%list_elem_of_filter & Hinfo%Info_Some). eauto.
    + intros (f & Hin & Hfile & Hinfo). exists f.
      split; [by apply list_elem_of_filter | by apply Info_Some].
  - apply sort_Sort_oldest_first.
Qed.

Lemma C4_listByTime_sorted_witness :
  ∃ arrFiles, Examples.logsDir = Directory arrFiles ∧
    Examples.sorted3 ≡ₚ omap Info (filter is_file arrFiles) ∧
    oldest_first Examples.sorted3.
Proof.
  destruct (C4_listByTime_sorted Examples.logsDir Examples.sorted3)
    as (arrFiles & Hdir & Hperm & _ & Hsorted); [reflexivity |].
  exists arrFiles. done.
Defined.

(** C4 as the specification states it fails twice.  An entry that is
    not a directory and whose [Info()] call fails is left out of a
    successful listing.  And ties do not keep the order of the directory
    read: of thirteen entries read in the order [t0] ... [t12], the
    first twelve bearing the same time, the pattern-defeating quicksort
    of [sort.Sort] (Go 1.19 and later) picks [t6] as the pivot and
    returns [t6] before [t2], [t0] behind [t5] and [t1] last. *)
Lemma C4_counterexample :
  (listByTime (lib := sampleLib) Examples.goneDir = Ok [Examples.a_log] ∧
   mkDirEntry "gone.log" false None None ∈ entriesOf Examples.goneDir ∧
   ∀ fi, fi ∈ [Examples.a_log] → Name fi ≠ "gone.log") ∧
  (Name <$> listByTime_collect (entriesOf Examples.tiesDir)
     = ["t0"; "t1"; "t2"; "t3"; "t4"; "t5"; "t6"; "t7"; "t8"; "t9"; "t10";
        "t11"; "t12"] ∧
   fmap (M := list) Name <$> Sort.Sort (listByTime_collect (entriesOf Examples.tiesDir))
     = Some ["t12"; "t6"; "t2"; "t3"; "t4"; "t5"; "t0"; "t7"; "t8"; "t9"; "t10";
             "t11"; "t1"] ∧
   listByTime (lib := sampleLib) Examples.tiesDir
     = Ok (mkFileInfo "t12" 1 1
           :: (Examples.tied <$> ["t6"; "t2"; "t3"; "t4"; "t5"; "t0"; "t7"; "t8";
                                  "t9"; "t10"; "t11"; "t1"])) ∧
   ModTime (Examples.tied "t0") = ModTime (Examples.tied "t6") ∧
   ModTime (Examples.tied "t1") = ModTime (Examples.tied "t2")).
Proof.
  split; split_and!; try (vm_compute; reflexivity).
  - apply list_elem_of_here.
  - intros fi ->%list_elem_of_singleton. discriminate.
Qed.

Lemma listByTime_Directory `{Lib} (arrFiles : list DirEntry) :
  ∃ l, listByTime (Directory arrFiles) = Ok l.
Proof. by eexists. Qed.

(** ** The presenter *)

Section Presenter.
Context `{Lib}.


Lemma printResult_loop_spec (r : list FileInfo) : ∀ i totalSize rows,
  0 <= totalSize < 2 ^ 64 →
  printResult_loop i r totalSize rows =
    ((totalSize + sumSizes r) mod 2 ^ 64,
     rows ++ (tableRow <$> take (truncateLen - i) r)).
Proof.
  induction r as [|fi rest IH]; intros i totalSize rows Htotal; simpl.
  - rewrite Z.add_0_r, Z.mod_small by done. by rewrite take_nil, app_nil_r.
  - assert (Hnext : 0 <= GoInt.add_uint64 totalSize (GoInt.to_uint64 (Size fi)) < 2 ^ 64)
      by (apply Z.mod_pos_bound; lia).
    assert (Hsum : (GoInt.add_uint64 totalSize (GoInt.to_uint64 (Size fi)) + sumSizes rest)
                     mod 2 ^ 64
                   = (totalSize + (GoInt.to_uint64 (Size fi) + sumSizes rest)) mod 2 ^ 64).
    { unfold GoInt.add_uint64. rewrite Zplus_mod_idemp_l. f_equal. lia. }
    destruct (decide (truncateLen ≤ i)%nat) as [Hhidden | Hshown].
    + rewrite IH by done. rewrite Hsum.
      replace (truncateLen - i)%nat with 0%nat by lia.
      replace (truncateLen - S i)%nat with 0%nat by lia. done.
    + rewrite IH by done. rewrite Hsum.
      replace (truncateLen - i)%nat with (S (truncateLen - S i)) by lia.
      simpl. by rewrite <- app_assoc.
Qed.

Lemma sumSizes_mod (r : list FileInfo) :
  sumSizes r mod 2 ^ 64 = totalBytes r mod 2 ^ 64.
Proof.
  induction r as [|fi rest IH]; [done |]. simpl. unfold GoInt.to_uint64.
  rewrite Zplus_mod_idemp_l. rewrite <- Zplus_mod_idemp_r, IH.
  by rewrite Zplus_mod_idemp_r.
Qed.

Lemma totalBytes_nonneg (r : list FileInfo) :
  Forall (λ fi, 0 <= Size fi) r → 0 <= totalBytes r.
Proof. induction 1 as [|fi rest Hfi _ IH]; simpl; lia. Qed.

Lemma prefix_app (p s : string) : String.prefix p (p +:+ s) = true.
Proof.
  induction p as [|c p IH]; simpl; [by destruct s |].
  destruct (ascii_dec c c); [done | congruence].
Qed.

Lemma printResult_no_effect (r : list FileInfo) : Forall is_output (printResult r).
Proof.
  unfold printResult. destruct (printResult_loop 0 r 0 []). by repeat constructor.
Qed.

End Presenter.

(** C8.  [printResult] renders the rows of the first 30 selected
    records, in the order of the selection, and one summary line after
    them.  The line gives the number of all selected records and the sum
    of the sizes of all of them (kept in a [uint64]: the sum itself as
    long as it is below 2^64), and begins with the truncation notice
    exactly when more than 30 records were selected. *)
Theorem C8_printResult `{Lib} (r : list FileInfo) :
  ∃ rows hint,
    printResult r = [TableRender tableHeader rows; Println hint] ∧
    rows = tableRow <$> take 30 r ∧
    (length rows ≤ 30)%nat ∧
    (∃ notice, hint = notice +:+ totalHint (length r) (sumSizes r mod 2 ^ 64) ∧
               notice = if decide (30 < length r)%nat then truncationPrefix else "") ∧
    sumSizes r mod 2 ^ 64 = totalBytes r mod 2 ^ 64 ∧
    (Forall (λ fi, 0 <= Size fi) r → totalBytes r < 2 ^ 64 →
     sumSizes r mod 2 ^ 64 = totalBytes r) ∧
    (String.prefix truncationPrefix hint = true ↔ (30 < length r)%nat).
Proof.
  unfold printResult. rewrite printResult_loop_spec by lia. simpl.
  eexists _, _. split_and!; [done | done | | | apply sumSizes_mod | |].
  3: { intros Hpos Hsmall. rewrite sumSizes_mod. apply Z.mod_small.
       split; [by apply totalBytes_nonneg | done]. }
  - rewrite length_fmap, length_take. lia.
  - eexists. split; [| done]. unfold truncateLen. by destruct (decide (30 < length r)%nat).
  - unfold truncateLen. destruct (decide (30 < length r)%nat) as [Hlong | Hshort].
    + split; [done |]. intros _. apply prefix_app.
    + split; [| done]. unfold totalHint. vm_compute. discriminate.
Qed.

Lemma C8_printResult_witness :
  printResult Examples.sorted3 =
    [ TableRender tableHeader
        [ ["a.log"; "20 B"; "10"]; ["b.log"; "30 B"; "20"]; ["c.log"; "10 B"; "30"] ];
      Println "Total: 3 file(s), 60 B" ].
Proof.
  destruct (C8_printResult Examples.sorted3) as (rows & hint & -> & -> & _ & Hhint & _).
  destruct Hhint as (notice & -> & ->). reflexivity.
Defined.

(** ** The deleter *)

Section Deleter.


Lemma removals_Remove name ok t : removals (Remove name ok :: t) = (name, ok) :: removals t.
Proof. done. Qed.

Lemma removals_LogPrintln msg t : removals (LogPrintln msg :: t) = removals t.
Proof. done. Qed.

(** Over a confirmed set without nil entries the loop runs to the end:
    it calls [os.Remove] once per file, in order, logs after each failure
    and raises [hasErr] exactly when a call failed. *)
Lemma removeLoop_spec (files : list FileInfo) : ∀ entries hasErr,
  ∃ t e b,
    removeLoop (Some <$> files) entries hasErr = (Ok b, t, e) ∧
    (removals t).*1 = Name <$> files ∧
    (∀ i name, t !! i = Some (Remove name false) →
               ∃ err, t !! S i = Some (LogPrintln err)) ∧
    (b = true ↔ hasErr = true ∨ ∃ name, failed name t).
Proof.
  unfold failed.
  induction files as [|fi rest IH]; intros entries hasErr;
    [| rewrite fmap_cons; cbn [removeLoop]].
  - eexists [], entries, hasErr. split_and!; [done | done | |].
    + intros i name Hi. by rewrite lookup_nil in Hi.
    + split; [by left |]. intros [-> | [name Hname]]; [done |].
      by apply elem_of_nil in Hname.
  - destruct (os_Remove entries (Name fi)) as [entries' | err].
    + destruct (IH entries' hasErr) as (t & e & b & -> & Hnames & Hlog & Hb).
      eexists _, e, b. split_and!; [done | | |].
      * rewrite removals_Remove, !fmap_cons. by f_equal.
      * intros [|i] name Hi; [discriminate Hi |]. by apply (Hlog i name).
      * rewrite Hb, removals_Remove. split.
        -- intros [? | [name Hname]]; [by left | right].
           exists name. by apply list_elem_of_further.
        -- intros [? | [name Hname]]; [by left | right].
           apply elem_of_cons in Hname as [[=] | Hname]. by exists name.
    + destruct (IH entries true) as (t & e & b & -> & Hnames & Hlog & Hb).
      eexists _, e, b. split_and!; [done | | |].
      * rewrite removals_Remove, removals_LogPrintln, !fmap_cons. by f_equal.
      * intros [|[|i]] name Hi; [by eexists | discriminate Hi |].
        by apply (Hlog i name).
      * rewrite removals_Remove, removals_LogPrintln.
        split; [intros _; right; exists (Name fi); apply list_elem_of_here |].
        intros _. apply Hb. by left.
Qed.

Lemma removals_app t1 t2 : removals (t1 ++ t2) = removals t1 ++ removals t2.
Proof. apply omap_app. Qed.

Lemma os_Remove_inl (entries entries' : list DirEntry) (name : string) :
  os_Remove entries name = inl entries' →
  entries' = filter (λ e, de_name e ≠ name) entries.
Proof.
  unfold os_Remove. destruct (list_find _ entries) as [[i e]|]; [| done].
  destruct (de_removeErr e); [done |]. by intros [= <-].
Qed.

Lemma filter_all {A} (P : A → Prop) `{∀ x, Decision (P x)} (l : list A) :
  (∀ x, x ∈ l → P x) → filter P l = l.
Proof.
  induction l as [|x l IH]; intros Hall; [done |].
  rewrite filter_cons_True by (apply Hall, list_elem_of_here).
  f_equal. apply IH. intros y Hy. by apply Hall, list_elem_of_further.
Qed.

Lemma removeLoop_final (arr : list (option FileInfo)) : ∀ entries hasErr,
  (removeLoop arr entries hasErr).2
  = filter (λ en, ¬ removed_by (removeLoop arr entries hasErr).1.2 en) entries.
Proof.
  unfold removed_by.
  induction arr as [|[fi|] rest IH]; intros entries hasErr; cbn [removeLoop].
  - simpl. symmetry. apply filter_all. intros en _ Hen. by apply elem_of_nil in Hen.
  - destruct (os_Remove entries (Name fi)) as [entries' | err] eqn:Hrm.
    + specialize (IH entries' hasErr).
      destruct (removeLoop rest entries' hasErr) as [[r t] e]. cbn [fst snd] in *.
      rewrite IH, (os_Remove_inl _ _ _ Hrm), list_filter_filter.
      apply list_filter_iff. intros en. rewrite removals_Remove, elem_of_cons.
      split.
      * intros [Hnot Hne] [[= Heq] | Hin]; done.
      * intros Hnot. split; [tauto |]. intros Heq. apply Hnot. left. by rewrite Heq.
    + specialize (IH entries true).
      destruct (removeLoop rest entries true) as [[r t] e]. cbn [fst snd] in *.
      rewrite IH. apply list_filter_iff. intros en.
      rewrite removals_Remove, removals_LogPrintln, elem_of_cons.
      split; [intros Hnot [[=] | Hin]; done | tauto].
  - simpl. symmetry. apply filter_all. intros en _ Hen. by apply elem_of_nil in Hen.
Qed.

Lemma deleteFiles_final (arr : list (option FileInfo)) (entries : list DirEntry) :
  final (deleteFiles arr entries)
  = Directory (filter (λ en, ¬ removed_by (trace (deleteFiles arr entries)) en) entries).
Proof.
  unfold deleteFiles. pose proof (removeLoop_final arr entries false) as Hfinal.
  destruct (removeLoop arr entries false) as [[[[|]|msg|] t] e];
    cbn [fst snd] in *; simpl; rewrite Hfinal; try done.
  f_equal. apply list_filter_iff. intros en. unfold removed_by.
  rewrite removals_app. simpl. by rewrite app_nil_r.
Qed.

Lemma remaining_nil entries : remaining [] entries = entries.
Proof.
  unfold remaining, removed_by. apply filter_all.
  intros en _ Hen. by apply elem_of_nil in Hen.
Qed.

Lemma remaining_Remove_true name t entries :
  remaining (Remove name true :: t) entries
  = remaining t (filter (λ e, de_name e ≠ name) entries).
Proof.
  unfold remaining, removed_by. rewrite list_filter_filter.
  apply list_filter_iff. intros en. rewrite removals_Remove, elem_of_cons. split.
  - intros Hnot. split; [tauto |]. intros Heq. apply Hnot. left. by rewrite Heq.
  - intros [Hnot Hne] [[= Heq] | Hin]; done.
Qed.

Lemma remaining_Remove_false name t entries :
  remaining (Remove name false :: t) entries = remaining t entries.
Proof.
  unfold remaining, removed_by. apply list_filter_iff. intros en.
  rewrite removals_Remove, elem_of_cons. split; [tauto |].
  intros Hnot [[=] | Hin]; done.
Qed.

Lemma remaining_LogPrintln msg t entries :
  remaining (LogPrintln msg :: t) entries = remaining t entries.
Proof. done. Qed.

(** Each call recorded in the trace of the loop is the call to
    [os.Remove] on the directory as the earlier calls left it, with its
    outcome; the log line carries the error of the call. *)
Lemma removeLoop_calls (arr : list (option FileInfo)) : ∀ entries hasErr i name ok,
  (removeLoop arr entries hasErr).1.2 !! i = Some (Remove name ok) →
  match os_Remove (remaining (take i (removeLoop arr entries hasErr).1.2) entries) name with
  | inl _ => ok = true
  | inr err =>
      ok = false ∧ (removeLoop arr entries hasErr).1.2 !! S i = Some (LogPrintln err)
  end.
Proof.
  induction arr as [|[fi|] rest IH]; intros entries hasErr i name ok; cbn [removeLoop].
  - simpl. by rewrite lookup_nil.
  - destruct (os_Remove entries (Name fi)) as [entries' | err] eqn:Hrm.
    + specialize (IH entries' hasErr).
      destruct (removeLoop rest entries' hasErr) as [[r t] e]. cbn [fst snd] in *.
      destruct i as [|i]; simpl.
      * intros [= <- <-]. rewrite remaining_nil. by rewrite Hrm.
      * intros Hi. rewrite remaining_Remove_true, <- (os_Remove_inl _ _ _ Hrm).
        by apply IH.
    + specialize (IH entries true).
      destruct (removeLoop rest entries true) as [[r t] e]. cbn [fst snd] in *.
      destruct i as [|[|i]]; simpl.
      * intros [= <- <-]. rewrite remaining_nil. by rewrite Hrm.
      * done.
      * intros Hi. rewrite remaining_Remove_false, remaining_LogPrintln. by apply IH.
  - simpl. by rewrite lookup_nil.
Qed.

Lemma deleteFiles_calls (arr : list (option FileInfo)) (entries : list DirEntry) i name ok :
  trace (deleteFiles arr entries) !! i = Some (Remove name ok) →
  match os_Remove (remaining (take i (trace (deleteFiles arr entries))) entries) name with
  | inl _ => ok = true
  | inr err => ok = false ∧ trace (deleteFiles arr entries) !! S i = Some (LogPrintln err)
  end.
Proof.
  unfold deleteFiles. pose proof (removeLoop_calls arr entries false i name ok) as Hcalls.
  destruct (removeLoop arr entries false) as [[[[|]|msg|] t] e];
    cbn [fst snd] in *; simpl; try done.
  intros Hi. apply lookup_app_Some in Hi as [Hi | [_ Hi]].
  - apply lookup_lt_Some in Hi as Hlt. rewrite take_app_le by lia.
    specialize (Hcalls Hi). destruct (os_Remove _ name) as [? | err]; [done |].
    destruct Hcalls as [-> Hlog]. split; [done |]. by apply lookup_app_l_Some.
  - destruct (i - length t)%nat as [|[|?]]; simplify_eq/=.
Qed.

(** A name whose removal succeeded is the name of no entry left. *)
Lemma remaining_name t entries en name :
  en ∈ remaining t entries → (name, true) ∈ removals t → de_name en ≠ name.
Proof.
  unfold remaining, removed_by. intros [Hnot _]%list_elem_of_filter Hin Heq.
  apply Hnot. by rewrite Heq.
Qed.

End Deleter.

(** C6.  For a confirmed set of files, [os.Remove] is called once for
    each, in order, whatever the earlier calls returned; each failed call
    is followed by a log line; the run returns the error "Failed to
    delete some files", and the process exits non-zero, exactly when a
    call failed; when none failed it returns nil after printing
    "Finished deleting above files".  What the trace records of a call
    is its outcome: it is [os.Remove] on the directory as the earlier
    calls left it, the call is recorded as failed exactly when
    [os.Remove] returns an error, and the log line carries that error.
    The directory afterwards is the given one without the entries whose
    removal succeeded, and after a run without error none of its entries
    bears the name of a file of the set. *)
Theorem C6_deleteFiles `{Lib} (files : list FileInfo) (entries : list DirEntry) :
  let r := deleteFiles (Some <$> files) entries in
  (removals (trace r)).*1 = Name <$> files ∧
  (∀ i name, trace r !! i = Some (Remove name false) →
             ∃ err, trace r !! S i = Some (LogPrintln err)) ∧
  (result r = Error "Failed to delete some files" ↔ ∃ name, failed name (trace r)) ∧
  (exitCode (result r) ≠ 0 ↔ ∃ name, failed name (trace r)) ∧
  ((∀ name, ¬ failed name (trace r)) →
   result r = Ok () ∧ last (trace r) = Some (Println "Finished deleting above files")) ∧
  (∀ i name ok, trace r !! i = Some (Remove name ok) →
     match os_Remove (remaining (take i (trace r)) entries) name with
     | inl _ => ok = true
     | inr err => ok = false ∧ trace r !! S i = Some (LogPrintln err)
     end) ∧
  final r = Directory (remaining (trace r) entries) ∧
  (result r = Ok () →
   ∀ fi en, fi ∈ files → en ∈ remaining (trace r) entries → de_name en ≠ Name fi).
Proof.
  intros r.
  assert (Hcalls : ∀ i name ok, trace r !! i = Some (Remove name ok) →
     match os_Remove (remaining (take i (trace r)) entries) name with
     | inl _ => ok = true
     | inr err => ok = false ∧ trace r !! S i = Some (LogPrintln err)
     end) by apply deleteFiles_calls.
  assert (Hfinal : final r = Directory (remaining (trace r) entries))
    by apply deleteFiles_final.
  unfold r in *. clear r. revert Hcalls Hfinal. unfold deleteFiles.
  destruct (removeLoop_spec files entries false) as (t & e & b & -> & Hnames & Hlog & Hb).
  destruct b; simpl; intros Hcalls Hfinal.
  - destruct Hb as [Hb _]. destruct (Hb eq_refl) as [? | Hfail]; [done |].
    split_and!; [done | done | done | done | | done | done | done].
    intros Hnone. destruct Hfail as [name Hname]. by destruct (Hnone name).
  - assert (Hnone : ¬ ∃ name, failed name t).
    { intros Hfail. destruct Hb as [_ Hb]. by discriminate Hb; right. }
    assert (Heq : removals (t ++ [Println "Finished deleting above files"]) = removals t).
    { unfold removals. rewrite omap_app. simpl. by rewrite app_nil_r. }
    unfold failed in *. rewrite Heq. split_and!.
    + done.
    + intros i name Hi.
      apply lookup_app_Some in Hi as [Hi | [_ Hi]].
      * destruct (Hlog i name Hi) as [err Herr]. exists err.
        by apply lookup_app_l_Some.
      * destruct (i - length t)%nat as [|[|?]]; simplify_eq/=.
    + split; [done | intros ?; by destruct Hnone].
    + split; [done | intros ?; by destruct Hnone].
    + intros _. split; [done |]. by rewrite last_snoc.
    + done.
    + done.
    + intros _ fi en Hfi Hen. eapply remaining_name; [exact Hen |].
      rewrite Heq.
      assert (Hname : Name fi ∈ (removals t).*1).
      { rewrite Hnames. by apply list_elem_of_fmap_2. }
      apply list_elem_of_fmap in Hname as ([name ok] & Hn & Hin). simpl in Hn. subst name.
      destruct ok; [done |]. destruct Hnone. by exists (Name fi).
Qed.

(** On a directory where [a.log] cannot be removed: the failed call is
    recorded and logged, [b.log] is removed all the same, the run
    returns the error and [a.log] stays. *)
Lemma C6_deleteFiles_witness :
  let r := deleteFiles (Some <$> [Examples.a_log; Examples.b_log])
             (entriesOf Examples.lockedDir) in
  trace r = [Remove "a.log" false; LogPrintln "permission denied"; Remove "b.log" true] ∧
  result r = Error "Failed to delete some files" ∧
  final r = Directory [mkDirEntry "a.log" false (Some (20, 10)) (Some "permission denied")].
Proof.
  pose proof (C6_deleteFiles [Examples.a_log; Examples.b_log]
                (entriesOf Examples.lockedDir)) as (_ & _ & Herr & _ & _ & _ & Hfinal & _).
  split_and!.
  - reflexivity.
  - apply Herr. exists "a.log". vm_compute. apply list_elem_of_here.
  - rewrite Hfinal. reflexivity.
Defined.

(** ** The run as a whole *)

Section Flow.
Context `{Lib}.



(** [Action] either ends early or prints the selection and goes on with
    lines 100-161. *)
Lemma Action_cases (ctx : Flags) (w : World) :
  ended_early (Action ctx w) (target w) ∨
  ∃ sel, Action ctx w = after (printResult sel) (confirmAndDelete ctx w sel).
Proof.
  unfold Action, ended_early.
  destruct (regexp_Compile (pattern ctx)) as [re | err]; [| left; simpl; auto].
  destruct (listByTime (target w)) as [arrFileInfo | msg |]; [| left; simpl; auto ..].
  destruct (decide _); [left; simpl; split_and!; [by repeat constructor | done | eauto] |].
  destruct (selectByNumber _ _) as [sel | |].
  - right. by exists sel.
  - left. simpl. split_and!; [by repeat constructor | done | eauto].
  - left. simpl. auto.
Qed.

Lemma ended_early_no_prompt (r : Run) (dir : PathState) (e : event) :
  ended_early r dir → e ∈ trace r → is_output e.
Proof. intros (Hout & _) He. by eapply Forall_forall in Hout. Qed.

Lemma confirmAndDelete_dry_run ctx w sel :
  dry_run ctx = true → confirmAndDelete ctx w sel = mkRun (Ok ()) [] (target w).
Proof. intros Hdry. unfold confirmAndDelete. by rewrite Hdry. Qed.

(** Without [--yes], an answer that is still "No" after the prompt ends
    the run. *)
Lemma confirmAndDelete_no ctx w sel :
  dry_run ctx = false → yes ctx = false →
  default "No" (answerSelect w) = "No" →
  confirmAndDelete ctx w sel
    = mkRun (Ok ()) [AskSelect promptOptions; Println "Aborted"] (target w).
Proof.
  intros Hdry Hyes Hans. unfold confirmAndDelete, confirmation.
  rewrite Hdry, Hyes, Hans. done.
Qed.

(** "Pick" with nothing checked, or with a second prompt that failed. *)
Lemma confirmAndDelete_pick_nothing ctx w sel :
  dry_run ctx = false → yes ctx = false →
  answerSelect w = Some "Pick" → default [] (answerMulti w) = [] →
  confirmAndDelete ctx w sel
    = mkRun (Ok ())
        [AskSelect promptOptions; AskMultiSelect (Name <$> sel); Println "Aborted"]
        (target w).
Proof.
  intros Hdry Hyes Hans Hmulti. unfold confirmAndDelete, confirmation.
  rewrite Hdry, Hyes, Hans, Hmulti. done.
Qed.

(** With [--yes] the whole selection goes to the deleter, unasked. *)
Lemma confirmAndDelete_yes ctx w sel :
  dry_run ctx = false → yes ctx = true →
  confirmAndDelete ctx w sel = deleteFiles (Some <$> sel) (entriesOf (target w)).
Proof.
  intros Hdry Hyes. unfold confirmAndDelete, confirmation, after.
  rewrite Hdry, Hyes. simpl. by destruct (deleteFiles _ _).
Qed.

Lemma effects_app t1 t2 : effects (t1 ++ t2) = effects t1 ++ effects t2.
Proof. apply filter_app. Qed.

Lemma removals_outputs t : Forall is_output t → removals t = [].
Proof.
  induction 1 as [|e t He _ IH]; [done |]. by destruct e.
Qed.

Lemma removals_printResult sel : removals (printResult sel) = [].
Proof. apply removals_outputs, printResult_no_effect. Qed.

End Flow.

(** C5.  With the dry-run flag, whatever else is given: the run shows
    output only, so no prompt is shown and [os.Remove] is never called;
    the directory is afterwards what it was; and when a selection was
    presented the run ends there, without error. *)
Theorem C5_dry_run `{Lib} (ctx : Flags) (w : World) :
  dry_run ctx = true →
  let r := Action ctx w in
  Forall is_output (trace r) ∧
  Forall (λ e, ¬ is_prompt e ∧ ¬ is_removal e) (trace r) ∧
  removals (trace r) = [] ∧
  final r = target w ∧
  (ended_early r (target w) ∨
   ∃ sel, r = mkRun (Ok ()) (printResult sel) (target w)).
Proof.
  intros Hdry r.
  assert (Hcases : ended_early r (target w) ∨
                   ∃ sel, r = mkRun (Ok ()) (printResult sel) (target w)).
  { destruct (Action_cases ctx w) as [Hearly | [sel Hsel]]; [by left | right].
    exists sel. subst r. rewrite Hsel, confirmAndDelete_dry_run by done.
    unfold after. simpl. by rewrite app_nil_r. }
  assert (Hout : Forall is_output (trace r)).
  { destruct Hcases as [(Hout & _) | [sel ->]]; [done |]. apply printResult_no_effect. }
  split_and!; [done | | by apply removals_outputs | | done].
  - eapply Forall_impl; [exact Hout |]. intros e He. destruct e; simpl in *; tauto.
  - destruct Hcases as [(_ & Hfinal & _) | [sel ->]]; done.
Qed.

Lemma C5_dry_run_witness :
  Action (Examples.flags 2 true false) (Examples.world (Some "Yes") None)
    = mkRun (Ok ())
        [ TableRender tableHeader [ ["a.log"; "20 B"; "10"]; ["b.log"; "30 B"; "20"] ];
          Println "Total: 2 file(s), 50 B" ]
        Examples.logsDir
  ∧ removals (trace (Action (Examples.flags 2 true false)
                       (Examples.world (Some "Yes") None))) = [].
Proof.
  split; [reflexivity |].
  refine (proj1 (proj2 (proj2
    (C5_dry_run (Examples.flags 2 true false) (Examples.world (Some "Yes") None) _)))).
  reflexivity.
Defined.

Section Answers.
Context `{Lib}.

(** What precedes the prompts does not depend on the answers. *)
Lemma Action_two_worlds ctx args0 dir select1 multi1 select2 multi2 :
  let w1 := mkWorld args0 dir select1 multi1 in
  let w2 := mkWorld args0 dir select2 multi2 in
  (ended_early (Action ctx w1) dir ∧ Action ctx w1 = Action ctx w2) ∨
  ∃ sel, Action ctx w1 = after (printResult sel) (confirmAndDelete ctx w1 sel) ∧
         Action ctx w2 = after (printResult sel) (confirmAndDelete ctx w2 sel).
Proof.
  unfold Action, ended_early. simpl.
  destruct (regexp_Compile (pattern ctx)) as [re | err]; [| left; simpl; auto].
  destruct (listByTime dir) as [arrFileInfo | msg |]; [| left; simpl; auto ..].
  destruct (decide _);
    [left; simpl; split_and!; [by repeat constructor | done | eauto | done] |].
  destruct (selectByNumber _ _) as [sel | |].
  - right. by exists sel.
  - left. simpl. split_and!; [by repeat constructor | done | eauto | done].
  - left. simpl. auto.
Qed.

Lemma removeLoop_no_prompt (arrMatch : list (option FileInfo)) : ∀ entries hasErr,
  Forall (λ e, ¬ is_prompt e) (removeLoop arrMatch entries hasErr).1.2.
Proof.
  induction arrMatch as [|[fi|] rest IH]; intros entries hasErr; cbn [removeLoop].
  - constructor.
  - destruct (os_Remove entries (Name fi)) as [entries' | err].
    + specialize (IH entries' hasErr). destruct (removeLoop rest entries' hasErr) as [[r t] e].
      simpl in *. constructor; [tauto | done].
    + specialize (IH entries true). destruct (removeLoop rest entries true) as [[r t] e].
      simpl in *. repeat constructor; [tauto | tauto | done].
  - constructor.
Qed.

Lemma deleteFiles_no_prompt arrMatch entries :
  Forall (λ e, ¬ is_prompt e) (trace (deleteFiles arrMatch entries)).
Proof.
  unfold deleteFiles. pose proof (removeLoop_no_prompt arrMatch entries false) as Hloop.
  destruct (removeLoop arrMatch entries false) as [[[[|]|msg|] t] e]; simpl in *;
    try done.
  apply Forall_app. split; [done |]. repeat constructor. tauto.
Qed.

Lemma printResult_no_prompt sel e : e ∈ printResult sel → ¬ is_prompt e.
Proof.
  intros He Hprompt. pose proof (printResult_no_effect sel) as Hout.
  eapply Forall_forall in Hout; [| exact He]. by destruct e.
Qed.

(** A run in which the first prompt was shown had neither [--dry-run]
    nor [--yes], and had printed a selection. *)
Lemma prompt_reached ctx w :
  AskSelect promptOptions ∈ trace (Action ctx w) →
  dry_run ctx = false ∧ yes ctx = false ∧
  ∃ sel, Action ctx w = after (printResult sel) (confirmAndDelete ctx w sel).
Proof.
  intros Hask. destruct (Action_cases ctx w) as [Hearly | [sel Hsel]].
  { by apply (ended_early_no_prompt _ _ _ Hearly) in Hask. }
  rewrite Hsel in Hask. simpl in Hask.
  apply elem_of_app in Hask as [Hask | Hask].
  { by apply printResult_no_prompt in Hask. }
  destruct (dry_run ctx) eqn:Hdry.
  { rewrite confirmAndDelete_dry_run in Hask by done. by apply elem_of_nil in Hask. }
  destruct (yes ctx) eqn:Hyes.
  { rewrite confirmAndDelete_yes in Hask by done.
    pose proof (deleteFiles_no_prompt (Some <$> sel) (entriesOf (target w))) as Hnone.
    eapply Forall_forall in Hnone; [| exact Hask]. by destruct Hnone. }
  eauto.
Qed.

End Answers.

(** C7.  "Pick" with no item checked and "No" give runs that differ in
    nothing but the second prompt being shown: same result, same
    directory afterwards, same output, log and removals.  When the
    prompt is reached, that run prints "Aborted", returns no error and
    removes nothing. *)
Theorem C7_pick_nothing_is_no `{Lib} (ctx : Flags) (args0 : string)
    (dir : PathState) (multi : option (list string)) :
  let rPick := Action ctx (mkWorld args0 dir (Some "Pick") (Some [])) in
  let rNo := Action ctx (mkWorld args0 dir (Some "No") multi) in
  result rPick = result rNo ∧
  final rPick = final rNo ∧
  effects (trace rPick) = effects (trace rNo) ∧
  (AskSelect promptOptions ∈ trace rPick →
   result rPick = Ok () ∧ exitCode (result rPick) = 0 ∧
   removals (trace rPick) = [] ∧ final rPick = dir ∧
   last (trace rPick) = Some (Println "Aborted")).
Proof.
  intros rPick rNo. subst rPick rNo.
  destruct (Action_two_worlds ctx args0 dir (Some "Pick") (Some []) (Some "No") multi)
    as [[Hearly Heq] | (sel & HPick & HNo)].
  { rewrite <- Heq. split_and!; [done | done | done |].
    intros Hask. by apply (ended_early_no_prompt _ _ _ Hearly) in Hask. }
  destruct (dry_run ctx) eqn:Hdry.
  { rewrite HPick, HNo, !confirmAndDelete_dry_run by done.
    split_and!; [done | done | done |]. simpl. rewrite app_nil_r.
    intros Hask. by apply printResult_no_prompt in Hask. }
  destruct (yes ctx) eqn:Hyes.
  { split_and!; [by rewrite HPick, HNo, !confirmAndDelete_yes by done ..|].
    intros (_ & Hyes' & _)%prompt_reached. congruence. }
  rewrite HPick, HNo.
  rewrite confirmAndDelete_pick_nothing, confirmAndDelete_no by done.
  simpl. split_and!; [done | done | | ].
  - rewrite !effects_app. done.
  - intros _. split_and!; [done | done | | done |].
    + rewrite removals_app, removals_printResult. done.
    + by rewrite last_app.
Qed.

Lemma C7_pick_nothing_is_no_witness :
  result (Action (Examples.flags 0 false false) (Examples.world (Some "Pick") (Some [])))
    = Ok ()
  ∧ removals (trace (Action (Examples.flags 0 false false)
                       (Examples.world (Some "Pick") (Some [])))) = [].
Proof.
  destruct (C7_pick_nothing_is_no (Examples.flags 0 false false) "./delete-old-files"
              Examples.logsDir None) as (_ & _ & _ & Hreached).
  destruct Hreached as (Hres & _ & Hrem & _).
  - vm_compute. do 2 apply list_elem_of_further. apply list_elem_of_here.
  - split; [exact Hres | exact Hrem].
Defined.

(** C10.  A first prompt that fails leaves [ans] at "No": the run is the
    one in which the user answers "No".  When the prompt is reached and
    fails, the run prints "Aborted", returns no error (exit zero) and
    removes nothing. *)
Theorem C10_prompt_failure_aborts `{Lib} (ctx : Flags) (args0 : string)
    (dir : PathState) (multi : option (list string)) :
  let r := Action ctx (mkWorld args0 dir None multi) in
  r = Action ctx (mkWorld args0 dir (Some "No") multi) ∧
  (AskSelect promptOptions ∈ trace r →
   result r = Ok () ∧ exitCode (result r) = 0 ∧
   removals (trace r) = [] ∧ final r = dir ∧
   last (trace r) = Some (Println "Aborted")).
Proof.
  intros r. subst r. split.
  - destruct (Action_two_worlds ctx args0 dir None multi (Some "No") multi)
      as [[_ Heq] | (sel & HNone & HNo)]; [done |].
    rewrite HNone, HNo. reflexivity.
  - intros Hask. destruct (prompt_reached _ _ Hask) as (Hdry & Hyes & sel & ->).
    rewrite confirmAndDelete_no by done. simpl.
    split_and!; [done | done | | done |].
    + rewrite removals_app, removals_printResult. done.
    + by rewrite last_app.
Qed.

Lemma C10_prompt_failure_aborts_witness :
  result (Action (Examples.flags 0 false false) (Examples.world None None)) = Ok ()
  ∧ final (Action (Examples.flags 0 false false) (Examples.world None None))
    = Examples.logsDir.
Proof.
  destruct (C10_prompt_failure_aborts (Examples.flags 0 false false)
              "./delete-old-files" Examples.logsDir None) as (_ & Hreached).
  destruct Hreached as (Hres & _ & _ & Hfinal & _).
  - vm_compute. do 2 apply list_elem_of_further. apply list_elem_of_here.
  - split; [exact Hres | exact Hfinal].
Defined.

(** ** The scenarios, run on the sample libraries *)

Section Scenarios.
Import Examples.

Example Base_relative : Path.Base "./delete-old-files" = "delete-old-files".
Proof. reflexivity. Qed.

Example Base_trailing_slash : Path.Base "/usr/local/bin/dof/" = "dof".
Proof. reflexivity. Qed.

Example Base_only_slashes : Path.Base "//" = "/".
Proof. reflexivity. Qed.

Example Base_empty : Path.Base "" = ".".
Proof. reflexivity. Qed.

Example listing_oldest_first : listByTime logsDir = Ok sorted3.
Proof. reflexivity. Qed.

(** [n = 2] with [--yes]: [a.log] and [b.log] go, [c.log] stays. *)
Example scenario_two_oldest :
  let r := Action (flags 2 false true) (world None None) in
  result r = Ok () ∧
  removals (trace r) = [("a.log", true); ("b.log", true)] ∧
  de_name <$> entriesOf (final r) = ["c.log"; "sub"].
Proof. by vm_compute. Qed.

(** [n = -1] with [--yes]: all but the newest. *)
Example scenario_keep_newest :
  let r := Action (flags (-1) false true) (world None None) in
  result r = Ok () ∧
  removals (trace r) = [("a.log", true); ("b.log", true)] ∧
  de_name <$> entriesOf (final r) = ["c.log"; "sub"].
Proof. by vm_compute. Qed.

(** [n = -5] with three matches: nothing goes. *)
Example scenario_all_kept :
  Action (flags (-5) false true) (world None None)
  = mkRun (Ok ())
      [Println "All matching files will be kept due to given number flag"] logsDir.
Proof. reflexivity. Qed.

(** The boundary [len = -n]. *)
Example scenario_boundary :
  selectByNumber (-3) sorted3 = AllKept ∧
  selectByNumber (-2) sorted3 = Selected [a_log] ∧
  selectByNumber 3 sorted3 = Selected sorted3 ∧
  selectByNumber 4 sorted3 = Selected sorted3.
Proof. by vm_compute. Qed.

(** A file that cannot be removed does not stop the others. *)
Example scenario_partial_failure :
  let dir := Directory [ mkDirEntry "a.log" false (Some (1, 1)) (Some "permission denied");
                         mkDirEntry "b.log" false (Some (1, 2)) None ] in
  Action (flags 0 false true) (mkWorld "dof" dir None None)
  = mkRun (Error "Failed to delete some files")
      [ TableRender tableHeader [ ["a.log"; "1 B"; "1"]; ["b.log"; "1 B"; "2"] ];
        Println "Total: 2 file(s), 2 B";
        Remove "a.log" false; LogPrintln "permission denied";
        Remove "b.log" true ]
      (Directory [ mkDirEntry "a.log" false (Some (1, 1)) (Some "permission denied") ]).
Proof. reflexivity. Qed.

(** "Pick" with one file checked removes that file only. *)
Example scenario_pick_one :
  removals (trace (Action (flags 0 false false) (world (Some "Pick") (Some ["b.log"]))))
  = [("b.log", true)].
Proof. by vm_compute. Qed.

(** Up to twelve files [sort.Sort] is an insertion sort, and ties keep
    the order of the directory read. *)
Example scenario_sort_short :
  Name <$> Sort.sortChecked [tied "t0"; tied "t1"; mkFileInfo "old" 1 1; tied "t2"]
  = ["old"; "t0"; "t1"; "t2"].
Proof. reflexivity. Qed.

(** A partition that leaves less than an eighth of the range on one
    side sends [pdqsort] to [breakPatterns], where the model stops:
    sixteen files of which only the last is older than the others. *)
Example scenario_sort_unmodelled :
  Sort.Sort (((λ k, tied (pretty k)) <$> seq 0 15) ++ [mkFileInfo "old" 1 1]) = None.
Proof. by vm_compute. Qed.

(** The errors of [regexp.Compile], as the run reports them. *)
Example scenario_compile_errors :
  Sample.Compile "a**"
    = inr "error parsing regexp: invalid nested repetition operator: `**`" ∧
  Sample.Compile "+"
    = inr "error parsing regexp: missing argument to repetition operator: `+`" ∧
  Sample.Compile "log\"
    = inr "error parsing regexp: trailing backslash at end of expression: ``" ∧
  result (Action (mkFlags "a**" 0 "." false true) (world None None))
    = Error ("failed to compile pattern: error parsing regexp: "
             +:+ "invalid nested repetition operator: `**`").
Proof. by vm_compute. Qed.

(** A pattern without metacharacters compiles to its runes one after
    the other. *)
Example scenario_compile_literal : Sample.Compile "log" = inl (Regexp.literal "log").
Proof. reflexivity. Qed.

(** An anchored pattern: [^a] takes [a.log] alone. *)
Example scenario_anchored :
  let r := Action (mkFlags "^a" 0 "." false true) (world None None) in
  removals (trace r) = [("a.log", true)].
Proof. by vm_compute. Qed.

End Scenarios.

(** * Further properties of the code *)

(** ** The methods of [sortByModtime], lines 242-252 *)

Section Methods.
Import Sort.

(** [Swap] panics exactly when an index is outside the slice. *)
Lemma Swap_None (s : list FileInfo) (i j : nat) :
  sortByModtime_Swap s i j = None ↔ (length s ≤ i ∨ length s ≤ j)%nat.
Proof.
  unfold sortByModtime_Swap. split.
  - destruct (s !! i) as [a|] eqn:Hi; simpl.
    + destruct (s !! j) as [b|] eqn:Hj; simpl; [done |].
      intros _. right. by apply lookup_ge_None.
    + intros _. left. by apply lookup_ge_None.
  - intros [Hi%lookup_ge_None | Hj%lookup_ge_None].
    + by rewrite Hi.
    + rewrite Hj. by destruct (s !! i).
Qed.

End Methods.

(** X1.  Inside the slice, [Swap(i, j)] exchanges the elements at [i] and
    [j] and leaves the length, every other position and the collection of
    elements as they were; swapping again restores the slice.  With an
    index outside the slice it panics. *)
Theorem Swap_exchanges (s : list FileInfo) (i j : nat) (a b : FileInfo) :
  s !! i = Some a → s !! j = Some b →
  ∃ s', Sort.sortByModtime_Swap s i j = Some s' ∧
        length s' = length s ∧
        s' !! i = Some b ∧ s' !! j = Some a ∧
        (∀ k, k ≠ i → k ≠ j → s' !! k = s !! k) ∧
        s' ≡ₚ s ∧
        Sort.sortByModtime_Swap s' i j = Some s ∧
        (∀ k, (length s ≤ k)%nat →
              Sort.sortByModtime_Swap s i k = None ∧
              Sort.sortByModtime_Swap s k j = None).
Proof.
  intros Hi Hj.
  assert (Hilt : (i < length s)%nat) by (by eapply lookup_lt_Some).
  assert (Hjlt : (j < length s)%nat) by (by eapply lookup_lt_Some).
  destruct (SortFacts.Swap_perm s i j Hilt Hjlt) as (s' & Hswap & Hperm).
  exists s'. split; [done |].
  unfold Sort.sortByModtime_Swap in Hswap. rewrite Hi, Hj in Hswap.
  simpl in Hswap. injection Hswap as <-.
  assert (Hi' : <[j:=a]> (<[i:=b]> s) !! i = Some b).
  { destruct (decide (i = j)) as [-> | Hne].
    - rewrite list_lookup_insert_eq by (by rewrite length_insert). congruence.
    - rewrite list_lookup_insert_ne by done. by rewrite list_lookup_insert_eq. }
  assert (Hj' : <[j:=a]> (<[i:=b]> s) !! j = Some a).
  { by rewrite list_lookup_insert_eq by (by rewrite length_insert). }
  split_and!.
  - by rewrite !length_insert.
  - done.
  - done.
  - intros k Hki Hkj. by rewrite !list_lookup_insert_ne by done.
  - done.
  - unfold Sort.sortByModtime_Swap. rewrite Hi', Hj'. simpl. f_equal.
    apply list_eq. intros k.
    destruct (decide (k = j)) as [-> | Hkj].
    + rewrite list_lookup_insert_eq by (by rewrite !length_insert). done.
    + rewrite list_lookup_insert_ne by done.
      destruct (decide (k = i)) as [-> | Hki].
      * rewrite list_lookup_insert_eq by (by rewrite !length_insert). done.
      * by rewrite !list_lookup_insert_ne by done.
  - intros k Hk. split; apply Swap_None; auto.
Qed.

Lemma Swap_exchanges_witness :
  ∃ s', Sort.sortByModtime_Swap Examples.sorted3 0 2 = Some s' ∧
        s' !! 0%nat = Some Examples.c_log ∧ s' !! 2%nat = Some Examples.a_log.
Proof.
  destruct (Swap_exchanges Examples.sorted3 0 2 Examples.a_log Examples.c_log)
    as (s' & Hswap & _ & H0 & H2 & _); [reflexivity | reflexivity |].
  exists s'. done.
Defined.

(** X2.  On indices inside the slice [Less] is a strict weak order: it
    never holds of an index and itself, never both ways, it is
    transitive, and so is "neither is less".  With an index outside the
    slice it panics. *)
Theorem Less_strict_weak_order (s : list FileInfo) (i j k : nat) :
  (i < length s)%nat → (j < length s)%nat → (k < length s)%nat →
  Sort.sortByModtime_Less s i i = Some false ∧
  (Sort.sortByModtime_Less s i j = Some true →
   Sort.sortByModtime_Less s j i = Some false) ∧
  (Sort.sortByModtime_Less s i j = Some true →
   Sort.sortByModtime_Less s j k = Some true →
   Sort.sortByModtime_Less s i k = Some true) ∧
  (Sort.sortByModtime_Less s i j = Some false →
   Sort.sortByModtime_Less s j k = Some false →
   Sort.sortByModtime_Less s i k = Some false) ∧
  (∀ m, (length s ≤ m)%nat →
        Sort.sortByModtime_Less s i m = None ∧ Sort.sortByModtime_Less s m i = None).
Proof.
  intros [a Ha]%lookup_lt_is_Some [b Hb]%lookup_lt_is_Some [c Hc]%lookup_lt_is_Some.
  unfold Sort.sortByModtime_Less, Before. rewrite Ha, Hb, Hc. simpl.
  split_and!.
  - f_equal. apply bool_decide_eq_false. lia.
  - intros [= Hab%bool_decide_eq_true]. f_equal. apply bool_decide_eq_false. lia.
  - intros [= Hab%bool_decide_eq_true] [= Hbc%bool_decide_eq_true].
    f_equal. apply bool_decide_eq_true. lia.
  - intros [= Hab%bool_decide_eq_false] [= Hbc%bool_decide_eq_false].
    f_equal. apply bool_decide_eq_false. lia.
  - intros m Hm%lookup_ge_None. rewrite Hm. done.
Qed.

Lemma Less_strict_weak_order_witness :
  Sort.sortByModtime_Less Examples.sorted3 0 2 = Some true ∧
  Sort.sortByModtime_Less Examples.sorted3 2 0 = Some false.
Proof.
  destruct (Less_strict_weak_order Examples.sorted3 0 2 1) as (_ & Hasym & _);
    [simpl; lia ..|].
  split; [reflexivity |]. apply Hasym. reflexivity.
Defined.

(** ** The count policy, lines 84-96 *)

Section CountPolicyMore.

Lemma selectByNumber_take (n : Z) (l sel : list FileInfo) :
  selectByNumber n l = Selected sel → ∃ k, sel = take k l.
Proof.
  assert (Hall : ∃ k, l = take k l) by (exists (length l); by rewrite firstn_all).
  unfold selectByNumber, slice_to. intros Hsel.
  repeat case_decide; simplify_eq; eauto.
Qed.

Lemma in_int_bounds (z : Z) :
  GoInt.in_int z ↔ - 2 ^ 63 <= z <= 2 ^ 63 - 1.
Proof. unfold GoInt.in_int, GoInt.min_int, GoInt.max_int, GoInt.int_bits. lia. Qed.

(** A [number] that is not negative never makes the policy panic or keep
    everything. *)
Lemma selectByNumber_nonneg (l : list FileInfo) (n : Z) :
  0 <= n → ∃ sel, selectByNumber n l = Selected sel.
Proof.
  intros Hn. unfold selectByNumber, slice_to.
  repeat case_decide; eauto; lia.
Qed.

End CountPolicyMore.

(** X3.  A negative [number] above the least [int] keeps the [-number]
    newest matches: with more than [-number] matches the policy selects
    all the others, a non-empty prefix, and each selected match is at
    most as new as each match kept; with [-number] matches or fewer it
    selects nothing and reports that all are kept. *)
Theorem selectByNumber_keeps_newest (arrMatch : list FileInfo) (n : Z) :
  GoInt.in_int (Z.of_nat (length arrMatch)) →
  GoInt.min_int < n → n < 0 →
  (Z.of_nat (length arrMatch) <= - n → selectByNumber n arrMatch = AllKept) ∧
  (- n < Z.of_nat (length arrMatch) →
   ∃ sel, selectByNumber n arrMatch = Selected sel ∧
          sel ≠ [] ∧
          sel ++ drop (length sel) arrMatch = arrMatch ∧
          Z.of_nat (length (drop (length sel) arrMatch)) = - n ∧
          (oldest_first arrMatch →
           ∀ a b, a ∈ sel → b ∈ drop (length sel) arrMatch → not_after a b)).
Proof.
  intros Hin Hmin Hneg. rewrite selectByNumber_negative by done. split.
  - intros Hlen. by rewrite decide_False by lia.
  - intros Hlen. rewrite decide_True by lia.
    set (k := (length arrMatch - Z.to_nat (- n))%nat).
    assert (Hk : (0 < k < length arrMatch)%nat) by (unfold k; lia).
    assert (Hlk : length (take k arrMatch) = k) by (rewrite length_take; lia).
    exists (take k arrMatch). rewrite Hlk. split_and!.
    + done.
    + intros Hnil. rewrite Hnil in Hlk. simpl in Hlk. lia.
    + apply take_drop.
    + rewrite length_drop. unfold k. lia.
    + intros Hsorted a b Ha Hb. by eapply oldest_first_take_drop.
Qed.

Lemma selectByNumber_keeps_newest_witness :
  (∃ sel, selectByNumber (-1) Examples.sorted3 = Selected sel ∧
          Z.of_nat (length (drop (length sel) Examples.sorted3)) = 1) ∧
  selectByNumber (-3) Examples.sorted3 = AllKept.
Proof.
  destruct (selectByNumber_keeps_newest Examples.sorted3 (-1)) as [_ Hsel];
    [by vm_compute | by vm_compute | lia |].
  destruct (selectByNumber_keeps_newest Examples.sorted3 (-3)) as [Hkept _];
    [by vm_compute | by vm_compute | lia |].
  split; [| apply Hkept; simpl; lia].
  destruct Hsel as (sel & Hsel & _ & _ & Hlen & _); [simpl; lia |].
  exists sel. split; [exact Hsel | exact Hlen].
Defined.

Lemma selectByNumber_panic_iff (arrMatch : list FileInfo) (n : Z) :
  GoInt.in_int n →
  GoInt.in_int (Z.of_nat (length arrMatch)) →
  selectByNumber n arrMatch = SlicePanic ↔ n = GoInt.min_int.
Proof.
  intros Hn Hlen. split.
  - intros Hpanic. destruct (decide (n = GoInt.min_int)) as [| Hne]; [done |].
    exfalso. destruct (Z.lt_trichotomy n 0) as [Hneg | [-> | Hpos]].
    + rewrite selectByNumber_negative in Hpanic; [| done | | done].
      * by case_decide.
      * unfold GoInt.in_int in Hn. lia.
    + by vm_compute in Hpanic.
    + destruct (selectByNumber_nonneg arrMatch n) as (sel & Hsel); [lia |]. congruence.
  - intros ->. by apply selectByNumber_min_int.
Qed.

(** X4.  For a [number] and a length that fit an [int], the slice
    expression of the count policy panics for one value of [number]
    only, the least [int]; for every other value the policy selects a
    prefix of the matches or keeps them all. *)
Theorem selectByNumber_panics_once (arrMatch : list FileInfo) (n : Z) :
  GoInt.in_int n →
  GoInt.in_int (Z.of_nat (length arrMatch)) →
  (selectByNumber n arrMatch = SlicePanic ↔ n = GoInt.min_int) ∧
  (n ≠ GoInt.min_int →
   selectByNumber n arrMatch = AllKept ∨
   ∃ sel, selectByNumber n arrMatch = Selected sel ∧ sel `prefix_of` arrMatch).
Proof.
  intros Hn Hlen. split; [by apply selectByNumber_panic_iff |].
  intros Hne. destruct (selectByNumber n arrMatch) as [sel | |] eqn:Hsel.
  - right. exists sel. split; [done |].
    apply selectByNumber_take in Hsel as [k ->]. apply prefix_take.
  - by left.
  - by apply selectByNumber_panic_iff in Hsel.
Qed.

Lemma selectByNumber_panics_once_witness :
  selectByNumber (-2) Examples.sorted3 ≠ SlicePanic.
Proof.
  intros Hpanic.
  apply (proj1 (selectByNumber_panics_once Examples.sorted3 (-2)
                  ltac:(by vm_compute) ltac:(by vm_compute))) in Hpanic.
  discriminate Hpanic.
Defined.

(** ** The map of the "Pick" branch, lines 119-124 *)

Section MapSel.

Lemma buildMapSel_snoc (l : list FileInfo) (fi : FileInfo) :
  buildMapSel (l ++ [fi]) = <[Name fi := fi]> (buildMapSel l).
Proof. unfold buildMapSel. by rewrite foldl_app. Qed.

Lemma buildMapSel_last (l : list FileInfo) (k : string) :
  buildMapSel l !! k = last (filter (λ fi, Name fi = k) l).
Proof.
  induction l as [|fi l IH] using rev_ind; [done |].
  rewrite buildMapSel_snoc, filter_app.
  destruct (decide (Name fi = k)) as [<- | Hne].
  - rewrite lookup_insert_eq. rewrite filter_cons_True by done.
    by rewrite filter_nil, last_snoc.
  - rewrite lookup_insert_ne by done. rewrite filter_cons_False by done.
    by rewrite filter_nil, app_nil_r.
Qed.

Lemma buildMapSel_Some (l : list FileInfo) (k : string) (fi : FileInfo) :
  buildMapSel l !! k = Some fi → fi ∈ l ∧ Name fi = k.
Proof.
  rewrite buildMapSel_last. intros (l' & Hl')%last_Some.
  assert (Hin : fi ∈ filter (λ fi, Name fi = k) l).
  { rewrite Hl'. apply elem_of_app. right. by apply list_elem_of_singleton. }
  apply list_elem_of_filter in Hin as [Hname Hin]. done.
Qed.

Lemma buildMapSel_None (l : list FileInfo) (k : string) :
  buildMapSel l !! k = None ↔ k ∉ Name <$> l.
Proof.
  rewrite buildMapSel_last, last_None. split.
  - intros Hnil (fi & -> & Hin)%list_elem_of_fmap.
    assert (Hfi : fi ∈ filter (λ fi', Name fi' = Name fi) l)
      by (by apply list_elem_of_filter).
    rewrite Hnil in Hfi. by apply elem_of_nil in Hfi.
  - intros Hnot. destruct (filter _ l) as [|fi l'] eqn:Hfilter; [done |].
    assert (Hfi : fi ∈ filter (λ fi', Name fi' = k) l)
      by (rewrite Hfilter; apply list_elem_of_here).
    apply list_elem_of_filter in Hfi as [<- Hin].
    destruct Hnot. by apply list_elem_of_fmap_2.
Qed.

Lemma NoDup_Name_inj (l : list FileInfo) (a b : FileInfo) :
  NoDup (Name <$> l) → a ∈ l → b ∈ l → Name a = Name b → a = b.
Proof.
  induction l as [|c l IH]; [by intros _ ?%elem_of_nil |].
  rewrite fmap_cons, NoDup_cons. intros [Hc Hnodup].
  intros [-> | Ha]%elem_of_cons [-> | Hb]%elem_of_cons Heq; [done | | | by apply IH].
  - destruct Hc. rewrite Heq. by apply list_elem_of_fmap_2.
  - destruct Hc. rewrite <- Heq. by apply list_elem_of_fmap_2.
Qed.

Lemma buildMapSel_NoDup (l : list FileInfo) (fi : FileInfo) :
  NoDup (Name <$> l) → fi ∈ l → buildMapSel l !! Name fi = Some fi.
Proof.
  intros Hnodup Hin.
  destruct (buildMapSel l !! Name fi) as [fi'|] eqn:Hlookup.
  - apply buildMapSel_Some in Hlookup as [Hin' Hname].
    f_equal. by eapply NoDup_Name_inj.
  - apply buildMapSel_None in Hlookup. destruct Hlookup.
    by apply list_elem_of_fmap_2.
Qed.

End MapSel.

(** X5.  [mapSel] maps a name to the last match that bears it: a name
    that no match bears is not a key, a value found under a name is a
    match of that name, and when the names are distinct every match is
    found under its own name. *)
Theorem buildMapSel_lookup (arrMatch : list FileInfo) (name : string) :
  buildMapSel arrMatch !! name = last (filter (λ fi, Name fi = name) arrMatch) ∧
  (buildMapSel arrMatch !! name = None ↔ name ∉ Name <$> arrMatch) ∧
  (∀ fi, buildMapSel arrMatch !! name = Some fi → fi ∈ arrMatch ∧ Name fi = name) ∧
  (NoDup (Name <$> arrMatch) →
   ∀ fi, fi ∈ arrMatch → buildMapSel arrMatch !! Name fi = Some fi).
Proof.
  split_and!.
  - apply buildMapSel_last.
  - apply buildMapSel_None.
  - intros fi. apply buildMapSel_Some.
  - intros Hnodup fi. by apply buildMapSel_NoDup.
Qed.

Lemma buildMapSel_lookup_witness :
  buildMapSel Examples.sorted3 !! "b.log" = Some Examples.b_log.
Proof.
  refine (proj2 (proj2 (proj2 (buildMapSel_lookup Examples.sorted3 "a.log")))
            _ Examples.b_log _).
  - apply (bool_decide_unpack _). by vm_compute.
  - apply list_elem_of_further, list_elem_of_here.
Defined.


(** ** The stages of a run together *)

Section Pipeline.
Context `{Lib}.

Lemma oldest_first_sublist (l1 l2 : list FileInfo) :
  l1 `sublist_of` l2 → oldest_first l2 → oldest_first l1.
Proof.
  unfold oldest_first. induction 1 as [|x l1 l2 Hsub IH|x l1 l2 Hsub IH].
  - done.
  - rewrite !StronglySorted_cons. intros [Hall Hsorted]. split; [| by apply IH].
    apply Forall_forall. intros y Hy. eapply Forall_forall in Hall; [done |].
    by eapply elem_of_sublist.
  - rewrite StronglySorted_cons. intros [_ Hsorted]. by apply IH.
Qed.

(** A run that gets as far as the table has compiled the pattern, read
    a directory, found matches and selected [sel] among them. *)
Lemma Action_pipeline (ctx : Flags) (w : World) :
  ended_early (Action ctx w) (target w) ∨
  ∃ re arrFiles sel,
    regexp_Compile (pattern ctx) = inl re ∧
    target w = Directory arrFiles ∧
    matchFiles re (Path.Base (Args0 w)) (sort_Sort (listByTime_collect arrFiles)) ≠ [] ∧
    selectByNumber (number ctx)
      (matchFiles re (Path.Base (Args0 w)) (sort_Sort (listByTime_collect arrFiles)))
      = Selected sel ∧
    Action ctx w = after (printResult sel) (confirmAndDelete ctx w sel).
Proof.
  unfold Action, ended_early.
  destruct (regexp_Compile (pattern ctx)) as [re | err]; [| left; simpl; auto].
  destruct (target w) as [err| | |err|arrFiles] eqn:Htarget; simpl;
    [left; simpl; auto ..|].
  destruct (decide _) as [Hnone | Hsome];
    [left; simpl; split_and!; [by repeat constructor | done | eauto] |].
  destruct (selectByNumber _ _) as [sel | |] eqn:Hsel.
  - right. exists re, arrFiles, sel. split_and!; try done.
    intros Hnil. by rewrite Hnil in Hsome.
  - left. simpl. split_and!; [by repeat constructor | done | eauto].
  - left. simpl. auto.
Qed.

(** What the listing holds. *)
Lemma elem_of_listing (arrFiles : list DirEntry) (fi : FileInfo) :
  fi ∈ sort_Sort (listByTime_collect arrFiles) ↔
  ∃ f, f ∈ arrFiles ∧ de_isDir f = false ∧ Info f = Some fi.
Proof.
  rewrite sort_Sort_perm, listByTime_collect_omap, list_elem_of_omap. split.
  - intros (f & [Hfile Hin]%list_elem_of_filter & Hinfo). eauto.
  - intros (f & Hin & Hfile & Hinfo). exists f. split; [| done].
    by apply list_elem_of_filter.
Qed.

(** Every selected record is a record of a matching entry that is not a
    directory and not the executable. *)
Lemma selected_is_match re self arrFiles n sel fi :
  selectByNumber n (matchFiles re self (sort_Sort (listByTime_collect arrFiles)))
    = Selected sel →
  fi ∈ sel →
  accepted re self fi ∧
  ∃ f, f ∈ arrFiles ∧ de_isDir f = false ∧ Info f = Some fi.
Proof.
  intros [k ->]%selectByNumber_take Hin.
  pose proof (elem_of_sublist _ _ _ Hin (sublist_take _ k)) as Hin'.
  rewrite matchFiles_filter in Hin'.
  apply list_elem_of_filter in Hin' as [Hacc Hlisted].
  split; [done |]. by apply elem_of_listing.
Qed.

Lemma elem_of_Some_fmap (l : list FileInfo) (fi : FileInfo) :
  Some fi ∈ Some <$> l → fi ∈ l.
Proof. by intros (fi' & [= ->] & Hin)%list_elem_of_fmap. Qed.

(** The confirmed set holds selected records only, or nil. *)
Lemma confirmation_subset (y : bool) (w : World) (sel : list FileInfo) fi :
  Some fi ∈ (confirmation y w sel).1.2 → fi ∈ sel.
Proof.
  unfold confirmation.
  destruct y; simpl; [apply elem_of_Some_fmap |].
  repeat case_decide; simpl; try apply elem_of_Some_fmap.
  all: intros (name & Hlookup & _)%list_elem_of_fmap.
  all: symmetry in Hlookup; by apply buildMapSel_Some in Hlookup as [? _].
Qed.

(** [os.Remove] is only called on the names of the confirmed records. *)
Lemma removeLoop_names (arr : list (option FileInfo)) : ∀ entries hasErr name ok,
  (name, ok) ∈ removals (removeLoop arr entries hasErr).1.2 →
  ∃ fi, Some fi ∈ arr ∧ Name fi = name.
Proof.
  induction arr as [|[fi|] rest IH]; intros entries hasErr name ok; cbn [removeLoop].
  - by intros ?%elem_of_nil.
  - destruct (os_Remove entries (Name fi)) as [entries' | err].
    + specialize (IH entries' hasErr name ok).
      destruct (removeLoop rest entries' hasErr) as [[r t] e]. cbn [fst snd] in *.
      rewrite removals_Remove. intros [[= -> ->] | Hin]%elem_of_cons.
      * exists fi. split; [apply list_elem_of_here | done].
      * destruct (IH Hin) as (fi' & Hfi' & Hname). exists fi'.
        split; [by apply list_elem_of_further | done].
    + specialize (IH entries true name ok).
      destruct (removeLoop rest entries true) as [[r t] e]. cbn [fst snd] in *.
      rewrite removals_Remove, removals_LogPrintln.
      intros [[= -> ->] | Hin]%elem_of_cons.
      * exists fi. split; [apply list_elem_of_here | done].
      * destruct (IH Hin) as (fi' & Hfi' & Hname). exists fi'.
        split; [by apply list_elem_of_further | done].
  - by intros ?%elem_of_nil.
Qed.

Lemma deleteFiles_names (arr : list (option FileInfo)) entries name ok :
  (name, ok) ∈ removals (trace (deleteFiles arr entries)) →
  ∃ fi, Some fi ∈ arr ∧ Name fi = name.
Proof.
  unfold deleteFiles. pose proof (removeLoop_names arr entries false name ok) as Hloop.
  destruct (removeLoop arr entries false) as [[[[|]|msg|] t] e]; simpl in *; try done.
  rewrite removals_app. simpl. by rewrite app_nil_r.
Qed.

Lemma confirmAndDelete_names ctx w sel name ok :
  (name, ok) ∈ removals (trace (confirmAndDelete ctx w sel)) →
  ∃ fi, fi ∈ sel ∧ Name fi = name.
Proof.
  unfold confirmAndDelete. destruct (dry_run ctx); [by intros ?%elem_of_nil |].
  pose proof (confirmation_subset (yes ctx) w sel) as Hsub.
  destruct (confirmation (yes ctx) w sel) as [[confirm arr] t] eqn:Hconf. simpl in *.
  assert (Ht : removals t = []).
  { unfold confirmation in Hconf.
    destruct (yes ctx); simpl in Hconf; repeat case_decide; by simplify_eq. }
  rewrite removals_app, Ht. simpl. destruct confirm; simpl.
  - intros (fi & Hfi & Hname)%deleteFiles_names. exists fi. split; [by apply Hsub | done].
  - by intros ?%elem_of_nil.
Qed.

End Pipeline.

(** X6.  Whatever the flags and the answers, every name a run calls
    [os.Remove] on is the name of an entry of the directory that is not a
    directory, that the compiled pattern matches, and that is not the
    base name of the executable. *)
Theorem Action_removes_only_matches `{Lib} (ctx : Flags) (w : World)
    (name : string) (ok : bool) :
  (name, ok) ∈ removals (trace (Action ctx w)) →
  ∃ re f,
    regexp_Compile (pattern ctx) = inl re ∧
    f ∈ entriesOf (target w) ∧ de_name f = name ∧ de_isDir f = false ∧
    Regexp.MatchString re name = true ∧
    name ≠ Path.Base (Args0 w).
Proof.
  intros Hin.
  destruct (Action_pipeline ctx w)
    as [(Hout & _) | (re & arrFiles & sel & Hre & Htarget & _ & Hsel & Hrun)].
  { rewrite removals_outputs in Hin by done. by apply elem_of_nil in Hin. }
  rewrite Hrun in Hin. simpl in Hin.
  rewrite removals_app, removals_printResult in Hin. simpl in Hin.
  apply confirmAndDelete_names in Hin as (fi & Hfi & <-).
  destruct (selected_is_match _ _ _ _ _ _ Hsel Hfi)
    as ([Hself Hmatch] & f & Hf & Hdir & [Hname _]%Info_Some).
  exists re, f. rewrite Htarget. simpl. rewrite <- Hname. done.
Qed.

Lemma Action_removes_only_matches_witness :
  ∃ re f,
    Sample.Compile ".*\.log" = inl re ∧
    f ∈ entriesOf Examples.logsDir ∧ de_name f = "a.log" ∧ de_isDir f = false.
Proof.
  destruct (Action_removes_only_matches (Examples.flags 2 false true)
              (Examples.world None None) "a.log" true)
    as (re & f & Hre & Hf & Hname & Hdir & _).
  - vm_compute. apply list_elem_of_here.
  - exists re, f. done.
Defined.

Section Selection.
Context `{Lib}.

Lemma length_listByTime_collect (arrFiles : list DirEntry) :
  (length (listByTime_collect arrFiles) ≤ length arrFiles)%nat.
Proof.
  induction arrFiles as [|f rest IH]; simpl; [done |].
  destruct (de_isDir f); [lia |]. destruct (Info f); simpl; lia.
Qed.

Lemma length_matches re self (arrFiles : list DirEntry) :
  (length (matchFiles re self (sort_Sort (listByTime_collect arrFiles)))
   ≤ length arrFiles)%nat.
Proof.
  rewrite matchFiles_filter.
  etrans; [apply length_filter |].
  rewrite (Permutation_length (sort_Sort_perm _)). apply length_listByTime_collect.
Qed.

(** From matches that are there, a selection is never empty. *)
Lemma selectByNumber_nonempty (n : Z) (l sel : list FileInfo) :
  GoInt.in_int n → GoInt.in_int (Z.of_nat (length l)) → l ≠ [] →
  selectByNumber n l = Selected sel → sel ≠ [].
Proof.
  intros Hn Hlen Hl Hsel.
  assert (Hpos : (0 < length l)%nat) by (destruct l; [done | simpl; lia]).
  destruct (Z.lt_trichotomy n 0) as [Hneg | [-> | Hnpos]].
  - destruct (decide (n = GoInt.min_int)) as [-> | Hne].
    { rewrite selectByNumber_min_int in Hsel by done. discriminate. }
    rewrite selectByNumber_negative in Hsel;
      [| done | unfold GoInt.in_int in Hn; lia | done].
    case_decide; [| discriminate]. injection Hsel as <-.
    intros Hnil%(f_equal length). rewrite length_take in Hnil. simpl in Hnil. lia.
  - vm_compute in Hsel. by injection Hsel as <-.
  - unfold selectByNumber, slice_to in Hsel.
    repeat case_decide; simplify_eq; try lia; [| done].
    intros Hnil%(f_equal length). rewrite length_take in Hnil. simpl in Hnil. lia.
Qed.

Lemma TableRender_not_early (r : Run) (dir : PathState) header rows :
  ended_early r dir → TableRender header rows ∉ trace r.
Proof.
  intros (_ & _ & [-> | [line ->]]) Hin; [by apply elem_of_nil in Hin |].
  by apply list_elem_of_singleton in Hin.
Qed.

End Selection.

(** X7.  When a run prints a table, for a [number] and a directory size
    that fit an [int]: the run begins with the table and the summary of a
    selection that is not empty, is in ascending order of modification
    time, is a prefix of the matches, and holds only records of matching
    entries that are neither directories nor the executable. *)
Theorem presented_selection `{Lib} (ctx : Flags) (w : World)
    (header : list string) (rows : list (list string)) :
  GoInt.in_int (number ctx) →
  GoInt.in_int (Z.of_nat (length (entriesOf (target w)))) →
  TableRender header rows ∈ trace (Action ctx w) →
  ∃ re sel,
    regexp_Compile (pattern ctx) = inl re ∧
    printResult sel `prefix_of` trace (Action ctx w) ∧
    sel ≠ [] ∧
    oldest_first sel ∧
    (∃ arrFileInfo, listByTime (target w) = Ok arrFileInfo ∧
       sel `prefix_of` matchFiles re (Path.Base (Args0 w)) arrFileInfo) ∧
    (∀ fi, fi ∈ sel →
       accepted re (Path.Base (Args0 w)) fi ∧
       ∃ f, f ∈ entriesOf (target w) ∧ de_isDir f = false ∧ Info f = Some fi).
Proof.
  intros Hn Hlen Htable.
  destruct (Action_pipeline ctx w)
    as [Hearly | (re & arrFiles & sel & Hre & Htarget & Hsome & Hsel & Hrun)].
  { by apply (TableRender_not_early _ _ header rows) in Hearly. }
  rewrite Htarget in *. simpl in Hlen.
  destruct (selectByNumber_take _ _ _ Hsel) as [k Hk].
  exists re, sel. split_and!.
  - done.
  - rewrite Hrun. simpl. by eexists.
  - refine (selectByNumber_nonempty _ _ _ Hn _ Hsome Hsel).
    pose proof (length_matches re (Path.Base (Args0 w)) arrFiles) as Hle.
    unfold GoInt.in_int, GoInt.min_int, GoInt.max_int, GoInt.int_bits in *. lia.
  - rewrite Hk. eapply oldest_first_sublist; [apply sublist_take |].
    rewrite matchFiles_filter.
    eapply oldest_first_sublist; [apply sublist_filter | apply sort_Sort_oldest_first].
  - eexists. split; [done |]. rewrite Hk. apply prefix_take.
  - intros fi Hfi. by eapply selected_is_match.
Qed.

Lemma presented_selection_witness :
  ∃ re sel, Sample.Compile ".*\.log" = inl re ∧ sel ≠ [] ∧ oldest_first sel.
Proof.
  destruct (presented_selection (Examples.flags 2 true false) (Examples.world None None)
              tableHeader [ ["a.log"; "20 B"; "10"]; ["b.log"; "30 B"; "20"] ])
    as (re & sel & Hre & _ & Hsome & Hsorted & _).
  - by vm_compute.
  - by vm_compute.
  - vm_compute. apply list_elem_of_here.
  - exists re, sel. done.
Defined.



(** X9.  With [--yes] or [--dry-run] a run shows no prompt and does not
    depend on what the prompts would have answered. *)
Theorem unattended `{Lib} (ctx : Flags) (args0 : string) (dir : PathState)
    (select select' : option string) (multi multi' : option (list string)) :
  yes ctx = true ∨ dry_run ctx = true →
  Forall (λ e, ¬ is_prompt e) (trace (Action ctx (mkWorld args0 dir select multi))) ∧
  Action ctx (mkWorld args0 dir select multi)
    = Action ctx (mkWorld args0 dir select' multi').
Proof.
  intros Hflag.
  destruct (Action_two_worlds ctx args0 dir select multi select' multi')
    as [[(Hout & _) Heq] | (sel & Hrun & Hrun')].
  { split; [| done]. eapply Forall_impl; [exact Hout |].
    intros e He. destruct e; simpl in *; tauto. }
  rewrite Hrun, Hrun'. simpl.
  assert (Hprint : Forall (λ e, ¬ is_prompt e) (printResult sel)).
  { apply Forall_forall. intros e. apply printResult_no_prompt. }
  destruct (dry_run ctx) eqn:Hdry.
  - rewrite !confirmAndDelete_dry_run by done. simpl. by rewrite app_nil_r.
  - destruct Hflag as [Hyes | ?]; [| done].
    rewrite !confirmAndDelete_yes by done. simpl. split; [| done].
    apply Forall_app. split; [done | apply deleteFiles_no_prompt].
Qed.

Lemma unattended_witness :
  Action (Examples.flags 2 false true) (Examples.world None None)
  = Action (Examples.flags 2 false true) (Examples.world (Some "No") (Some [])).
Proof.
  refine (proj2 (unattended (Examples.flags 2 false true) "./delete-old-files"
                   Examples.logsDir None (Some "No") None (Some []) _)).
  left. reflexivity.
Defined.

(** ** The "Pick" branch, lines 117-137 *)

Section Pick.
Context `{Lib}.

Lemma confirmAndDelete_answer_yes ctx w sel :
  dry_run ctx = false → yes ctx = false → answerSelect w = Some "Yes" →
  confirmAndDelete ctx w sel
    = after [AskSelect promptOptions]
        (deleteFiles (Some <$> sel) (entriesOf (target w))).
Proof.
  intros Hdry Hyes Hans. unfold confirmAndDelete, confirmation.
  rewrite Hdry, Hyes, Hans. done.
Qed.

Lemma confirmAndDelete_pick ctx w sel checked :
  dry_run ctx = false → yes ctx = false →
  answerSelect w = Some "Pick" → answerMulti w = Some checked → checked ≠ [] →
  confirmAndDelete ctx w sel
    = after [AskSelect promptOptions; AskMultiSelect (Name <$> sel)]
        (deleteFiles ((λ ans, buildMapSel sel !! ans) <$> checked)
           (entriesOf (target w))).
Proof.
  intros Hdry Hyes Hans Hmulti Hsome. unfold confirmAndDelete, confirmation.
  rewrite Hdry, Hyes, Hans, Hmulti. simpl.
  rewrite bool_decide_eq_true_2; [done |].
  rewrite length_fmap. destruct checked; [done | simpl; lia].
Qed.

Lemma filter_prompt_nil (t : list event) :
  Forall (λ e, ¬ is_prompt e) t → filter is_prompt t = [].
Proof.
  induction 1 as [|e t He _ IH]; [done |]. by rewrite filter_cons_False.
Qed.

Lemma prompts_deleteFiles arr entries :
  filter is_prompt (trace (deleteFiles arr entries)) = [].
Proof. apply filter_prompt_nil, deleteFiles_no_prompt. Qed.

(** The prompts of lines 100-161. *)
Lemma prompts_confirmAndDelete ctx w sel :
  filter is_prompt (trace (confirmAndDelete ctx w sel)) =
    if dry_run ctx || yes ctx then []
    else if decide (default "No" (answerSelect w) = "Pick")
         then [AskSelect promptOptions; AskMultiSelect (Name <$> sel)]
         else [AskSelect promptOptions].
Proof.
  unfold confirmAndDelete, confirmation.
  destruct (dry_run ctx); [done |]. destruct (yes ctx); simpl.
  { apply prompts_deleteFiles. }
  assert (Haborted : filter is_prompt [Println "Aborted"] = []) by done.
  repeat case_decide; simplify_eq; simpl; try done.
  all: try (rewrite filter_cons_True by done; f_equal).
  all: try (rewrite filter_cons_True by done; f_equal).
  all: try apply prompts_deleteFiles.
  all: congruence.
Qed.

(** A run that showed the second prompt had neither [--dry-run] nor
    [--yes], was answered "Pick", and offered the names of its
    selection. *)
Lemma multi_prompt_reached ctx w opts :
  AskMultiSelect opts ∈ trace (Action ctx w) →
  dry_run ctx = false ∧ yes ctx = false ∧ answerSelect w = Some "Pick" ∧
  ∃ sel, opts = Name <$> sel ∧
         Action ctx w = after (printResult sel) (confirmAndDelete ctx w sel).
Proof.
  intros Hask. destruct (Action_cases ctx w) as [Hearly | [sel Hsel]].
  { by apply (ended_early_no_prompt _ _ _ Hearly) in Hask. }
  rewrite Hsel in Hask. simpl in Hask.
  apply elem_of_app in Hask as [Hask | Hask].
  { by apply printResult_no_prompt in Hask. }
  assert (Hprompt : AskMultiSelect opts
                      ∈ filter is_prompt (trace (confirmAndDelete ctx w sel)))
    by (by apply list_elem_of_filter).
  rewrite prompts_confirmAndDelete in Hprompt.
  destruct (dry_run ctx); [by apply elem_of_nil in Hprompt |].
  destruct (yes ctx); [by apply elem_of_nil in Hprompt |]. simpl in Hprompt.
  case_decide as Hans; [| by apply list_elem_of_singleton in Hprompt].
  apply elem_of_cons in Hprompt as [[=] | [= ->]%list_elem_of_singleton].
  split_and!; [done | done | | by exists sel].
  destruct (answerSelect w); simplify_eq/=; done.
Qed.

(** Names that are among the options are keys of the map. *)
Lemma lookup_checked (sel : list FileInfo) (checked : list string) :
  Forall (λ name, name ∈ Name <$> sel) checked →
  ∃ files, (λ ans, buildMapSel sel !! ans) <$> checked = Some <$> files ∧
           Name <$> files = checked.
Proof.
  induction 1 as [|name checked Hname _ (files & Hfiles & Hnames)].
  - by exists [].
  - destruct (buildMapSel sel !! name) as [fi|] eqn:Hlookup.
    + apply buildMapSel_Some in Hlookup as Hfi. destruct Hfi as [_ <-].
      exists (fi :: files). rewrite !fmap_cons, Hlookup, Hfiles, Hnames. done.
    + by apply buildMapSel_None in Hlookup.
Qed.

(** A nil entry stops the loop where it stands. *)
Lemma removeLoop_nil_entry (files : list FileInfo) rest : ∀ entries hasErr,
  ∃ t e,
    removeLoop ((Some <$> files) ++ None :: rest) entries hasErr = (Panic, t, e) ∧
    (removals t).*1 = Name <$> files.
Proof.
  induction files as [|fi files IH]; intros entries hasErr.
  - by exists [], entries.
  - rewrite fmap_cons. cbn [app removeLoop].
    destruct (os_Remove entries (Name fi)) as [entries' | err].
    + destruct (IH entries' hasErr) as (t & e & -> & Hnames).
      eexists _, e. split; [done |].
      rewrite removals_Remove, !fmap_cons. by f_equal.
    + destruct (IH entries true) as (t & e & -> & Hnames).
      eexists _, e. split; [done |].
      rewrite removals_Remove, removals_LogPrintln, !fmap_cons. by f_equal.
Qed.

(** Two runs that differ in the answers only go through the same
    stages up to the table. *)
Lemma Action_pipeline_two ctx args0 arrFiles select1 multi1 select2 multi2 :
  let w1 := mkWorld args0 (Directory arrFiles) select1 multi1 in
  let w2 := mkWorld args0 (Directory arrFiles) select2 multi2 in
  (ended_early (Action ctx w1) (Directory arrFiles) ∧ Action ctx w1 = Action ctx w2) ∨
  ∃ re sel,
    regexp_Compile (pattern ctx) = inl re ∧
    matchFiles re (Path.Base args0) (sort_Sort (listByTime_collect arrFiles)) ≠ [] ∧
    selectByNumber (number ctx)
      (matchFiles re (Path.Base args0) (sort_Sort (listByTime_collect arrFiles)))
      = Selected sel ∧
    Action ctx w1 = after (printResult sel) (confirmAndDelete ctx w1 sel) ∧
    Action ctx w2 = after (printResult sel) (confirmAndDelete ctx w2 sel).
Proof.
  unfold Action, ended_early. simpl.
  destruct (regexp_Compile (pattern ctx)) as [re | err]; [| left; simpl; auto].
  destruct (decide _) as [Hnone | Hsome];
    [left; simpl; split_and!; [by repeat constructor | done | eauto | done] |].
  destruct (selectByNumber _ _) as [sel | |] eqn:Hsel.
  - right. exists re, sel. split_and!; try done.
    intros Hnil. by rewrite Hnil in Hsome.
  - left. simpl. split_and!; [by repeat constructor | done | eauto | done].
  - left. simpl. auto.
Qed.

(** Over records without nil the deleter calls [os.Remove] on each name
    in turn and does not panic. *)
Lemma deleteFiles_attempts (files : list FileInfo) (entries : list DirEntry) :
  (removals (trace (deleteFiles (Some <$> files) entries))).*1 = Name <$> files ∧
  result (deleteFiles (Some <$> files) entries) ≠ Panic.
Proof.
  unfold deleteFiles.
  destruct (removeLoop_spec files entries false) as (t & e & b & -> & Hnames & _).
  destruct b; simpl; [done |].
  rewrite removals_app. simpl. by rewrite app_nil_r.
Qed.

Lemma NoDup_Name_sublist (l1 l2 : list FileInfo) :
  l1 `sublist_of` l2 → NoDup (Name <$> l2) → NoDup (Name <$> l1).
Proof.
  induction 1 as [|x l1 l2 Hsub IH|x l1 l2 Hsub IH]; [done | |].
  - rewrite !fmap_cons, !NoDup_cons. intros [Hx Hnodup]. split; [| by apply IH].
    intros (y & Hname & Hy)%list_elem_of_fmap. destruct Hx.
    rewrite Hname. apply list_elem_of_fmap_2. by eapply elem_of_sublist.
  - rewrite fmap_cons, NoDup_cons. intros [_ Hnodup]. by apply IH.
Qed.

Lemma NoDup_Name_collect (arrFiles : list DirEntry) :
  NoDup (de_name <$> arrFiles) → NoDup (Name <$> listByTime_collect arrFiles).
Proof.
  induction arrFiles as [|f rest IH]; [done |].
  rewrite fmap_cons, NoDup_cons. intros [Hf Hnodup]. cbn [listByTime_collect].
  destruct (de_isDir f); [by apply IH |].
  destruct (Info f) as [fi|] eqn:Hinfo; [| by apply IH].
  rewrite fmap_cons, NoDup_cons. split; [| by apply IH].
  apply Info_Some in Hinfo as [-> _].
  intros (fi' & Hname & Hin)%list_elem_of_fmap. destruct Hf. rewrite Hname.
  rewrite listByTime_collect_omap in Hin.
  apply list_elem_of_omap in Hin as (f' & [_ Hf']%list_elem_of_filter & [-> _]%Info_Some).
  by apply list_elem_of_fmap_2.
Qed.

(** Distinct entry names give distinct names in the selection. *)
Lemma NoDup_Name_selected re self arrFiles n sel :
  NoDup (de_name <$> arrFiles) →
  selectByNumber n (matchFiles re self (sort_Sort (listByTime_collect arrFiles)))
    = Selected sel →
  NoDup (Name <$> sel).
Proof.
  intros Hnodup [k ->]%selectByNumber_take.
  eapply NoDup_Name_sublist; [apply sublist_take |].
  rewrite matchFiles_filter.
  eapply NoDup_Name_sublist; [apply sublist_filter |].
  rewrite sort_Sort_perm. by apply NoDup_Name_collect.
Qed.

End Pick.

(** X10.  After "Pick", when every name the second prompt returns is one
    of the options it offered, [os.Remove] is called on exactly the
    returned names, in the order returned, and the run does not panic. *)
Theorem pick_removes_checked `{Lib} (ctx : Flags) (args0 : string)
    (dir : PathState) (checked opts : list string) :
  let r := Action ctx (mkWorld args0 dir (Some "Pick") (Some checked)) in
  AskMultiSelect opts ∈ trace r →
  Forall (λ name, name ∈ opts) checked →
  (removals (trace r)).*1 = checked ∧ result r ≠ Panic.
Proof.
  intros r Hask Hchecked. subst r.
  destruct (multi_prompt_reached _ _ _ Hask) as (Hdry & Hyes & _ & sel & -> & ->).
  simpl. rewrite removals_app, removals_printResult. simpl.
  destruct checked as [|name checked].
  { rewrite confirmAndDelete_pick_nothing by done. done. }
  rewrite (confirmAndDelete_pick _ _ _ (name :: checked)) by done.
  destruct (lookup_checked sel (name :: checked) Hchecked) as (files & -> & <-).
  simpl.
  by destruct (deleteFiles_attempts files (entriesOf dir)) as (Hnames & Hresult).
Qed.

Lemma pick_removes_checked_witness :
  (removals (trace (Action (Examples.flags 0 false false)
                      (Examples.world (Some "Pick") (Some ["c.log"; "a.log"]))))).*1
  = ["c.log"; "a.log"].
Proof.
  refine (proj1 (pick_removes_checked (Examples.flags 0 false false)
                   "./delete-old-files" Examples.logsDir ["c.log"; "a.log"]
                   ["a.log"; "b.log"; "c.log"] _ _)).
  - vm_compute. do 3 apply list_elem_of_further. apply list_elem_of_here.
  - repeat constructor.
Defined.

(** X11.  In a directory whose entries bear distinct names, with a
    [number] and a size that fit an [int]: "Pick" with every offered name
    returned gives the run of "Yes", but for the second prompt being
    shown: same result, same directory afterwards, same output, log and
    removals. *)
Theorem pick_all_is_yes `{Lib} (ctx : Flags) (args0 : string)
    (arrFiles : list DirEntry) (opts : list string) (multi : option (list string)) :
  GoInt.in_int (number ctx) →
  GoInt.in_int (Z.of_nat (length arrFiles)) →
  NoDup (de_name <$> arrFiles) →
  let rPick := Action ctx (mkWorld args0 (Directory arrFiles) (Some "Pick") (Some opts)) in
  let rYes := Action ctx (mkWorld args0 (Directory arrFiles) (Some "Yes") multi) in
  AskMultiSelect opts ∈ trace rPick →
  result rPick = result rYes ∧
  final rPick = final rYes ∧
  effects (trace rPick) = effects (trace rYes).
Proof.
  intros Hn Hlen Hnodup rPick rYes Hask. subst rPick rYes.
  destruct (multi_prompt_reached _ _ _ Hask) as (Hdry & Hyes & _).
  destruct (Action_pipeline_two ctx args0 arrFiles (Some "Pick") (Some opts)
              (Some "Yes") multi)
    as [[Hearly _] | (re & sel & Hre & Hsome & Hsel & HrunPick & HrunYes)].
  { by apply (ended_early_no_prompt _ _ _ Hearly) in Hask. }
  assert (Hnonempty : sel ≠ []).
  { refine (selectByNumber_nonempty _ _ _ Hn _ Hsome Hsel).
    pose proof (length_matches re (Path.Base args0) arrFiles) as Hle.
    unfold GoInt.in_int, GoInt.min_int, GoInt.max_int, GoInt.int_bits in *. lia. }
  assert (Hnames : NoDup (Name <$> sel)) by (by eapply NoDup_Name_selected).
  assert (Hshown : opts = Name <$> sel).
  { rewrite HrunPick in Hask. simpl in Hask.
    apply elem_of_app in Hask as [Hask | Hask];
      [by apply printResult_no_prompt in Hask |].
    match type of Hask with
    | _ ∈ trace ?run =>
        assert (Hprompt : AskMultiSelect opts ∈ filter is_prompt (trace run))
          by (by apply list_elem_of_filter)
    end.
    rewrite prompts_confirmAndDelete, Hdry, Hyes in Hprompt. simpl in Hprompt.
    by apply elem_of_cons in Hprompt as [[=] | [= ->]%list_elem_of_singleton]. }
  assert (Hopts : opts ≠ []) by (subst opts; by destruct sel).
  assert (Hlookup : (λ ans, buildMapSel sel !! ans) <$> opts = Some <$> sel).
  { subst opts. rewrite <- list_fmap_compose. apply list_fmap_ext.
    intros i fi Hfi. simpl. apply buildMapSel_NoDup; [done |].
    by eapply list_elem_of_lookup_2. }
  rewrite HrunPick, HrunYes.
  rewrite (confirmAndDelete_pick _ _ _ opts) by done.
  rewrite confirmAndDelete_answer_yes by done.
  rewrite Hlookup. simpl. split_and!; [done | done |].
  rewrite !effects_app. done.
Qed.

Lemma pick_all_is_yes_witness :
  effects (trace (Action (Examples.flags 0 false false)
                    (Examples.world (Some "Pick") (Some ["a.log"; "b.log"; "c.log"]))))
  = effects (trace (Action (Examples.flags 0 false false)
                      (Examples.world (Some "Yes") None))).
Proof.
  refine (proj2 (proj2 (pick_all_is_yes (Examples.flags 0 false false)
                          "./delete-old-files" (entriesOf Examples.logsDir)
                          ["a.log"; "b.log"; "c.log"] None _ _ _ _))).
  - by vm_compute.
  - by vm_compute.
  - apply (bool_decide_unpack _). by vm_compute.
  - vm_compute. do 3 apply list_elem_of_further. apply list_elem_of_here.
Defined.

(** X12.  After "Pick", when the second prompt returns a name it did not
    offer, after names it did: [os.Remove] is called on the names before
    it, then the run panics on the nil record, with nothing after it
    attempted. *)
Theorem pick_unknown_name_panics `{Lib} (ctx : Flags) (args0 : string)
    (dir : PathState) (before after_ opts : list string) (unknown : string) :
  let r := Action ctx (mkWorld args0 dir (Some "Pick")
                         (Some (before ++ unknown :: after_))) in
  AskMultiSelect opts ∈ trace r →
  Forall (λ name, name ∈ opts) before →
  unknown ∉ opts →
  result r = Panic ∧ (removals (trace r)).*1 = before.
Proof.
  intros r Hask Hbefore Hunknown. subst r.
  destruct (multi_prompt_reached _ _ _ Hask) as (Hdry & Hyes & _ & sel & -> & ->).
  simpl. rewrite removals_app, removals_printResult. simpl.
  rewrite (confirmAndDelete_pick _ _ _ (before ++ unknown :: after_));
    [| done | done | done | done | by destruct before].
  rewrite fmap_app, fmap_cons.
  destruct (lookup_checked sel before Hbefore) as (files & -> & <-).
  apply buildMapSel_None in Hunknown. rewrite Hunknown.
  simpl. unfold deleteFiles.
  destruct (removeLoop_nil_entry files
              ((λ ans, buildMapSel sel !! ans) <$> after_) (entriesOf dir) false)
    as (t & e & -> & Hnames).
  done.
Qed.

Lemma pick_unknown_name_panics_witness :
  result (Action (Examples.flags 0 false false)
            (Examples.world (Some "Pick") (Some ["a.log"; "zzz"; "b.log"]))) = Panic.
Proof.
  refine (proj1 (pick_unknown_name_panics (Examples.flags 0 false false)
                   "./delete-old-files" Examples.logsDir ["a.log"] ["b.log"]
                   ["a.log"; "b.log"; "c.log"] "zzz" _ _ _)).
  - vm_compute. do 3 apply list_elem_of_further. apply list_elem_of_here.
  - repeat constructor.
  - intros Hin. repeat (apply elem_of_cons in Hin as [[=] | Hin]).
    by apply elem_of_nil in Hin.
Defined.

(** ** How a run ends *)

Section Endings.
Context `{Lib}.

(** The loop returns [hasErr] or panics; [hasErr] is raised by failures
    only. *)
Lemma removeLoop_result (arr : list (option FileInfo)) : ∀ entries hasErr,
  (∃ b, (removeLoop arr entries hasErr).1.1 = Ok b ∧
        (b = true ↔ hasErr = true ∨
                     ∃ name, failed name (removeLoop arr entries hasErr).1.2) ∧
        None ∉ arr) ∨
  ((removeLoop arr entries hasErr).1.1 = Panic ∧ None ∈ arr).
Proof.
  unfold failed.
  induction arr as [|[fi|] rest IH]; intros entries hasErr; cbn [removeLoop].
  - left. exists hasErr. simpl. split_and!; [done | | by intros ?%elem_of_nil].
    split; [by left |]. intros [-> | [name Hname]]; [done |].
    by apply elem_of_nil in Hname.
  - destruct (os_Remove entries (Name fi)) as [entries' | err].
    + specialize (IH entries' hasErr).
      destruct (removeLoop rest entries' hasErr) as [[r t] e]. cbn [fst snd] in *.
      rewrite removals_Remove.
      destruct IH as [(b & -> & Hb & Hnone) | [-> Hnil]].
      * left. exists b. split_and!; [done | |].
        -- rewrite Hb. split.
           ++ intros [? | [name Hname]]; [by left | right].
              exists name. by apply list_elem_of_further.
           ++ intros [? | [name Hname]]; [by left | right].
              apply elem_of_cons in Hname as [[=] | Hname]. by exists name.
        -- by intros [[=] | ?]%elem_of_cons.
      * right. split; [done | by apply list_elem_of_further].
    + specialize (IH entries true).
      destruct (removeLoop rest entries true) as [[r t] e]. cbn [fst snd] in *.
      rewrite removals_Remove, removals_LogPrintln.
      destruct IH as [(b & -> & Hb & Hnone) | [-> Hnil]].
      * left. exists b. split_and!; [done | |].
        -- split; [intros _; right; exists (Name fi); apply list_elem_of_here |].
           intros _. apply Hb. by left.
        -- by intros [[=] | ?]%elem_of_cons.
      * right. split; [done | by apply list_elem_of_further].
  - right. split; [done | apply list_elem_of_here].
Qed.

(** How the deleter ends. *)
Lemma deleteFiles_result (arr : list (option FileInfo)) (entries : list DirEntry) :
  let r := deleteFiles arr entries in
  (result r = Ok () ∧ (∀ name, ¬ failed name (trace r)) ∧ None ∉ arr) ∨
  (result r = Error "Failed to delete some files" ∧
   (∃ name, failed name (trace r)) ∧ None ∉ arr) ∨
  (result r = Panic ∧ None ∈ arr).
Proof.
  simpl. unfold deleteFiles.
  pose proof (removeLoop_result arr entries false) as Hloop.
  destruct (removeLoop arr entries false) as [[r t] e]. cbn [fst snd] in *.
  destruct Hloop as [(b & -> & Hb & Hnone) | [-> Hnil]]; [| by right; right].
  destruct b; simpl.
  - right. left. split_and!; [done | | done].
    destruct Hb as [Hb _]. by destruct (Hb eq_refl).
  - left. split_and!; [done | | done].
    intros name Hname. unfold failed in *.
    rewrite removals_app in Hname. simpl in Hname. rewrite app_nil_r in Hname.
    destruct Hb as [_ Hb]. by discriminate Hb; right; exists name.
Qed.

Lemma confirmation_no_nil_yes (w : World) (sel : list FileInfo) :
  None ∉ (confirmation true w sel).1.2.
Proof. simpl. by intros (fi & [=] & _)%list_elem_of_fmap. Qed.

End Endings.

Section Endings2.
Context `{Lib}.

(** Lines 100-161 either stop without error before the deleter (dry run
    or no confirmation) or hand a confirmed set to it; a nil record in
    that set comes from a name the second prompt returned without having
    offered it. *)
Lemma confirmAndDelete_cases (ctx : Flags) (w : World) (sel : list FileInfo) :
  (result (confirmAndDelete ctx w sel) = Ok () ∧
   removals (trace (confirmAndDelete ctx w sel)) = [] ∧
   final (confirmAndDelete ctx w sel) = target w) ∨
  ∃ arr t,
    confirmAndDelete ctx w sel = after t (deleteFiles arr (entriesOf (target w))) ∧
    removals t = [] ∧
    (None ∈ arr →
     answerSelect w = Some "Pick" ∧
     AskMultiSelect (Name <$> sel) ∈ t ∧
     ∃ checked unknown,
       answerMulti w = Some checked ∧ unknown ∈ checked ∧ unknown ∉ Name <$> sel).
Proof.
  unfold confirmAndDelete. destruct (dry_run ctx); [by left |].
  unfold confirmation. destruct (yes ctx); simpl.
  { right. exists (Some <$> sel), []. split_and!; [done | done |].
    by intros (fi & [=] & _)%list_elem_of_fmap. }
  destruct (decide (default "No" (answerSelect w) = "Yes")) as [HYes | HnYes].
  { right. exists (Some <$> sel), [AskSelect promptOptions]. split_and!; [done | done |].
    by intros (fi & [=] & _)%list_elem_of_fmap. }
  destruct (decide (default "No" (answerSelect w) = "No")) as [HNo | HnNo]; [by left |].
  destruct (decide (default "No" (answerSelect w) = "Pick")) as [HPick | HnPick];
    [| by left].
  case_bool_decide as Hlen; simpl; [| by left].
  right. eexists _, _. split_and!; [done | done |].
  intros (unknown & Hlookup & Hin)%list_elem_of_fmap.
  split; [by destruct (answerSelect w); simplify_eq/= |].
  split; [apply list_elem_of_further, list_elem_of_here |].
  destruct (answerMulti w) as [checked|]; simpl in *; [| by apply elem_of_nil in Hin].
  exists checked, unknown. split_and!; [done | done |].
  symmetry in Hlookup. by apply buildMapSel_None in Hlookup.
Qed.

(** Every way a run can go, up to the table. *)
Lemma Action_outcomes (ctx : Flags) (w : World) :
  (∃ err, regexp_Compile (pattern ctx) = inr err ∧
          Action ctx w
          = mkRun (Error ("failed to compile pattern: " +:+ err)) [] (target w)) ∨
  (∃ re msg, regexp_Compile (pattern ctx) = inl re ∧
             listByTime (target w) = Error msg ∧
             Action ctx w = mkRun (Error msg) [] (target w)) ∨
  (∃ re, regexp_Compile (pattern ctx) = inl re ∧
         target w = StatError ∧
         Action ctx w = mkRun Panic [] (target w)) ∨
  (∃ re arrFiles line,
     regexp_Compile (pattern ctx) = inl re ∧ target w = Directory arrFiles ∧
     Action ctx w = mkRun (Ok ()) [Println line] (target w)) ∨
  (∃ re arrFiles,
     regexp_Compile (pattern ctx) = inl re ∧ target w = Directory arrFiles ∧
     selectByNumber (number ctx)
       (matchFiles re (Path.Base (Args0 w)) (sort_Sort (listByTime_collect arrFiles)))
       = SlicePanic ∧
     Action ctx w = mkRun Panic [] (target w)) ∨
  (∃ re arrFiles sel,
     regexp_Compile (pattern ctx) = inl re ∧ target w = Directory arrFiles ∧
     matchFiles re (Path.Base (Args0 w)) (sort_Sort (listByTime_collect arrFiles)) ≠ [] ∧
     selectByNumber (number ctx)
       (matchFiles re (Path.Base (Args0 w)) (sort_Sort (listByTime_collect arrFiles)))
       = Selected sel ∧
     Action ctx w = after (printResult sel) (confirmAndDelete ctx w sel)).
Proof.
  unfold Action.
  destruct (regexp_Compile (pattern ctx)) as [re | err]; [| left; by exists err].
  right.
  destruct (target w) as [err| | |err|arrFiles] eqn:Htarget; simpl.
  - left. by eexists re, _.
  - right. left. by exists re.
  - left. by eexists re, _.
  - left. by eexists re, _.
  - do 2 right. destruct (decide _) as [Hnone | Hsome]; [left; by eexists re, arrFiles, _ |].
    destruct (selectByNumber _ _) as [sel | |] eqn:Hsel.
    + do 2 right. exists re, arrFiles, sel. split_and!; try done.
      intros Hnil. by rewrite Hnil in Hsome.
    + left. by eexists re, arrFiles, _.
    + right. left. by exists re, arrFiles.
Qed.

End Endings2.

(** X13.  A run returns an error in three cases only: the pattern does
    not compile; the pattern compiles and the directory cannot be listed;
    or a call of [os.Remove] failed and the run did not panic.  In the
    first two nothing has been printed, asked or removed. *)
Theorem Action_error_cases `{Lib} (ctx : Flags) (w : World) (msg : string) :
  result (Action ctx w) = Error msg ↔
  (∃ err, regexp_Compile (pattern ctx) = inr err ∧
          msg = "failed to compile pattern: " +:+ err ∧
          trace (Action ctx w) = [] ∧ final (Action ctx w) = target w) ∨
  (∃ re, regexp_Compile (pattern ctx) = inl re ∧
         listByTime (target w) = Error msg ∧
         trace (Action ctx w) = [] ∧ final (Action ctx w) = target w) ∨
  (msg = "Failed to delete some files" ∧
   result (Action ctx w) ≠ Panic ∧
   ∃ name, failed name (trace (Action ctx w))).
Proof.
  unfold failed.
  destruct (Action_outcomes ctx w)
    as [(err & Hre & ->) | [(re & msg' & Hre & Hlist & ->) | [(re & Hre & Hstat & ->)
       | [(re & arrFiles & line & Hre & Htarget & ->)
       | [(re & arrFiles & Hre & Htarget & _ & ->)
       | (re & arrFiles & sel & Hre & Htarget & _ & _ & ->)]]]]]; simpl.
  - split.
    + intros [= <-]. left. by exists err.
    + intros [(err' & Hre' & -> & _) | [(re & Hre' & _) | (_ & _ & name & Hname)]].
      * congruence.
      * congruence.
      * by apply elem_of_nil in Hname.
  - split.
    + intros [= <-]. right. left. by exists re.
    + intros [(err' & Hre' & _) | [(re' & _ & Hlist' & _) | (_ & _ & name & Hname)]].
      * congruence.
      * congruence.
      * by apply elem_of_nil in Hname.
  - split; [done |].
    intros [(err' & Hre' & _) | [(re' & _ & Hlist' & _) | (_ & Hpanic & _)]].
    + congruence.
    + rewrite Hstat in Hlist'. discriminate.
    + done.
  - split; [done |].
    intros [(err' & Hre' & _) | [(re' & _ & Hlist' & _) | (_ & _ & name & Hname)]].
    + congruence.
    + rewrite Htarget in Hlist'. discriminate.
    + simpl in Hname. by apply elem_of_nil in Hname.
  - split; [done |].
    intros [(err' & Hre' & _) | [(re' & _ & Hlist' & _) | (_ & Hpanic & _)]].
    + congruence.
    + rewrite Htarget in Hlist'. discriminate.
    + done.
  - rewrite removals_app, removals_printResult. simpl.
    destruct (confirmAndDelete_cases ctx w sel)
      as [(Hres & Hrem & _) | (arr & t & -> & Ht & _)].
    { rewrite Hres, Hrem. split; [done |].
      intros [(err' & Hre' & _) | [(re' & _ & Hlist' & _) | (_ & _ & name & Hname)]].
      - congruence.
      - rewrite Htarget in Hlist'. discriminate.
      - by apply elem_of_nil in Hname. }
    simpl in *. rewrite removals_app, Ht. simpl.
    destruct (deleteFiles_result arr (entriesOf (target w)))
      as [(Hres & Hnone & _) | [(Hres & Hfail & _) | (Hres & _)]];
      unfold failed in *; rewrite Hres.
    + split; [done |].
      intros [(err' & Hre' & _) | [(re' & _ & Hlist' & _) | (_ & _ & name & Hname)]].
      * congruence.
      * rewrite Htarget in Hlist'. discriminate.
      * by destruct (Hnone name).
    + split.
      * intros [= <-]. right. right. done.
      * intros [(err' & Hre' & _) | [(re' & _ & Hlist' & _) | (-> & _)]]; [| | done].
        -- congruence.
        -- rewrite Htarget in Hlist'. discriminate.
    + split; [done |].
      intros [(err' & Hre' & _) | [(re' & _ & Hlist' & _) | (_ & Hpanic & _)]];
        [| | done].
      * congruence.
      * rewrite Htarget in Hlist'. discriminate.
Qed.

Lemma Action_error_cases_witness :
  result (Action (mkFlags "*" 0 "." false true) (Examples.world None None))
  = Error ("failed to compile pattern: error parsing regexp: "
           +:+ "missing argument to repetition operator: `*`").
Proof.
  apply (Action_error_cases (mkFlags "*" 0 "." false true) (Examples.world None None)).
  left. exists "error parsing regexp: missing argument to repetition operator: `*`".
  split_and!; reflexivity.
Defined.

(** X14.  For a [number] and a directory size that fit an [int], a run
    panics only if [Stat] on the opened path fails, or [number] is the
    least [int], or after "Pick" the second prompt returned a name it
    had not offered. *)
Theorem Action_panic_cases `{Lib} (ctx : Flags) (w : World) :
  GoInt.in_int (number ctx) →
  GoInt.in_int (Z.of_nat (length (entriesOf (target w)))) →
  result (Action ctx w) = Panic →
  target w = StatError ∨
  number ctx = GoInt.min_int ∨
  (answerSelect w = Some "Pick" ∧
   ∃ checked unknown opts,
     answerMulti w = Some checked ∧ unknown ∈ checked ∧
     AskMultiSelect opts ∈ trace (Action ctx w) ∧ unknown ∉ opts).
Proof.
  intros Hn Hlen.
  destruct (Action_outcomes ctx w)
    as [(err & Hre & ->) | [(re & msg' & Hre & Hlist & ->) | [(re & Hre & Hstat & ->)
       | [(re & arrFiles & line & Hre & Htarget & ->)
       | [(re & arrFiles & Hre & Htarget & Hpanic & ->)
       | (re & arrFiles & sel & Hre & Htarget & _ & _ & ->)]]]]]; simpl; try done.
  - intros _. by left.
  - intros _. right. left.
    apply (selectByNumber_panic_iff _ _ Hn) in Hpanic; [done |].
    rewrite Htarget in Hlen. simpl in Hlen.
    pose proof (length_matches re (Path.Base (Args0 w)) arrFiles) as Hle.
    unfold GoInt.in_int, GoInt.min_int, GoInt.max_int, GoInt.int_bits in *. lia.
  - destruct (confirmAndDelete_cases ctx w sel)
      as [(Hres & _) | (arr & t & -> & Ht & Hnil)]; [by rewrite Hres |].
    simpl.
    destruct (deleteFiles_result arr (entriesOf (target w)))
      as [(Hres & _) | [(Hres & _) | (Hres & Hnone)]]; rewrite Hres; [done | done |].
    intros _. right. right.
    destruct (Hnil Hnone) as (Hpick & Hshown & checked & unknown & Hmulti & Hin & Hnot).
    split; [done |]. exists checked, unknown, (Name <$> sel).
    split_and!; [done | done | | done].
    apply elem_of_app. right. apply elem_of_app. by left.
Qed.

Lemma Action_panic_cases_witness :
  number (Examples.flags GoInt.min_int false true) = GoInt.min_int.
Proof.
  destruct (Action_panic_cases (Examples.flags GoInt.min_int false true)
              (Examples.world None None))
    as [Hstat | [Hmin | (Hpick & _)]]; [by vm_compute | by vm_compute | by vm_compute | | |].
  - discriminate Hstat.
  - exact Hmin.
  - discriminate Hpick.
Defined.

(** ** A run without matches, lines 79-82 *)

Section NoMatch.
Context `{Lib}.

Lemma filter_none {A} (P : A → Prop) `{∀ x, Decision (P x)} (l : list A) :
  filter P l = [] ↔ ∀ x, x ∈ l → ¬ P x.
Proof.
  split.
  - intros Hnil x Hx HP.
    assert (Hin : x ∈ filter P l) by (by apply list_elem_of_filter).
    rewrite Hnil in Hin. by apply elem_of_nil in Hin.
  - intros Hall. destruct (filter P l) as [|x l'] eqn:Hfilter; [done |].
    assert (Hin : x ∈ filter P l) by (rewrite Hfilter; apply list_elem_of_here).
    apply list_elem_of_filter in Hin as [HP Hin]. by destruct (Hall x Hin).
Qed.

(** No listed file passes the filter exactly when no entry that is a
    file with readable metadata has a matching name other than the
    executable's. *)
Lemma no_matches_iff re self (arrFiles : list DirEntry) :
  matchFiles re self (sort_Sort (listByTime_collect arrFiles)) = [] ↔
  ∀ f, f ∈ arrFiles → de_isDir f = false → is_Some (de_stat f) →
       de_name f = self ∨ Regexp.MatchString re (de_name f) = false.
Proof.
  rewrite matchFiles_filter, filter_none. split.
  - intros Hnone f Hf Hdir [[size mtime] Hstat].
    assert (Hinfo : Info f = Some (mkFileInfo (de_name f) size mtime))
      by (unfold Info; by rewrite Hstat).
    specialize (Hnone (mkFileInfo (de_name f) size mtime)).
    unfold accepted in Hnone. simpl in Hnone.
    destruct (decide (de_name f = self)) as [| Hne]; [by left | right].
    destruct (Regexp.MatchString re (de_name f)) eqn:Hm; [| done].
    destruct Hnone; [| done]. apply elem_of_listing. by exists f.
  - intros Hall fi (f & Hf & Hdir & Hinfo)%elem_of_listing [Hne Hm].
    apply Info_Some in Hinfo as [Hname Hstat]. rewrite Hname in *.
    destruct (Hall f Hf Hdir) as [? | Hfalse]; [by eexists | done | congruence].
Qed.

Lemma Action_no_match ctx w re arrFiles :
  regexp_Compile (pattern ctx) = inl re →
  target w = Directory arrFiles →
  matchFiles re (Path.Base (Args0 w)) (sort_Sort (listByTime_collect arrFiles)) = [] →
  Action ctx w = mkRun (Ok ()) [Println "No matching files found"] (target w).
Proof.
  intros Hre Htarget Hnone. unfold Action. rewrite Hre, Htarget. simpl.
  by rewrite Hnone.
Qed.

(** With [number = 0] every match is selected. *)
Lemma Action_select_all ctx w re arrFiles :
  regexp_Compile (pattern ctx) = inl re →
  target w = Directory arrFiles →
  number ctx = 0 →
  matchFiles re (Path.Base (Args0 w)) (sort_Sort (listByTime_collect arrFiles)) ≠ [] →
  Action ctx w
  = after (printResult
             (matchFiles re (Path.Base (Args0 w))
                (sort_Sort (listByTime_collect arrFiles))))
      (confirmAndDelete ctx w
         (matchFiles re (Path.Base (Args0 w))
            (sort_Sort (listByTime_collect arrFiles)))).
Proof.
  intros Hre Htarget Hzero Hsome. unfold Action. rewrite Hre, Htarget, Hzero. simpl.
  rewrite decide_False; [done |]. intros Hlen. by apply nil_length_inv in Hlen.
Qed.

End NoMatch.

(** X15.  Once the pattern compiles and the directory is read, the run
    prints "No matching files found", returns nil and touches nothing,
    whatever [number], [--dry-run] and [--yes] are, exactly when no entry
    that is not a directory and whose [Info()] succeeds has a name that
    the pattern matches and that differs from the executable's. *)
Theorem no_match_message `{Lib} (ctx : Flags) (w : World) (re : Regexp.regex)
    (arrFiles : list DirEntry) :
  regexp_Compile (pattern ctx) = inl re →
  target w = Directory arrFiles →
  Action ctx w = mkRun (Ok ()) [Println "No matching files found"] (target w) ↔
  ∀ f, f ∈ arrFiles → de_isDir f = false → is_Some (de_stat f) →
       de_name f = Path.Base (Args0 w) ∨ Regexp.MatchString re (de_name f) = false.
Proof.
  intros Hre Htarget. rewrite <- no_matches_iff.
  unfold Action. rewrite Hre, Htarget. simpl.
  destruct (decide _) as [Hnone | Hsome].
  - split; [| done]. intros _. by apply nil_length_inv.
  - split; [| intros Hnil; by rewrite Hnil in Hsome].
    destruct (selectByNumber _ _) as [sel | |]; [| discriminate ..].
    unfold after, printResult. destruct (printResult_loop 0 sel 0 []). discriminate.
Qed.

Lemma no_match_message_witness :
  Action (mkFlags "zip" GoInt.min_int "." false true) (Examples.world None None)
  = mkRun (Ok ()) [Println "No matching files found"] Examples.logsDir.
Proof.
  refine (proj2 (no_match_message (mkFlags "zip" GoInt.min_int "." false true)
                   (Examples.world None None) (Regexp.literal "zip")
                   (entriesOf Examples.logsDir) _ _) _).
  - reflexivity.
  - reflexivity.
  - intros f Hf _ _. right.
    repeat (apply elem_of_cons in Hf as [-> | Hf]; [reflexivity |]).
    by apply elem_of_nil in Hf.
Defined.

(** ** The directory after a run *)

Section After.
Context `{Lib}.

End After.

(** X16.  After a run on a directory, the directory holds the entries it
    held, in their order, without those bearing a name on which
    [os.Remove] succeeded: an entry is gone exactly when a removal of its
    name succeeded. *)
Theorem Action_final_directory `{Lib} (ctx : Flags) (w : World)
    (arrFiles : list DirEntry) :
  target w = Directory arrFiles →
  final (Action ctx w)
  = Directory (filter (λ en, ¬ removed_by (trace (Action ctx w)) en) arrFiles).
Proof.
  intros Htarget.
  assert (Hkeep : ∀ t, removals t = [] →
            Directory arrFiles
            = Directory (filter (λ en, ¬ removed_by t en) arrFiles)).
  { intros t Ht. f_equal. symmetry. apply filter_all.
    intros en _. unfold removed_by. rewrite Ht. by intros ?%elem_of_nil. }
  destruct (Action_outcomes ctx w)
    as [(err & Hre & ->) | [(re & msg' & Hre & Hlist & ->) | [(re & Hre & Hstat & ->)
       | [(re & arrFiles' & line & Hre & Htarget' & ->)
       | [(re & arrFiles' & Hre & Htarget' & Hpanic & ->)
       | (re & arrFiles' & sel & Hre & Htarget' & _ & _ & ->)]]]]]; simpl;
    rewrite ?Htarget; try by apply Hkeep.
  destruct (confirmAndDelete_cases ctx w sel)
    as [(_ & Hrem & Hfinal) | (arr & t & -> & Ht & _)].
  - rewrite Hfinal, Htarget. apply Hkeep.
    by rewrite removals_app, removals_printResult, Hrem.
  - simpl. rewrite deleteFiles_final, Htarget. simpl. f_equal.
    apply list_filter_iff. intros en. unfold removed_by.
    by rewrite !removals_app, removals_printResult, Ht.
Qed.

Lemma Action_final_directory_witness :
  de_name <$> entriesOf (final (Action (Examples.flags 2 false true)
                                  (Examples.world None None)))
  = ["c.log"; "sub"].
Proof.
  rewrite (Action_final_directory (Examples.flags 2 false true)
             (Examples.world None None) (entriesOf Examples.logsDir) eq_refl).
  reflexivity.
Defined.

(** X17.  After a run with [number = 0] and [--yes] that returned nil,
    a second run with the same pattern on the directory as the first left
    it prints "No matching files found" and touches nothing. *)
Theorem second_run_finds_nothing `{Lib} (ctx : Flags) (w : World)
    (select : option string) (multi : option (list string)) :
  number ctx = 0 → yes ctx = true → dry_run ctx = false →
  result (Action ctx w) = Ok () →
  Action ctx (mkWorld (Args0 w) (final (Action ctx w)) select multi)
  = mkRun (Ok ()) [Println "No matching files found"] (final (Action ctx w)).
Proof.
  intros Hzero Hyes Hdry Hok.
  destruct (regexp_Compile (pattern ctx)) as [re | err] eqn:Hre.
  2: { unfold Action in Hok. by rewrite Hre in Hok. }
  destruct (target w) as [err| | |err|arrFiles] eqn:Htarget.
  1-4: unfold Action in Hok; by rewrite Hre, Htarget in Hok.
  set (l := matchFiles re (Path.Base (Args0 w)) (sort_Sort (listByTime_collect arrFiles))).
  destruct (decide (l = [])) as [Hnone | Hsome].
  { rewrite (Action_no_match ctx w re arrFiles Hre Htarget Hnone). simpl.
    rewrite Htarget.
    exact (Action_no_match ctx (mkWorld (Args0 w) (Directory arrFiles) select multi)
             re arrFiles Hre eq_refl Hnone). }
  rewrite (Action_select_all ctx w re arrFiles Hre Htarget Hzero Hsome) in *.
  fold l in Hok |- *. rewrite confirmAndDelete_yes in * by done.
  simpl in *. rewrite Htarget in *. simpl in *.
  destruct (deleteFiles_result (Some <$> l) arrFiles)
    as [(_ & Hnone & _) | [(Hres & _) | (Hres & _)]];
    [| by rewrite Hres in Hok ..].
  destruct (deleteFiles_attempts l arrFiles) as [Hnames _].
  rewrite deleteFiles_final.
  refine (Action_no_match ctx (mkWorld (Args0 w) (Directory _) select multi)
            re _ Hre eq_refl _).
  simpl. apply no_matches_iff.
  intros f [Hkept Hf]%list_elem_of_filter Hdir [[size mtime] Hstat].
  destruct (decide (de_name f = Path.Base (Args0 w))) as [| Hne]; [by left | right].
  destruct (Regexp.MatchString re (de_name f)) eqn:Hm; [| done].
  destruct Hkept. unfold removed_by.
  assert (Hin : mkFileInfo (de_name f) size mtime ∈ l).
  { unfold l. rewrite matchFiles_filter. apply list_elem_of_filter. split; [done |].
    apply elem_of_listing. exists f. split_and!; [done | done |].
    unfold Info. by rewrite Hstat. }
  assert (Hname : de_name f ∈ (removals (trace (deleteFiles (Some <$> l) arrFiles))).*1).
  { rewrite Hnames. by apply (list_elem_of_fmap_2 Name) in Hin. }
  apply list_elem_of_fmap in Hname as ([name ok] & Heq & Hrem). simpl in Heq. subst name.
  destruct ok; [done |]. by destruct (Hnone (de_name f)).
Qed.

Lemma second_run_finds_nothing_witness :
  Action (Examples.flags 0 false true)
    (mkWorld "./delete-old-files"
       (final (Action (Examples.flags 0 false true) (Examples.world None None)))
       None None)
  = mkRun (Ok ()) [Println "No matching files found"]
      (Directory [mkDirEntry "sub" true (Some (0, 5)) None]).
Proof.
  exact (second_run_finds_nothing (Examples.flags 0 false true)
           (Examples.world None None) None None eq_refl eq_refl eq_refl eq_refl).
Defined.

(** ** The name of the executable, line 62 *)

Section BaseName.
Import Path.

Lemma eqb_slash (c : ascii) : Ascii.eqb c slash = bool_decide (c = slash).
Proof.
  destruct (Ascii.eqb_spec c slash).
  - by rewrite bool_decide_eq_true_2.
  - by rewrite bool_decide_eq_false_2.
Qed.

Lemma stripTrailingSlashes_name (name : list ascii) :
  slash ∉ name → stripTrailingSlashes name = name.
Proof.
  induction name as [|c name IH]; [done |].
  rewrite not_elem_of_cons. intros [Hc Hname]. simpl. rewrite IH by done.
  destruct name; [| done].
  rewrite eqb_slash, bool_decide_eq_false_2; [done | congruence].
Qed.

Lemma stripTrailingSlashes_app (l name : list ascii) :
  name ≠ [] → slash ∉ name → stripTrailingSlashes (l ++ name) = l ++ name.
Proof.
  intros Hsome Hname. induction l as [|c l IH]; simpl.
  - by apply stripTrailingSlashes_name.
  - rewrite IH. destruct (l ++ name) eqn:Heq; [| done].
    apply app_eq_nil in Heq as [_ ?]. done.
Qed.

(** Trailing slashes do not count. *)
Lemma stripTrailingSlashes_slashes (p : list ascii) (k : nat) :
  stripTrailingSlashes (p ++ replicate k slash) = stripTrailingSlashes p.
Proof.
  induction p as [|c p IH]; simpl.
  - induction k as [|k IHk]; [done |]. simpl. by rewrite IHk.
  - by rewrite IH.
Qed.

Lemma afterLastSlash_name (acc name : list ascii) :
  slash ∉ name → afterLastSlash acc name = acc ++ name.
Proof.
  revert acc. induction name as [|c name IH]; intros acc; [by rewrite app_nil_r |].
  rewrite not_elem_of_cons. intros [Hc Hname]. simpl.
  rewrite eqb_slash, bool_decide_eq_false_2 by congruence.
  rewrite IH by done. by rewrite <- app_assoc.
Qed.

Lemma afterLastSlash_app (acc l rest : list ascii) :
  afterLastSlash acc (l ++ slash :: rest) = afterLastSlash [] rest.
Proof.
  revert acc. induction l as [|c l IH]; intros acc; simpl.
  - done.
  - destruct (Ascii.eqb c slash); apply IH.
Qed.

Lemma afterLastSlash_no_slash (acc p : list ascii) :
  slash ∉ acc → slash ∉ afterLastSlash acc p.
Proof.
  revert acc. induction p as [|c p IH]; intros acc Hacc; simpl; [done |].
  rewrite eqb_slash. case_bool_decide as Hc.
  - apply IH. by intros ?%elem_of_nil.
  - apply IH. rewrite elem_of_app, list_elem_of_singleton. intros [? | ?]; congruence.
Qed.

End BaseName.

(** X18.  [path.Base] yields the last element of the path: for a
    non-empty name without slash, the base of the name alone and of the
    name after any directory prefix, with any number of trailing slashes,
    is the name.  In general the base is never empty and, unless it is
    "/", holds no slash. *)
Theorem Base_last_element (dir name : list ascii) (k : nat) (p : string) :
  name ≠ [] → Path.slash ∉ name →
  Path.Base (string_of_list_ascii name) = string_of_list_ascii name ∧
  Path.Base (string_of_list_ascii (dir ++ Path.slash :: name ++ replicate k Path.slash))
    = string_of_list_ascii name ∧
  Path.Base p ≠ "" ∧
  (Path.Base p = "/" ∨ Path.slash ∉ list_ascii_of_string (Path.Base p)).
Proof.
  intros Hsome Hname. unfold Path.Base. split_and!.
  - rewrite list_ascii_of_string_of_list_ascii.
    destruct name as [|c rest]; [done |].
    by rewrite stripTrailingSlashes_name, afterLastSlash_name by done.
  - rewrite list_ascii_of_string_of_list_ascii.
    destruct (dir ++ _) eqn:Heq; [by apply app_eq_nil in Heq as [_ ?] |].
    rewrite <- Heq.
    replace (dir ++ Path.slash :: name ++ replicate k Path.slash)
      with ((dir ++ Path.slash :: name) ++ replicate k Path.slash)
      by (by rewrite <- app_assoc).
    rewrite stripTrailingSlashes_slashes.
    replace (dir ++ Path.slash :: name) with ((dir ++ [Path.slash]) ++ name)
      by (by rewrite <- app_assoc).
    rewrite stripTrailingSlashes_app by done.
    rewrite <- app_assoc. simpl.
    rewrite afterLastSlash_app, afterLastSlash_name by done. simpl.
    by destruct name.
  - destruct (list_ascii_of_string p); [done |].
    destruct (Path.afterLastSlash _ _) as [|c q]; done.
  - destruct (list_ascii_of_string p) as [|c0 p0];
      [right; simpl; by intros [[=] | ?%elem_of_nil]%elem_of_cons |].
    pose proof (afterLastSlash_no_slash [] (Path.stripTrailingSlashes (c0 :: p0)))
      as Hno.
    destruct (Path.afterLastSlash _ _) as [|c q]; [by left | right].
    rewrite list_ascii_of_string_of_list_ascii. apply Hno. by intros ?%elem_of_nil.
Qed.

Lemma Base_last_element_witness :
  Path.Base "/usr/local/bin/dof//" = "dof".
Proof.
  exact (proj1 (proj2 (Base_last_element (list_ascii_of_string "/usr/local/bin")
                         (list_ascii_of_string "dof") 2 ""
                         ltac:(discriminate)
                         ltac:(apply (bool_decide_unpack _); by vm_compute)))).
Defined.

(** ** The flags, lines 22-53 and 100-102 *)

(** X19.  With [--pattern] alone, a run that finds matches presents all
    of them and then shows the prompt, before anything else. *)
Theorem default_run_asks `{Lib} (p : string) (w : World) (re : Regexp.regex)
    (arrFiles : list DirEntry) :
  regexp_Compile p = inl re →
  target w = Directory arrFiles →
  matchFiles re (Path.Base (Args0 w)) (sort_Sort (listByTime_collect arrFiles)) ≠ [] →
  printResult
    (matchFiles re (Path.Base (Args0 w)) (sort_Sort (listByTime_collect arrFiles)))
    ++ [AskSelect promptOptions]
  `prefix_of` trace (Action (defaultFlags p) w).
Proof.
  intros Hre Htarget Hsome.
  rewrite (Action_select_all (defaultFlags p) w re arrFiles Hre Htarget eq_refl Hsome).
  simpl. unfold confirmAndDelete, confirmation. simpl.
  repeat case_decide; simpl; eexists; rewrite <- app_assoc; simpl; reflexivity.
Qed.

Lemma default_run_asks_witness :
  ∃ re, Sample.Compile ".*\.log" = inl re ∧
    printResult
      (matchFiles re (Path.Base "./delete-old-files")
         (sort_Sort (listByTime_collect (entriesOf Examples.logsDir))))
      ++ [AskSelect promptOptions]
    `prefix_of` trace (Action (defaultFlags ".*\.log") (Examples.world None None)).
Proof.
  eexists. split; [reflexivity |].
  apply (default_run_asks ".*\.log" (Examples.world None None) _
           (entriesOf Examples.logsDir)).
  - reflexivity.
  - reflexivity.
  - by vm_compute.
Defined.

(** X20.  What a dry run shows is how the run without [--dry-run]
    begins: its trace is a prefix of the trace of the other, and when the
    dry run returns an error or panics, so does the other, alike. *)
Theorem dry_run_previews `{Lib} (ctx : Flags) (w : World) :
  trace (Action (withDryRun ctx) w) `prefix_of` trace (Action ctx w) ∧
  (result (Action (withDryRun ctx) w) ≠ Ok () →
   Action ctx w = Action (withDryRun ctx) w).
Proof.
  unfold Action. simpl.
  destruct (regexp_Compile (pattern ctx)) as [re | err]; [| done].
  destruct (listByTime (target w)) as [arrFileInfo | msg |]; [| done ..].
  destruct (decide _); [done |].
  destruct (selectByNumber _ _) as [sel | |]; [| done ..].
  simpl. split; [| done].
  rewrite app_nil_r. by apply prefix_app_r.
Qed.

Lemma dry_run_previews_witness :
  Action (mkFlags "*" 0 "." false true) (Examples.world None None)
  = Action (withDryRun (mkFlags "*" 0 "." false true)) (Examples.world None None).
Proof.
  refine (proj2 (dry_run_previews (mkFlags "*" 0 "." false true)
                   (Examples.world None None)) _).
  discriminate.
Defined.
